(** * The shell command-name extractor of [minisweagent.utils.bash_parser]

    A shallow embedding of [bash_parser.py] and a verification of the
    properties its specification states.

    Modelling conventions.
    - A Python [str] is a sequence of Unicode code points: [str := list N].
    - Code that can raise returns in the [result] monad; Python [while]
      loops are run by the combinator [while_], whose fuel is chosen by the
      caller from the size of the data and is proved never to run out.
    - [out.append(x)] on the shared output list is explicit state passing.
    - The interpreter's bound on the nesting of calls is part of the model
      where the program recurses, in the walk of the trees: the class
      [Interpreter] gives the room that is left, and the walk raises
      [RecursionError] when it is used up.  Memory is not modelled. *)

From Stdlib Require Import String Ascii NArith ZArith Bool Arith Lia List.
Import ListNotations.

Set Implicit Arguments.

(* ===================================================================== *)
(** ** Python values used by the program *)
(* ===================================================================== *)

(** A character is its code point; a [str] is the list of its characters. *)
Abbreviation char := N (only parsing).
Abbreviation str := (list N) (only parsing).

(** The code points of an ASCII literal. *)
Definition py (s : string) : str :=
  map N_of_ascii (list_ascii_of_string s).

Fixpoint str_eqb (a b : str) : bool :=
  match a, b with
  | [], [] => true
  | x :: a', y :: b' => N.eqb x y && str_eqb a' b'
  | _, _ => false
  end.

(** [c in s] for a one-character [c]. *)
Definition chr_in (c : char) (s : str) : bool := existsb (N.eqb c) s.

(** [x in S] for a set of strings [S]: only membership is ever asked. *)
Definition str_in (x : str) (S : list str) : bool := existsb (str_eqb x) S.

(** [s.startswith(p)]. *)
Fixpoint startswith (s p : str) : bool :=
  match p, s with
  | [], _ => true
  | c :: p', d :: s' => N.eqb c d && startswith s' p'
  | _ :: _, [] => false
  end.

(** The part of the Unicode character database that Python consults for
    code points outside ASCII.  On ASCII the classes are fixed. *)
Class UnicodeDB := {
  uni_isalpha : char -> bool;
  uni_isalnum : char -> bool;
  uni_isspace : char -> bool;
  (* [isalnum] is defined as [isalpha or isdecimal or isdigit or isnumeric] *)
  uni_alpha_alnum : forall c, uni_isalpha c = true -> uni_isalnum c = true
}.

Definition ascii_isupper (c : char) : bool := (65 <=? c)%N && (c <=? 90)%N.
Definition ascii_islower (c : char) : bool := (97 <=? c)%N && (c <=? 122)%N.
Definition ascii_isdigit (c : char) : bool := (48 <=? c)%N && (c <=? 57)%N.

Section CharClasses.
Context {db : UnicodeDB}.

(** [ch.isalpha()] *)
Definition isalpha (c : char) : bool :=
  if (c <? 128)%N then ascii_isupper c || ascii_islower c else uni_isalpha c.

(** [ch.isalnum()] *)
Definition isalnum (c : char) : bool :=
  if (c <? 128)%N then ascii_isupper c || ascii_islower c || ascii_isdigit c
  else uni_isalnum c.

(** The class [\s] of [re] on [str] patterns. *)
Definition isspace (c : char) : bool :=
  if (c <? 128)%N
  then ((9 <=? c)%N && (c <=? 13)%N) || ((28 <=? c)%N && (c <=? 32)%N)
  else uni_isspace c.
End CharClasses.

(** Exceptions the program can meet. *)
Inductive exn :=
| ValueError
| IndexError
| RecursionError   (* the nesting of calls went past the interpreter's limit *)
| LibraryError.    (* any [Exception] raised inside the grammar engine *)

(** Outcome of running a piece of Python. *)
Inductive result (A : Type) :=
| Ok (a : A)
| Raise (e : exn)
| Diverge.

Arguments Ok {A} a.
Arguments Raise {A} e.
Arguments Diverge {A}.

Definition bind {A B} (r : result A) (k : A -> result B) : result B :=
  match r with
  | Ok a => k a
  | Raise e => Raise e
  | Diverge => Diverge
  end.

Declare Scope py_scope.
Delimit Scope py_scope with py.
Notation "x <- c ;; k" := (bind c (fun x => k))
  (at level 61, c at next level, right associativity) : py_scope.
Notation "' p <- c ;; k" := (bind c (fun x => let 'p := x in k))
  (at level 61, p pattern, c at next level, right associativity) : py_scope.
Open Scope py_scope.

(** [l[i]] for [i >= 0]. *)
Definition getitem {A} (l : list A) (i : nat) : result A :=
  match nth_error l i with
  | Some x => Ok x
  | None => Raise IndexError
  end.

(** How one pass through a loop body ends: falls through or [continue]
    ([Next]), [break], or [return r] from the enclosing function. *)
Inductive step (S R : Type) :=
| Next (s : S)
| Break (s : S)
| Return (r : R).

Arguments Next {S R} s.
Arguments Break {S R} s.
Arguments Return {S R} r.

(** [while cond: body].  The loop ends with the state at exit ([inl]) or
    with the value returned from inside it ([inr]). *)
Fixpoint while_ {S R} (fuel : nat) (cond : S -> result bool)
    (body : S -> result (step S R)) (s : S) : result (S + R) :=
  match fuel with
  | O => Diverge
  | Datatypes.S fuel' =>
      c <- cond s ;;
      if c : bool then
        r <- body s ;;
        match r with
        | Next s' => while_ fuel' cond body s'
        | Break s' => Ok (inl s')
        | Return v => Ok (inr v)
        end
      else Ok (inl s)
  end.

(* ===================================================================== *)
(** ** Heuristic tables *)
(* ===================================================================== *)

Definition _WRAPPERS : list str :=
  map py ["sudo"; "env"; "command"; "builtin"; "time"; "nice"; "nohup";
          "chronic"; "stdbuf"; "setpriv"; "chpst"; "gosu"; "su"; "chroot";
          "ionice"; "taskset"]%string.

Definition _COMMAND_SEPARATORS : list str :=
  map py ["|"; "||"; "&"; "&&"; ";"; ";;"; "("; ")"]%string.

Definition _REDIRECTION_TOKENS : list str :=
  map py ["<"; ">"; "<<"; ">>"; "<<<"; "<>"; ">&"; "<&"; ">|"; "<<-"]%string.

Definition _NON_COMMAND_TOKENS : list str :=
  map py ["$"; "!"; "{"]%string.

(* ===================================================================== *)
(** ** Word/wrapper resolver *)
(* ===================================================================== *)

(** [s.split("=", 1)[0]] when ["=" in s]: the text before the first ["="]. *)
Fixpoint before_eq (s : str) : str :=
  match s with
  | [] => []
  | c :: s' => if (c =? 61)%N then [] else c :: before_eq s'
  end.

Section Resolver.
Context {db : UnicodeDB}.

Definition _looks_like_assignment_word (s : str) : bool :=
  if negb (chr_in 61%N s) then false
  else
    let name := before_eq s in
    match name with
    | [] => false
    | c0 :: _ =>
        if negb (isalpha c0 || (c0 =? 95)%N) then false
        else forallb (fun ch => isalnum ch || (ch =? 95)%N) name
    end.

(** The first loop of the [env] branch. *)
Definition env_loop (args : list str) (j : nat) : result (nat + option str) :=
  while_ (S (length args))
    (fun j => Ok (j <? length args))
    (fun j =>
       a <- getitem args j ;;
       if str_eqb a (py "--") then Ok (Break (j + 1))
       else if startswith a (py "-") then
         if str_in a (map py ["-u"; "--unset"]%string) && (j + 1 <? length args)
         then Ok (Next (j + 2))
         else Ok (Next (j + 1))
       else if _looks_like_assignment_word a then Ok (Next (j + 1))
       else Ok (Return (Some a)))
    j.

(** [while j < len(args) and _looks_like_assignment_word(args[j]): j += 1] *)
Definition skip_assignments (args : list str) (j : nat) : result nat :=
  r <- while_ (S (length args))
         (fun j =>
            if j <? length args
            then a <- getitem args j ;; Ok (_looks_like_assignment_word a)
            else Ok false)
         (fun j => Ok (@Next nat Empty_set (j + 1)))
         j ;;
  match r with
  | inl j' => Ok j'
  | inr e => match e with end
  end.

Definition sudo_loop (args : list str) (j : nat) : result (nat + option str) :=
  while_ (S (length args))
    (fun j => Ok (j <? length args))
    (fun j =>
       a <- getitem args j ;;
       if str_eqb a (py "--") then Ok (Break (j + 1))
       else if startswith a (py "-") then
         if str_in a (map py ["-u"; "-g"; "-h"; "-p"; "-U"; "-t"; "-C"]%string)
            && (j + 1 <? length args)
         then Ok (Next (j + 2))
         else Ok (Next (j + 1))
       else Ok (Return (Some a)))
    j.

(** [while j < len(args) and args[j].startswith("-"): j += 1] *)
Definition command_loop (args : list str) (j : nat) : result nat :=
  r <- while_ (S (length args))
         (fun j =>
            if j <? length args
            then a <- getitem args j ;; Ok (startswith a (py "-"))
            else Ok false)
         (fun j => Ok (@Next nat Empty_set (j + 1)))
         j ;;
  match r with
  | inl j' => Ok j'
  | inr e => match e with end
  end.

Definition other_loop (args : list str) (j : nat) : result (nat + option str) :=
  while_ (S (length args))
    (fun j => Ok (j <? length args))
    (fun j =>
       a <- getitem args j ;;
       if str_eqb a (py "--") then Ok (Break (j + 1))
       else if startswith a (py "-") then Ok (Next (j + 1))
       else Ok (Return (Some a)))
    j.

(** [args[j] if j < len(args) else None] *)
Definition item_or_none (args : list str) (j : nat) : result (option str) :=
  if j <? length args then a <- getitem args j ;; Ok (Some a) else Ok None.

Definition _infer_wrapped_command (wrapper : str) (args : list str)
  : result (option str) :=
  match args with
  | [] => Ok None
  | _ :: _ =>
    if str_eqb wrapper (py "env") then
      r <- env_loop args 0 ;;
      match r with
      | inr a => Ok a
      | inl j =>
          if j <? length args then
            j' <- skip_assignments args j ;;
            if j' <? length args then a <- getitem args j' ;; Ok (Some a)
            else Ok None
          else Ok None
      end
    else if str_eqb wrapper (py "sudo") then
      r <- sudo_loop args 0 ;;
      match r with
      | inr a => Ok a
      | inl j =>
          if j <? length args then a <- getitem args j ;; Ok (Some a)
          else Ok None
      end
    else if str_in wrapper (map py ["command"; "builtin"]%string) then
      j <- command_loop args 0 ;;
      item_or_none args j
    else if str_in wrapper
              (map py ["time"; "nice"; "nohup"; "chronic"; "stdbuf"; "setpriv";
                       "chpst"; "gosu"; "su"; "chroot"; "ionice";
                       "taskset"]%string) then
      r <- other_loop args 0 ;;
      match r with
      | inr a => Ok a
      | inl j => item_or_none args j
      end
    else Ok None
  end.

(** [words[i + 1:]] *)
Definition slice_from {A} (l : list A) (i : nat) : list A := skipn i l.

Definition _append_command_words (words : list str) (out : list str)
  : result (list str) :=
  match words with
  | [] => Ok out
  | _ :: _ =>
      i <- skip_assignments words 0 ;;
      if length words <=? i then Ok out
      else
        cmd0 <- getitem words i ;;
        let out := out ++ [cmd0] in
        if str_in cmd0 _WRAPPERS then
          wrapped <- _infer_wrapped_command cmd0 (slice_from words (i + 1)) ;;
          match wrapped with
          | Some w => Ok (out ++ [w])
          | None => Ok out
          end
        else Ok out
  end.
End Resolver.

(* ===================================================================== *)
(** ** The standard library's [shlex] lexer, in POSIX mode *)
(* ===================================================================== *)

Module Shlex.

(** The attributes of a [shlex] instance that steer tokenization.  The
    program always constructs the lexer with [posix=True], so [self.posix]
    is true and [self.eof] is [None] throughout. *)
Record config := {
  whitespace_split : bool;
  commenters : str;
  wordchars : str;
  whitespace : str;
  quotes : str;
  escape : str;
  escapedquotes : str;
  punctuation_chars : str
}.

(** The attributes that change while reading.  [state] is a
    one-character string or [None]; [instream] is what is left to read. *)
Record lexer := {
  instream : str;
  _pushback_chars : list char;
  pushback : list str;
  state : option char;
  token : str
}.

Definition set_instream (l : lexer) (v : str) : lexer :=
  {| instream := v; _pushback_chars := _pushback_chars l;
     pushback := pushback l; state := state l; token := token l |}.
Definition set_pushback_chars (l : lexer) (v : list char) : lexer :=
  {| instream := instream l; _pushback_chars := v;
     pushback := pushback l; state := state l; token := token l |}.
Definition set_pushback (l : lexer) (v : list str) : lexer :=
  {| instream := instream l; _pushback_chars := _pushback_chars l;
     pushback := v; state := state l; token := token l |}.
Definition set_state (l : lexer) (v : option char) : lexer :=
  {| instream := instream l; _pushback_chars := _pushback_chars l;
     pushback := pushback l; state := v; token := token l |}.
Definition set_token (l : lexer) (v : str) : lexer :=
  {| instream := instream l; _pushback_chars := _pushback_chars l;
     pushback := pushback l; state := state l; token := v |}.

Fixpoint rangeN (lo : N) (n : nat) : list N :=
  match n with
  | O => []
  | S n' => lo :: rangeN (N.succ lo) n'
  end.

(** [shlex.__init__(instream, posix=True, punctuation_chars=pc)] for a
    string [instream] and a string [pc]. *)
Definition init_config (pc : str) : config :=
  let wc := py "abcdfeghijklmnopqrstuvwxyzABCDEFGHIJKLMNOPQRSTUVWXYZ0123456789_"
            ++ [223%N] ++ rangeN 224 23 ++ rangeN 248 8
            ++ rangeN 192 23 ++ rangeN 216 7 in
  let wc := match pc with
            | [] => wc
            | _ :: _ => filter (fun c => negb (chr_in c pc)) (wc ++ py "~-./*?=")
            end in
  {| whitespace_split := false; commenters := py "#";
     wordchars := wc; whitespace := [32; 9; 13; 10]%N; quotes := [39; 34]%N;
     escape := [92%N]; escapedquotes := [34%N]; punctuation_chars := pc |}.

Definition init_lexer (instream_ : str) : lexer :=
  {| instream := instream_; _pushback_chars := []; pushback := [];
     state := Some 32%N; token := [] |}.

Definition set_whitespace_split (c : config) (v : bool) : config :=
  {| whitespace_split := v; commenters := commenters c;
     wordchars := wordchars c; whitespace := whitespace c; quotes := quotes c;
     escape := escape c; escapedquotes := escapedquotes c;
     punctuation_chars := punctuation_chars c |}.
Definition set_commenters (c : config) (v : str) : config :=
  {| whitespace_split := whitespace_split c; commenters := v;
     wordchars := wordchars c; whitespace := whitespace c; quotes := quotes c;
     escape := escape c; escapedquotes := escapedquotes c;
     punctuation_chars := punctuation_chars c |}.

(** The local variables of [read_token] together with the instance. *)
Record frame := {
  self : lexer;
  quoted : bool;
  escapedstate : char
}.

Definition upd (f : frame) (g : lexer -> lexer) : frame :=
  {| self := g (self f); quoted := quoted f; escapedstate := escapedstate f |}.
Definition set_quoted (f : frame) (v : bool) : frame :=
  {| self := self f; quoted := v; escapedstate := escapedstate f |}.
Definition set_escapedstate (f : frame) (v : char) : frame :=
  {| self := self f; quoted := quoted f; escapedstate := v |}.

Section Reading.
Variable cfg : config.

(** [self._pushback_chars.pop()] or [self.instream.read(1)]; [None]
    is the empty string read at end of input. *)
Definition next_char (l : lexer) : option char * lexer :=
  match punctuation_chars cfg, rev (_pushback_chars l) with
  | _ :: _, c :: before => (Some c, set_pushback_chars l (rev before))
  | _, _ =>
      match instream l with
      | [] => (None, l)
      | c :: rest => (Some c, set_instream l rest)
      end
  end.

(** [self.instream.readline()] *)
Fixpoint readline (s : str) : str :=
  match s with
  | [] => []
  | c :: rest => if (c =? 10)%N then rest else readline rest
  end.

(** [if self.token or (self.posix and quoted): break  else: continue] *)
Definition emit (f : frame) : step frame Empty_set :=
  match token (self f) with
  | _ :: _ => Break f
  | [] => if quoted f then Break f else Next f
  end.

(** One pass through the [while True] of [read_token]. *)
Definition read_token_body (f : frame) : result (step frame Empty_set) :=
  let (nextchar, l) := next_char (self f) in
  let f := upd f (fun _ => l) in
  match state l with
  | None => Ok (Break (upd f (fun l => set_token l [])))
  | Some st =>
    if (st =? 32)%N then
      match nextchar with
      | None => Ok (Break (upd f (fun l => set_state l None)))
      | Some c =>
        if chr_in c (whitespace cfg) then Ok (emit f)
        else if chr_in c (commenters cfg) then
          Ok (Next (upd f (fun l => set_instream l (readline (instream l)))))
        else if chr_in c (escape cfg) then
          Ok (Next (upd (set_escapedstate f 97%N) (fun l => set_state l (Some c))))
        else if chr_in c (wordchars cfg) then
          Ok (Next (upd f (fun l => set_state (set_token l [c]) (Some 97%N))))
        else if chr_in c (punctuation_chars cfg) then
          Ok (Next (upd f (fun l => set_state (set_token l [c]) (Some 99%N))))
        else if chr_in c (quotes cfg) then
          Ok (Next (upd f (fun l => set_state l (Some c))))
        else if whitespace_split cfg then
          Ok (Next (upd f (fun l => set_state (set_token l [c]) (Some 97%N))))
        else Ok (emit (upd f (fun l => set_token l [c])))
      end
    else if chr_in st (quotes cfg) then
      let f := set_quoted f true in
      match nextchar with
      | None => Raise ValueError
      | Some c =>
        if (c =? st)%N then
          Ok (Next (upd f (fun l => set_state l (Some 97%N))))
        else if chr_in c (escape cfg) && chr_in st (escapedquotes cfg) then
          Ok (Next (upd (set_escapedstate f st) (fun l => set_state l (Some c))))
        else Ok (Next (upd f (fun l => set_token l (token l ++ [c]))))
      end
    else if chr_in st (escape cfg) then
      match nextchar with
      | None => Raise ValueError
      | Some c =>
        let f := if chr_in (escapedstate f) (quotes cfg)
                    && negb (c =? st)%N && negb (c =? escapedstate f)%N
                 then upd f (fun l => set_token l (token l ++ [st]))
                 else f in
        Ok (Next (upd f (fun l =>
             set_state (set_token l (token l ++ [c])) (Some (escapedstate f)))))
      end
    else if (st =? 97)%N || (st =? 99)%N then
      match nextchar with
      | None => Ok (Break (upd f (fun l => set_state l None)))
      | Some c =>
        if chr_in c (whitespace cfg) then
          Ok (emit (upd f (fun l => set_state l (Some 32%N))))
        else if chr_in c (commenters cfg) then
          let f := upd f (fun l => set_instream l (readline (instream l))) in
          Ok (emit (upd f (fun l => set_state l (Some 32%N))))
        else if (st =? 99)%N then
          if chr_in c (punctuation_chars cfg) then
            Ok (Next (upd f (fun l => set_token l (token l ++ [c]))))
          else
            let f := if negb (chr_in c (whitespace cfg))
                     then upd f (fun l => set_pushback_chars l (_pushback_chars l ++ [c]))
                     else f in
            Ok (Break (upd f (fun l => set_state l (Some 32%N))))
        else if chr_in c (quotes cfg) then
          Ok (Next (upd f (fun l => set_state l (Some c))))
        else if chr_in c (escape cfg) then
          Ok (Next (upd (set_escapedstate f 97%N) (fun l => set_state l (Some c))))
        else if chr_in c (wordchars cfg) || chr_in c (quotes cfg)
                || (whitespace_split cfg && negb (chr_in c (punctuation_chars cfg))) then
          Ok (Next (upd f (fun l => set_token l (token l ++ [c]))))
        else
          let f := match punctuation_chars cfg with
                   | _ :: _ => upd f (fun l => set_pushback_chars l (_pushback_chars l ++ [c]))
                   | [] => upd f (fun l => set_pushback l ([c] :: pushback l))
                   end in
          Ok (emit (upd f (fun l => set_state l (Some 32%N))))
      end
    else Ok (Next f)
  end.

(** Number of passes that [read_token] can need at most. *)
Definition read_fuel (l : lexer) : nat :=
  length (_pushback_chars l) + length (instream l) + 2.

(** [self.read_token()]: the token ([None] is Python's [None]) and the
    instance afterwards. *)
Definition read_token (l : lexer) : result (option str * lexer) :=
  r <- while_ (read_fuel l) (fun _ => Ok true) read_token_body
         {| self := l; quoted := false; escapedstate := 32%N |} ;;
  match r with
  | inr e => match e with end
  | inl f =>
      let result := token (self f) in
      let l' := set_token (self f) [] in
      match result with
      | [] => if negb (quoted f) then Ok (None, l') else Ok (Some [], l')
      | _ :: _ => Ok (Some result, l')
      end
  end.

(** [self.get_token()], for an instance without [source] and with an
    empty [filestack], as the constructor leaves them. *)
Definition get_token (l : lexer) : result (option str * lexer) :=
  match pushback l with
  | tok :: rest => Ok (Some tok, set_pushback l rest)
  | [] => read_token l
  end.

(** One pass through [list(lexer)]: [__next__] raises [StopIteration]
    when [get_token] returns [self.eof], which is [None]. *)
Definition to_list_body (s : lexer * list str)
  : result (step (lexer * list str) Empty_set) :=
  '(tok, l') <- get_token (fst s) ;;
  match tok with
  | None => Ok (Break (l', snd s))
  | Some t => Ok (Next (l', snd s ++ [t]))
  end.

(** [list(lexer)] *)
Definition to_list (l : lexer) : result (list str) :=
  r <- while_ (2 * length (instream l) + length (_pushback_chars l)
               + length (pushback l) + 2)
         (fun _ => Ok true) to_list_body (l, []) ;;
  match r with
  | inl s => Ok (snd s)
  | inr e => match e with end
  end.
End Reading.
End Shlex.

(* ===================================================================== *)
(** ** Fallback tokenizer path *)
(* ===================================================================== *)

Section Fallback.
Context {db : UnicodeDB}.

Definition fallback_config : Shlex.config :=
  Shlex.set_commenters
    (Shlex.set_whitespace_split (Shlex.init_config (py "|&;()<>")) true) [].

(** The scan loop; the state is [(i, words, out)]. *)
Definition scan_body (tokens : list str) (s : nat * list str * list str)
  : result (step (nat * list str * list str) Empty_set) :=
  let '(i, words, out) := s in
  token <- getitem tokens i ;;
  if str_in token _COMMAND_SEPARATORS then
    out' <- _append_command_words words out ;;
    Ok (Next (i + 1, [], out'))
  else if str_in token _REDIRECTION_TOKENS then Ok (Next (i + 2, words, out))
  else if str_in token _NON_COMMAND_TOKENS then Ok (Next (i + 1, words, out))
  else Ok (Next (i + 1, words ++ [token], out)).

Definition scan_loop (tokens : list str) (s : nat * list str * list str)
  : result (nat * list str * list str) :=
  r <- while_ (S (length tokens))
         (fun s => Ok (fst (fst s) <? length tokens))
         (scan_body tokens) s ;;
  match r with
  | inl s' => Ok s'
  | inr e => match e with end
  end.

Definition _extract_executables_without_bashlex (cmdline : str)
  : result (list str) :=
  match Shlex.to_list fallback_config (Shlex.init_lexer cmdline) with
  | Raise ValueError => Ok []
  | Raise e => Raise e
  | Diverge => Diverge
  | Ok tokens =>
      '(_, words, out) <- scan_loop tokens (0, [], []) ;;
      _append_command_words words out
  end.
End Fallback.

(* ===================================================================== *)
(** ** Heredoc-delimiter normalization *)
(* ===================================================================== *)

(** The longest prefix of [s] whose characters satisfy [p], and the rest. *)
Fixpoint span (p : char -> bool) (s : str) : str * str :=
  match s with
  | [] => ([], [])
  | c :: s' =>
      if p c then let (a, b) := span p s' in (c :: a, b) else ([], s)
  end.

(** [[A-Za-z_]] and [[A-Za-z0-9_]] *)
Definition ident_start (c : char) : bool :=
  ascii_isupper c || ascii_islower c || (c =? 95)%N.
Definition ident_char (c : char) : bool := ident_start c || ascii_isdigit c.


Section Normalization.
Context {db : UnicodeDB}.

(** A match at the start of [s] of the pattern of
    [_bashlex_fallback_source]: group 1 is [<<-?\s*], group 2 a single or
    double quote, group 3 the identifier [[A-Za-z_][A-Za-z0-9_]*], then
    group 2 again.  The result holds groups 1 and 3 and the text after
    the match.  Every quantifier of the pattern is followed by a
    character it cannot itself match, so the greedy choice is the only
    one. *)
Definition match_heredoc (s : str) : option (str * str * str) :=
  match s with
  | a :: b :: s1 =>
      if (a =? 60)%N && (b =? 60)%N then
        let (dash, s2) :=
          match s1 with
          | c :: r => if (c =? 45)%N then ([c], r) else ([], s1)
          | [] => ([], s1)
          end in
        let (ws, s3) := span isspace s2 in
        match s3 with
        | q :: c0 :: s4 =>
            if ((q =? 39)%N || (q =? 34)%N) && ident_start c0 then
              let (id, s5) := span ident_char s4 in
              match s5 with
              | q' :: rest =>
                  if (q' =? q)%N
                  then Some ([a; b] ++ dash ++ ws, c0 :: id, rest)
                  else None
              | [] => None
              end
            else None
        | _ => None
        end
      else None
  | _ => None
  end.

(** [re.sub(pattern, r"\1\3", s)]: leftmost matches, left to right. *)
Fixpoint sub_heredoc (fuel : nat) (s : str) : str :=
  match fuel with
  | O => s
  | S fuel' =>
      match match_heredoc s with
      | Some (g1, g3, rest) => g1 ++ g3 ++ sub_heredoc fuel' rest
      | None =>
          match s with
          | [] => []
          | c :: s' => c :: sub_heredoc fuel' s'
          end
      end
  end.
End Normalization.

(** [text.split("\n")] and ["\n".join(lines)] *)
Fixpoint split_lines (s : str) : list str :=
  match s with
  | [] => [[]]
  | c :: s' =>
      if (c =? 10)%N then [] :: split_lines s'
      else match split_lines s' with
           | l :: ls => (c :: l) :: ls
           | [] => [[c]]
           end
  end.

Fixpoint join_lines (ls : list str) : str :=
  match ls with
  | [] => []
  | [l] => l
  | l :: ls' => l ++ 10%N :: join_lines ls'
  end.

Module Textwrap.
(** [[ \t]] *)
Definition blank (c : char) : bool := (c =? 32)%N || (c =? 9)%N.

(** [_whitespace_only_re.sub('', text)], line by line. *)
Definition clear_blank_line (l : str) : str :=
  if forallb blank l then [] else l.

(** What [_leading_whitespace_re.findall] yields for one line: its
    indentation, when a character follows it. *)
Definition line_indent (l : str) : list str :=
  match span blank l with
  | (ind, _ :: _) => [ind]
  | (_, []) => []
  end.

Fixpoint common_prefix (a b : str) : str :=
  match a, b with
  | x :: a', y :: b' => if (x =? y)%N then x :: common_prefix a' b' else []
  | _, _ => []
  end.

(** One pass through [for indent in indents]. *)
Definition margin_step (margin : option str) (indent : str) : option str :=
  match margin with
  | None => Some indent
  | Some m =>
      if startswith indent m then Some m
      else if startswith m indent then Some indent
      else Some (common_prefix m indent)
  end.

(** [re.sub(r'(?m)^' + margin, '', text)], line by line. *)
Definition strip_margin (m : str) (l : str) : str :=
  if startswith l m then skipn (length m) l else l.

Definition dedent (text : str) : str :=
  let lines := map clear_blank_line (split_lines text) in
  let indents := flat_map line_indent lines in
  match fold_left margin_step indents None with
  | Some (c :: m) => join_lines (map (strip_margin (c :: m)) lines)
  | _ => join_lines lines
  end.
End Textwrap.

Section FallbackSource.
Context {db : UnicodeDB}.

(** The call of [re.sub] in [_bashlex_fallback_source]. *)
Definition re_sub_heredoc (src : str) : str := sub_heredoc (S (length src)) src.

Definition _bashlex_fallback_source (src : str) : str :=
  let normalized := re_sub_heredoc src in
  Textwrap.dedent normalized.
End FallbackSource.

(* ===================================================================== *)
(** ** Grammar-aware path *)
(* ===================================================================== *)

(** The Python values a syntax tree is made of.  A [PyObj] is an instance
    given by its [__dict__], in insertion order. *)
#[warnings="-register-all"]
Inductive pyval :=
| PyNone
| PyStr (s : str)
| PyInt (z : Z)
| PyList (l : list pyval)
| PyTuple (l : list pyval)
| PyObj (d : list (str * pyval)).

Fixpoint lookup (name : str) (d : list (str * pyval)) : option pyval :=
  match d with
  | [] => None
  | (k, v) :: d' => if str_eqb k name then Some v else lookup name d'
  end.

(** [getattr(x, name, None)] *)
Definition getattr (x : pyval) (name : string) : pyval :=
  match x with
  | PyObj d => match lookup (py name) d with Some v => v | None => PyNone end
  | _ => PyNone
  end.

(** [v == s] for a string literal [s] *)
Definition is_str (v : pyval) (s : string) : bool :=
  match v with
  | PyStr t => str_eqb t (py s)
  | _ => false
  end.

Definition _is_ast_node (x : pyval) : bool :=
  match x with
  | PyObj d => match lookup (py "kind") d with Some _ => true | None => false end
  | _ => false
  end.

Definition _iter_children (node : pyval) : list pyval :=
  match node with
  | PyObj d =>
      flat_map
        (fun kv : str * pyval =>
           match snd kv with
           | PyNone => []
           | v =>
               if _is_ast_node v then [v]
               else match v with
                    | PyList l | PyTuple l => filter _is_ast_node l
                    | _ => []
                    end
           end) d
  | _ => []
  end.

Definition _word_text (word_node : pyval) : option str :=
  match getattr word_node "word" with
  | PyStr w => Some w
  | _ =>
      match getattr word_node "value" with
      | PyStr v => Some v
      | _ => None
      end
  end.

(** [for x in l: s = body(x, s)] *)
Fixpoint for_each {A S} (l : list A) (s : S) (body : A -> S -> result S)
  : result S :=
  match l with
  | [] => Ok s
  | x :: l' => s' <- body x s ;; for_each l' s' body
  end.

Fixpoint depth (v : pyval) : nat :=
  match v with
  | PyList l | PyTuple l => S (list_max (map depth l))
  | PyObj d => S (list_max (map (fun kv => depth (snd kv)) d))
  | _ => 0
  end.

(** The interpreter bounds the nesting of calls and raises [RecursionError]
    past the bound ([sys.getrecursionlimit()], 1000 unless it was changed).
    [recursion_room] is the number of nested calls of [_walk] that still
    fit when [extract_executables] is called; the caller is taken to
    leave room for sixteen of them.  The helpers that [_walk] calls for a
    node return before it goes on to the children, so it is the nesting
    of [_walk] itself that grows with the tree. *)
Class Interpreter := {
  recursion_room : nat;
  recursion_room_min : 16 <= recursion_room
}.

(** The nesting of the calls of [_walk] on a tree: one call for the tree
    itself and, on top of it, the deepest of its children's. *)
Fixpoint height (v : pyval) : nat :=
  match v with
  | PyObj d =>
      S (list_max
           (map (fun kv : str * pyval =>
                   if _is_ast_node (snd kv) then height (snd kv)
                   else match snd kv with
                        | PyList l | PyTuple l =>
                            list_max
                              (map (fun x =>
                                      if _is_ast_node x then height x else 0)
                                   l)
                        | _ => 0
                        end) d))
  | _ => 1
  end.

Section Grammar.
Context {db : UnicodeDB} {interp : Interpreter}.

Definition _handle_command_node (cmd_node : pyval) (out : list str)
  : result (list str) :=
  match getattr cmd_node "parts" with
  | PyList parts =>
      let words :=
        fold_left
          (fun words p =>
             if is_str (getattr p "kind") "word" then
               match _word_text p with
               | Some w => words ++ [w]
               | None => words
               end
             else words)
          parts [] in
      _append_command_words words out
  | _ => Ok out
  end.

(** [room] is the number of nested calls that still fit: the call that
    finds none left raises [RecursionError].  [depth node + 1] is enough
    for [node]. *)
Fixpoint _walk (room : nat) (node : pyval) (out : list str)
  : result (list str) :=
  match room with
  | O => Raise RecursionError
  | S room' =>
      match node with
      | PyNone => Ok out
      | _ =>
          out <- (if is_str (getattr node "kind") "command"
                  then _handle_command_node node out
                  else Ok out) ;;
          for_each (_iter_children node) out (_walk room')
      end
  end.

(** The grammar engine as the program sees it: absent ([None]), or a
    [parse] that returns a list of trees or raises. *)
Definition engine := option (str -> exn + list pyval).

(** [for t in trees: _walk(t, out)], outside the [try] of the parse: a
    [RecursionError] of the walk reaches the caller. *)
Definition walk_trees (trees : list pyval) : result (list str) :=
  for_each trees [] (fun t out => _walk recursion_room t out).

Definition extract_executables (bashlex : engine) (cmdline : str)
  : result (list str) :=
  match bashlex with
  | None => _extract_executables_without_bashlex cmdline
  | Some parse =>
      match parse cmdline with
      | inr trees => walk_trees trees
      | inl _ =>
          match parse (_bashlex_fallback_source cmdline) with
          | inr trees => walk_trees trees
          | inl _ => Ok []
          end
      end
  end.
End Grammar.

(* ===================================================================== *)
(** ** The specification's reading of the resolver *)
(* ===================================================================== *)

Section Specification.
Context {db : UnicodeDB}.

(** A letter or an underscore; a letter, a digit or an underscore. *)
Definition ident_first (c : char) : Prop := isalpha c = true \/ c = 95%N.
Definition ident_rest (c : char) : Prop := isalnum c = true \/ c = 95%N.

(** The assignment pattern [IDENT=<anything>]. *)
Definition assignment_shaped (s : str) : Prop :=
  exists c ident rest,
    s = c :: ident ++ 61%N :: rest /\ ident_first c /\ Forall ident_rest ident.

(** A [-]-option. *)
Definition is_option (a : str) : bool := startswith a (py "-").

Definition sudo_arg_options : list str :=
  map py ["-u"; "-g"; "-h"; "-p"; "-U"; "-t"; "-C"]%string.
Definition env_arg_options : list str := map py ["-u"; "--unset"]%string.

(** Rule for [sudo]: skip options, those of [sudo_arg_options] together
    with the token after them; stop at [--]; take the first word left. *)
Fixpoint sudo_rule (args : list str) : option str :=
  match args with
  | [] => None
  | a :: rest =>
      if str_eqb a (py "--") then hd_error rest
      else if is_option a then
        if str_in a sudo_arg_options then
          match rest with
          | _ :: rest' => sudo_rule rest'
          | [] => None
          end
        else sudo_rule rest
      else Some a
  end.

(** What is left of the words after the leading assignment words. *)
Fixpoint drop_assignments (args : list str) : list str :=
  match args with
  | [] => []
  | a :: rest =>
      if _looks_like_assignment_word a then drop_assignments rest else args
  end.

(** The first word that is not an assignment word. *)
Fixpoint after_assignments (args : list str) : option str :=
  match args with
  | [] => None
  | a :: rest =>
      if _looks_like_assignment_word a then after_assignments rest else Some a
  end.

(** Rule for [env]. *)
Fixpoint env_rule (args : list str) : option str :=
  match args with
  | [] => None
  | a :: rest =>
      if str_eqb a (py "--") then after_assignments rest
      else if is_option a then
        if str_in a env_arg_options then
          match rest with
          | _ :: rest' => env_rule rest'
          | [] => None
          end
        else env_rule rest
      else if _looks_like_assignment_word a then env_rule rest
      else Some a
  end.

(** Rule for [command] and [builtin]. *)
Fixpoint command_rule (args : list str) : option str :=
  match args with
  | [] => None
  | a :: rest => if is_option a then command_rule rest else Some a
  end.

(** Rule for the other wrappers of the catalog. *)
Fixpoint other_rule (args : list str) : option str :=
  match args with
  | [] => None
  | a :: rest =>
      if str_eqb a (py "--") then hd_error rest
      else if is_option a then other_rule rest
      else Some a
  end.

Definition wrapper_rule (wrapper : str) (args : list str) : option str :=
  if str_eqb wrapper (py "env") then env_rule args
  else if str_eqb wrapper (py "sudo") then sudo_rule args
  else if str_in wrapper (map py ["command"; "builtin"]%string)
  then command_rule args
  else if str_in wrapper _WRAPPERS then other_rule args
  else None.

Definition option_list {A} (o : option A) : list A :=
  match o with
  | Some a => [a]
  | None => []
  end.

(** The names one simple command contributes. *)
Fixpoint resolve (words : list str) : list str :=
  match words with
  | [] => []
  | w :: rest =>
      if _looks_like_assignment_word w then resolve rest
      else w :: (if str_in w _WRAPPERS
                 then option_list (wrapper_rule w rest) else [])
  end.

(** The scan of the fallback path over the tokens still to read. *)
Fixpoint scan (tokens words out : list str) : list str :=
  match tokens with
  | [] => out ++ resolve words
  | t :: rest =>
      if str_in t _COMMAND_SEPARATORS then scan rest [] (out ++ resolve words)
      else if str_in t _REDIRECTION_TOKENS then
        match rest with
        | _ :: rest' => scan rest' words out
        | [] => out ++ resolve words
        end
      else if str_in t _NON_COMMAND_TOKENS then scan rest words out
      else scan rest (words ++ [t]) out
  end.

(** A wrapper's word list that is used up by the skipping: options other
    than [--] and, for [env], assignment words, then nothing or a final
    [--] (after which [env] still skips assignment words). *)
Definition skippable (wrapper a : str) : Prop :=
  (is_option a = true /\ a <> py "--")
  \/ (wrapper = py "env" /\ assignment_shaped a).

Definition exhausted (wrapper : str) (args : list str) : Prop :=
  exists opts tail,
    args = opts ++ tail /\ Forall (skippable wrapper) opts
    /\ (tail = []
        \/ exists asg,
             tail = py "--" :: asg
             /\ Forall (fun a => wrapper = py "env" /\ assignment_shaped a) asg).

(** What follows a loop that can [break] or [return]. *)
Definition after_loop (args : list str) (r : nat + option str)
  : result (option str) :=
  match r with
  | inr a => Ok a
  | inl j => item_or_none args j
  end.

(** What follows the first loop of the [env] branch. *)
Definition after_env_loop (args : list str) (r : nat + option str)
  : result (option str) :=
  match r with
  | inr a => Ok a
  | inl j =>
      if j <? length args then
        j' <- skip_assignments args j ;;
        if j' <? length args then a <- getitem args j' ;; Ok (Some a)
        else Ok None
      else Ok None
  end.
End Specification.

(** A character database with no letters, digits or blanks outside ASCII. *)
Definition ascii_only : UnicodeDB :=
  {| uni_isalpha := fun _ => false;
     uni_isalnum := fun _ => false;
     uni_isspace := fun _ => false;
     uni_alpha_alnum := fun _ H => H |}.

(** An interpreter with room for a thousand nested calls of the walk. *)
Definition cpython : Interpreter :=
  {| recursion_room := 1000;
     recursion_room_min := proj1 (Nat.leb_le 16 1000) eq_refl |}.

(* ===================================================================== *)
(** ** The trees of the grammar engine *)
(* ===================================================================== *)

(** The grammar engine is the third-party library bashlex.  Its nodes are
    instances of [bashlex.ast.node], whose constructor stores its keyword
    arguments in [__dict__]; the builders below give the nodes it documents
    for simple commands, pipelines and heredoc redirections. *)
Module Bashlex.
Definition node (kind : string) (attrs : list (string * pyval)) : pyval :=
  PyObj ((py "kind", PyStr (py kind))
         :: map (fun kv => (py (fst kv), snd kv)) attrs).

Definition pos (s e : Z) : pyval := PyTuple [PyInt s; PyInt e].

(** A word without expansions; [kind] is [word], or [assignment] for an
    assignment before the command name. *)
Definition leaf (kind : string) (text : str) (s e : Z) : pyval :=
  node kind [("word", PyStr text); ("pos", pos s e); ("parts", PyList [])]%string.

Definition word (text : string) (s e : Z) : pyval := leaf "word" (py text) s e.
Definition assignment (text : string) (s e : Z) : pyval :=
  leaf "assignment" (py text) s e.

Definition command (parts : list pyval) (s e : Z) : pyval :=
  node "command" [("parts", PyList parts); ("pos", pos s e)]%string.

Definition pipe (s e : Z) : pyval :=
  node "pipe" [("pipe", PyStr (py "|")); ("pos", pos s e)]%string.

Definition pipeline (parts : list pyval) (s e : Z) : pyval :=
  node "pipeline" [("parts", PyList parts); ("pos", pos s e)]%string.




End Bashlex.

(** The command lines of the specification's examples, and the trees
    bashlex builds for them. *)
Module Examples.
Import Bashlex.

Definition assignments_line : str := py "FOO=bar BAZ=qux mycmd arg1".
Definition assignments_tree : pyval :=
  command [assignment "FOO=bar" 0 7; assignment "BAZ=qux" 8 15;
           word "mycmd" 16 21; word "arg1" 22 26] 0 26.

Definition sudo_line : str := py "sudo -u root apt-get update".
Definition sudo_tree : pyval :=
  command [word "sudo" 0 4; word "-u" 5 7; word "root" 8 12;
           word "apt-get" 13 20; word "update" 21 27] 0 27.

Definition env_line : str := py "env -i FOO=1 python3 script.py".
Definition env_tree : pyval :=
  command [word "env" 0 3; word "-i" 4 6; word "FOO=1" 7 12;
           word "python3" 13 20; word "script.py" 21 30] 0 30.

Definition bare_sudo_line : str := py "sudo".
Definition bare_sudo_tree : pyval := command [word "sudo" 0 4] 0 4.

Definition pipeline_line : str := py "cat file | grep foo | sort".
Definition pipeline_tree : pyval :=
  pipeline [command [word "cat" 0 3; word "file" 4 8] 0 8;
            pipe 9 10;
            command [word "grep" 11 15; word "foo" 16 19] 11 19;
            pipe 20 21;
            command [word "sort" 22 26] 22 26] 0 26.


Definition unterminated_line : str := py "echo 'unterminated".


End Examples.

(* ===================================================================== *)
(** ** Invariants of the lexer *)
(* ===================================================================== *)

Module ShlexInv.
Import Shlex.

(** Characters still to be read, and the same with the input stream
    counted twice: a character pushed back was read from the stream. *)
Definition chars (l : lexer) : nat :=
  length (_pushback_chars l) + length (instream l).
Definition potential (l : lexer) : nat :=
  2 * length (instream l) + length (_pushback_chars l).

(** The lexer of the fallback path: the standard quotes and escape, and
    some punctuation characters. *)
Definition standard (cfg : config) : Prop :=
  quotes cfg = [39; 34]%N /\ escape cfg = [92%N] /\ escapedquotes cfg = [34%N]
  /\ punctuation_chars cfg <> [].

(** Between two calls of [read_token]. *)
Definition at_rest (l : lexer) : Prop :=
  (state l = None \/ state l = Some 32%N) /\ token l = [] /\ pushback l = [].

Definition fresh (f : frame) : Prop :=
  token (self f) = [] /\ quoted f = false
  /\ (state (self f) = None \/ state (self f) = Some 32%N).

(** Invariant of the loop of [read_token]; [p0] is the potential at entry. *)
Definition reading (p0 : nat) (f : frame) : Prop :=
  (state (self f) = None
   \/ In (state (self f)) (map Some [32; 97; 99; 39; 34; 92]%N))
  /\ In (escapedstate f) [32; 97; 39; 34]%N
  /\ (state (self f) = Some 97%N \/ state (self f) = Some 99%N ->
      token (self f) <> [] \/ quoted f = true)
  /\ pushback (self f) = []
  /\ potential (self f) <= p0
  /\ (fresh f \/ potential (self f) < p0).

(** What holds when the loop is left. *)
Definition left_loop (p0 : nat) (f : frame) : Prop :=
  (state (self f) = None \/ state (self f) = Some 32%N)
  /\ pushback (self f) = []
  /\ potential (self f) <= p0
  /\ ((token (self f) = [] /\ quoted f = false) \/ potential (self f) < p0).

Definition step_post (p0 : nat) (f : frame)
    (r : result (step frame Empty_set)) : Prop :=
  match r with
  | Ok (Next f') => reading p0 f' /\ chars (self f') < chars (self f)
  | Ok (Break f') => left_loop p0 f'
  | Ok (Return e) => False
  | Raise e => e = ValueError
  | Diverge => False
  end.
End ShlexInv.

(* ===================================================================== *)
(** ** Lines of text *)
(* ===================================================================== *)

(** A string without a line feed. *)
Definition no_newline (s : str) : Prop := Forall (fun c => c <> 10%N) s.

(** A line of text: its first character is not blank and it holds no line
    feed. *)
Definition text_line (b : str) : Prop :=
  exists c b', b = c :: b' /\ Textwrap.blank c = false /\ no_newline b.








(* ===================================================================== *)
(** ** Quotes that are never closed *)
(* ===================================================================== *)

Module QuoteInv.
Import Shlex.

(** What the lexer will read, in order: the characters pushed back, last
    one first, then the stream. *)
Definition remaining (l : lexer) : str :=
  rev (_pushback_chars l) ++ instream l.

(** The attributes of the lexer of the fallback path that matter for
    quoting. *)
Definition fallback_like (cfg : config) : Prop :=
  whitespace cfg = [32; 9; 13; 10]%N /\ commenters cfg = []
  /\ quotes cfg = [39; 34]%N /\ escape cfg = [92%N]
  /\ escapedquotes cfg = [34%N] /\ punctuation_chars cfg = py "|&;()<>"
  /\ whitespace_split cfg = true
  /\ chr_in 39 (wordchars cfg) = false /\ chr_in 34 (wordchars cfg) = false.

(** Neither a quote nor the escape character. *)
Definition plain (c : char) : Prop := c <> 39%N /\ c <> 34%N /\ c <> 92%N.

(** A character that does not end a quotation opened by [q]. *)
Definition inside (q c : char) : Prop := c <> q /\ (q = 34%N -> c <> 92%N).

(** A command line with a quote that is never closed. *)
Definition unterminated (s : str) : Prop :=
  exists pre q body,
    s = pre ++ q :: body /\ (q = 39%N \/ q = 34%N)
    /\ Forall plain pre /\ Forall (inside q) body.

Section States.
Variable q : char.
Variable body : str.

(** The lexer is inside the quotation. *)
Definition in_quote (f : frame) : Prop :=
  state (self f) = Some q /\ Forall (inside q) (remaining (self f))
  /\ pushback (self f) = [].

(** The lexer has not reached the quote yet. *)
Definition before_quote (f : frame) : Prop :=
  (state (self f) = Some 32%N \/ state (self f) = Some 97%N
   \/ state (self f) = Some 99%N)
  /\ (state (self f) = Some 97%N \/ state (self f) = Some 99%N ->
      token (self f) <> [] \/ quoted f = true)
  /\ pushback (self f) = []
  /\ exists rest, Forall plain rest /\ remaining (self f) = rest ++ q :: body.

(** A token is handed out before the quote is reached. *)
Definition token_out (f : frame) : Prop :=
  state (self f) = Some 32%N
  /\ (token (self f) <> [] \/ quoted f = true)
  /\ pushback (self f) = []
  /\ exists rest, Forall plain rest /\ remaining (self f) = rest ++ q :: body.

Definition doomed_post (r : result (step frame Empty_set)) : Prop :=
  match r with
  | Ok (Next f') => in_quote f' \/ before_quote f'
  | Ok (Break f') => token_out f'
  | Ok (Return e) => False
  | Raise e => True
  | Diverge => True
  end.

(** Between two calls of [read_token], before the quote. *)
Definition waiting (l : lexer) : Prop :=
  state l = Some 32%N /\ token l = [] /\ pushback l = []
  /\ exists rest, Forall plain rest /\ remaining l = rest ++ q :: body.
End States.
End QuoteInv.

(* ===================================================================== *)
(** ** Shapes of tokens, words and trees used in the statements *)
(* ===================================================================== *)

(** The wrappers that share a rule in [_infer_wrapped_command]. *)
Definition command_wrappers : list str := map py ["command"; "builtin"]%string.
Definition other_wrappers : list str :=
  map py ["time"; "nice"; "nohup"; "chronic"; "stdbuf"; "setpriv"; "chpst";
          "gosu"; "su"; "chroot"; "ionice"; "taskset"]%string.

Section UsedUp.
Context {db : UnicodeDB}.

(** The options after which a wrapper skips one more word. *)
Definition takes_argument (wrapper a : str) : Prop :=
  (wrapper = py "sudo" /\ In a sudo_arg_options)
  \/ (wrapper = py "env" /\ In a env_arg_options).

(** The words after a wrapper are used up by the skipping, without a
    word left to take: an option is skipped, together with the word after
    it when it takes an argument and a word follows; an assignment word is
    skipped after [env]; a [--] ends the options, except after [command]
    and [builtin] where it is an option like any other, and then nothing
    may follow but, after [env], assignment words. *)
Inductive used_up (wrapper : str) : list str -> Prop :=
| used_up_nil : used_up wrapper []
| used_up_option (a : str) (rest : list str) :
    is_option a = true ->
    (a = py "--" -> In wrapper command_wrappers) ->
    (takes_argument wrapper a -> rest = []) ->
    used_up wrapper rest -> used_up wrapper (a :: rest)
| used_up_argument (a b : str) (rest : list str) :
    takes_argument wrapper a ->
    used_up wrapper rest -> used_up wrapper (a :: b :: rest)
| used_up_assignment (a : str) (rest : list str) :
    wrapper = py "env" -> assignment_shaped a ->
    used_up wrapper rest -> used_up wrapper (a :: rest)
| used_up_dashes (asg : list str) :
    ~ In wrapper command_wrappers ->
    Forall (fun a => wrapper = py "env" /\ assignment_shaped a) asg ->
    used_up wrapper (py "--" :: asg).
End UsedUp.

(** A token that the scan of the fallback path adds to the words. *)
Definition ordinary (t : str) : Prop :=
  ~ In t _COMMAND_SEPARATORS /\ ~ In t _REDIRECTION_TOKENS
  /\ ~ In t _NON_COMMAND_TOKENS.

(** [names] is [l] with some elements left out. *)
Inductive subseq {A : Type} : list A -> list A -> Prop :=
| subseq_nil : subseq [] []
| subseq_take (x : A) (names l : list A) :
    subseq names l -> subseq (x :: names) (x :: l)
| subseq_skip (x : A) (names l : list A) :
    subseq names l -> subseq names (x :: l).

(** A string of spaces, tabs, carriage returns and line feeds: the
    whitespace of the lexer. *)
Definition shell_blank (s : str) : Prop :=
  Forall (fun c => In c [32; 9; 13; 10]%N) s.

(** The parts of a simple command that holds only plain words. *)
Definition word_parts (parts : list pyval) (ws : list str) : Prop :=
  Forall2 (fun p w => exists s e, p = Bashlex.leaf "word" w s e) parts ws.

(** A string without single or double quotes. *)
Definition quote_free (s : str) : Prop :=
  Forall (fun c => c <> 39%N /\ c <> 34%N) s.

(** The local variables of [read_token] at its start, for a lexer with
    nothing pushed back and an empty token. *)
Definition blank_frame (s : str) (st : option char) : Shlex.frame :=
  {| Shlex.self := {| Shlex.instream := s; Shlex._pushback_chars := [];
                      Shlex.pushback := []; Shlex.state := st;
                      Shlex.token := [] |};
     Shlex.quoted := false; Shlex.escapedstate := 32%N |}.

(** The parts of a pipeline of simple commands that hold only plain
    words: the commands, with a [pipe] node between two of them. *)
Inductive pipeline_parts : list pyval -> list (list str) -> Prop :=
| pipeline_last (parts : list pyval) (ws : list str) (s e : Z) :
    word_parts parts ws ->
    pipeline_parts [Bashlex.command parts s e] [ws]
| pipeline_more (parts : list pyval) (ws : list str) (s e s' e' : Z)
    (nodes : list pyval) (wss : list (list str)) :
    word_parts parts ws -> pipeline_parts nodes wss ->
    pipeline_parts (Bashlex.command parts s e :: Bashlex.pipe s' e' :: nodes)
      (ws :: wss).

(** The words of the commands of a pipeline with [|] between them. *)
Fixpoint pipe_tokens (wss : list (list str)) : list str :=
  match wss with
  | [] => []
  | [ws] => ws
  | ws :: rest => ws ++ py "|" :: pipe_tokens rest
  end.

(* ===================================================================== *)
(** ** The names of a tree, the tokens of a line and the quoting *)
(* ===================================================================== *)

Section TreeNames.
Context {db : UnicodeDB}.

(** The texts of the parts of kind [word] of a simple command, in order. *)
Definition command_words (parts : list pyval) : list str :=
  flat_map
    (fun p =>
       if is_str (getattr p "kind") "word" then option_list (_word_text p)
       else [])
    parts.

(** The names a node contributes by itself. *)
Definition own_names (node : pyval) : list str :=
  if is_str (getattr node "kind") "command" then
    match getattr node "parts" with
    | PyList parts => resolve (command_words parts)
    | _ => []
    end
  else [].

(** The names a walk with [fuel] appends, read off a walk that starts
    with the empty list. *)
Definition names_with (fuel : nat) (node : pyval) : list str :=
  match _walk fuel node [] with
  | Ok names => names
  | _ => []
  end.

(** The names the walk of a tree appends. *)
Definition walk_names (node : pyval) : list str :=
  names_with (S (depth node)) node.
End TreeNames.

(** [d] is [node] or is reached from it by going to a child repeatedly. *)
Inductive descendant : pyval -> pyval -> Prop :=
| descendant_self (node : pyval) : descendant node node
| descendant_child (node c d : pyval) :
    In c (_iter_children node) -> descendant c d -> descendant node d.

Module LexSpec.
Import Shlex QuoteInv.

(** Where the lexer of the fallback path is while it reads a line: between
    tokens, in a word, in a run of punctuation characters, in a quotation
    opened by [q], or after a backslash met in a word ([back] is [a]) or
    in a double quotation ([back] is the quote). *)
Inductive lex_mode :=
| InBlank
| InWord
| InPunct
| InQuote (q : char)
| InEscape (back : char).

Definition push (tok : str) (r : list str * bool) : list str * bool :=
  (tok :: fst r, snd r).

Definition resume (back : char) : lex_mode :=
  if (back =? 97)%N then InWord else InQuote back.

(** The tokens of [s] read in mode [m] with [tok] the token under
    construction, and whether the end of [s] is reached outside a
    quotation and not right after a backslash. *)
Fixpoint lex_from (m : lex_mode) (tok : str) (s : str) : list str * bool :=
  match s with
  | [] =>
      match m with
      | InBlank => ([], true)
      | InWord | InPunct => ([tok], true)
      | InQuote _ | InEscape _ => ([], false)
      end
  | c :: s' =>
      match m with
      | InBlank =>
          if chr_in c [32; 9; 13; 10]%N then lex_from InBlank [] s'
          else if chr_in c [92%N] then lex_from (InEscape 97) [] s'
          else if chr_in c (py "|&;()<>") then lex_from InPunct [c] s'
          else if chr_in c [39; 34]%N then lex_from (InQuote c) [] s'
          else lex_from InWord [c] s'
      | InWord =>
          if chr_in c [32; 9; 13; 10]%N then push tok (lex_from InBlank [] s')
          else if chr_in c [39; 34]%N then lex_from (InQuote c) tok s'
          else if chr_in c [92%N] then lex_from (InEscape 97) tok s'
          else if chr_in c (py "|&;()<>")
          then push tok (lex_from InPunct [c] s')
          else lex_from InWord (tok ++ [c]) s'
      | InPunct =>
          if chr_in c [32; 9; 13; 10]%N then push tok (lex_from InBlank [] s')
          else if chr_in c (py "|&;()<>") then lex_from InPunct (tok ++ [c]) s'
          else
            push tok
              (if chr_in c [92%N] then lex_from (InEscape 97) [] s'
               else if chr_in c [39; 34]%N then lex_from (InQuote c) [] s'
               else lex_from InWord [c] s')
      | InQuote q =>
          if (c =? q)%N then lex_from InWord tok s'
          else if chr_in c [92%N] && chr_in q [34%N]
          then lex_from (InEscape q) tok s'
          else lex_from (InQuote q) (tok ++ [c]) s'
      | InEscape back =>
          let tok :=
            if chr_in back [39; 34]%N && negb (c =? 92)%N && negb (c =? back)%N
            then tok ++ [92%N] else tok in
          lex_from (resume back) (tok ++ [c]) s'
      end
  end.

Definition lex (s : str) : list str * bool := lex_from InBlank [] s.

(** The lexer of the fallback path: its attributes, and no punctuation
    character among the word characters. *)
Definition fallback_lexer (cfg : config) : Prop :=
  fallback_like cfg
  /\ forall c, chr_in c (py "|&;()<>") = true -> chr_in c (wordchars cfg) = false.

(** The mode a frame of [read_token] is in. *)
Definition mode_of (f : frame) : lex_mode :=
  match state (self f) with
  | Some st =>
      if (st =? 32)%N then InBlank
      else if (st =? 97)%N then InWord
      else if (st =? 99)%N then InPunct
      else if (st =? 92)%N then InEscape (escapedstate f)
      else InQuote st
  | None => InBlank
  end.

(** What is still to come out of a frame. *)
Definition spec_of (f : frame) : list str * bool :=
  lex_from (mode_of f) (token (self f)) (remaining (self f)).

Definition emits (f : frame) : Prop :=
  token (self f) <> [] \/ quoted f = true.

(** Invariant of the loop of [read_token]. *)
Definition good (f : frame) : Prop :=
  pushback (self f) = []
  /\ match state (self f) with
     | Some st =>
         (st = 32%N /\ token (self f) = [] /\ quoted f = false)
         \/ ((st = 97%N \/ st = 99%N) /\ emits f)
         \/ (st = 39%N \/ st = 34%N)
         \/ (st = 92%N /\ (escapedstate f = 97%N \/ escapedstate f = 34%N))
     | None => False
     end.

(** What holds of the frame [f'] with which the loop entered with [f] is
    left. *)
Definition broke (f f' : frame) : Prop :=
  (state (self f') = Some 32%N /\ emits f'
   /\ spec_of f = push (token (self f')) (lex (remaining (self f'))))
  \/ (state (self f') = None /\ emits f'
      /\ spec_of f = ([token (self f')], true))
  \/ (state (self f') = None /\ token (self f') = [] /\ quoted f' = false
      /\ spec_of f = ([], true)).

Definition lex_step_post (f : frame) (r : result (step frame Empty_set))
  : Prop :=
  match r with
  | Ok (Next f') => good f' /\ spec_of f' = spec_of f
  | Ok (Break f') => pushback (self f') = [] /\ broke f f'
  | Ok (Return e) => False
  | Raise e => spec_of f = ([], false)
  | Diverge => False
  end.

(** A lexer between two calls of [read_token], and what is still to come
    out of it. *)
Definition resting (l : lexer) : Prop :=
  pushback l = [] /\ token l = []
  /\ (state l = Some 32%N \/ state l = None).

Definition expected (l : lexer) : list str * bool :=
  match state l with
  | Some _ => lex (remaining l)
  | None => ([], true)
  end.
End LexSpec.

Module Pieces.
Import LexSpec.

(** A character that is no whitespace of the lexer, no backslash, no
    punctuation character and no quote. *)
Definition wordy (c : char) : Prop :=
  chr_in c [32; 9; 13; 10]%N = false /\ chr_in c [92%N] = false
  /\ chr_in c (py "|&;()<>") = false /\ chr_in c [39; 34]%N = false.

Definition blank_char (c : char) : Prop := In c [32; 9; 13; 10]%N.
Definition punct_char (c : char) : Prop := In c (py "|&;()<>").

(** What stands inside a double quotation: a character other than the
    quote and the backslash, or a backslash and the character after it. *)
Inductive quoted_item :=
| Char (c : char)
| Backslash (c : char).

Definition item_ok (i : quoted_item) : Prop :=
  match i with
  | Char c => c <> 34%N /\ c <> 92%N
  | Backslash _ => True
  end.

Definition item_text (i : quoted_item) : str :=
  match i with
  | Char c => [c]
  | Backslash c => [92%N; c]
  end.

(** Inside a double quotation the backslash is dropped before a quote
    and before a backslash, and kept before any other character. *)
Definition item_value (i : quoted_item) : str :=
  match i with
  | Char c => [c]
  | Backslash c => if (c =? 92)%N || (c =? 34)%N then [c] else [92%N; c]
  end.

(** The parts a word is written with: plain characters, a single
    quotation, a double quotation, a backslash and the character after
    it. *)
Inductive segment :=
| Plain (s : str)
| Single (body : str)
| Double (items : list quoted_item)
| Escaped (c : char).

Definition segment_ok (g : segment) : Prop :=
  match g with
  | Plain s => s <> [] /\ Forall wordy s
  | Single body => Forall (fun c => c <> 39%N) body
  | Double items => Forall item_ok items
  | Escaped c => True
  end.

(** How a segment is written, and what it contributes to the token. *)
Definition segment_text (g : segment) : str :=
  match g with
  | Plain s => s
  | Single body => 39%N :: body ++ [39%N]
  | Double items => 34%N :: flat_map item_text items ++ [34%N]
  | Escaped c => [92%N; c]
  end.

Definition segment_value (g : segment) : str :=
  match g with
  | Plain s => s
  | Single body => body
  | Double items => flat_map item_value items
  | Escaped c => [c]
  end.

(** The pieces of a command line: words, runs of punctuation characters,
    runs of blanks. *)
Inductive piece :=
| Word (segments : list segment)
| Punct (p : str)
| Blank (b : str).

Definition piece_ok (p : piece) : Prop :=
  match p with
  | Word segments => segments <> [] /\ Forall segment_ok segments
  | Punct p => p <> [] /\ Forall punct_char p
  | Blank b => b <> [] /\ Forall blank_char b
  end.

Definition piece_text (p : piece) : str :=
  match p with
  | Word segments => flat_map segment_text segments
  | Punct p => p
  | Blank b => b
  end.

Definition piece_tokens (p : piece) : list str :=
  match p with
  | Word segments => [flat_map segment_value segments]
  | Punct p => [p]
  | Blank _ => []
  end.

Definition same_kind (p1 p2 : piece) : bool :=
  match p1, p2 with
  | Word _, Word _ | Punct _, Punct _ | Blank _, Blank _ => true
  | _, _ => false
  end.

(** No two neighbours are of the same kind. *)
Fixpoint alternating (ps : list piece) : Prop :=
  match ps with
  | p1 :: (p2 :: _) as rest => same_kind p1 p2 = false /\ alternating rest
  | _ => True
  end.

Definition not_word (ps : list piece) : Prop :=
  match ps with
  | Word _ :: _ => False
  | _ => True
  end.

Definition not_punct (ps : list piece) : Prop :=
  match ps with
  | Punct _ :: _ => False
  | _ => True
  end.

Definition line_text (ps : list piece) : str := flat_map piece_text ps.
Definition line_tokens (ps : list piece) : list str := flat_map piece_tokens ps.

Definition well_formed (ps : list piece) : Prop :=
  Forall piece_ok ps /\ alternating ps.
End Pieces.

Module Quoting.
Import LexSpec.

(** Where a reader of shell quoting is: outside quotations, in a single
    or a double quotation, or right after a backslash met outside
    quotations or in a double quotation. *)
Inductive quoting :=
| Unquoted
| InSingle
| InDouble
| AfterBackslash (in_double : bool).

(** Whether the text ends inside a quotation or right after a backslash. *)
Fixpoint open_at_end (m : quoting) (s : str) : bool :=
  match s with
  | [] =>
      match m with
      | Unquoted => false
      | _ => true
      end
  | c :: s' =>
      match m with
      | Unquoted =>
          if (c =? 39)%N then open_at_end InSingle s'
          else if (c =? 34)%N then open_at_end InDouble s'
          else if (c =? 92)%N then open_at_end (AfterBackslash false) s'
          else open_at_end Unquoted s'
      | InSingle =>
          if (c =? 39)%N then open_at_end Unquoted s'
          else open_at_end InSingle s'
      | InDouble =>
          if (c =? 34)%N then open_at_end Unquoted s'
          else if (c =? 92)%N then open_at_end (AfterBackslash true) s'
          else open_at_end InDouble s'
      | AfterBackslash in_double =>
          open_at_end (if in_double then InDouble else Unquoted) s'
      end
  end.

(** Malformed quoting: a quotation that is not closed, or a backslash
    with nothing after it. *)
Definition malformed (s : str) : bool := open_at_end Unquoted s.

Definition quoting_of (m : lex_mode) : quoting :=
  match m with
  | InBlank | InWord | InPunct => Unquoted
  | InQuote q => if (q =? 39)%N then InSingle else InDouble
  | InEscape back => AfterBackslash (negb (back =? 97)%N)
  end.

Definition valid_mode (m : lex_mode) : Prop :=
  match m with
  | InQuote q => q = 39%N \/ q = 34%N
  | InEscape back => back = 97%N \/ back = 34%N
  | _ => True
  end.
End Quoting.

(** A word written with plain characters only. *)
Definition plain_word (w : str) : Prop := w <> [] /\ Forall Pieces.wordy w.

(** Words with one space between two of them. *)
Fixpoint spaced (ws : list str) : str :=
  match ws with
  | [] => []
  | [w] => w
  | w :: rest => w ++ 32%N :: spaced rest
  end.

(** The pieces of [spaced ws]. *)
Fixpoint spaced_pieces (ws : list str) : list Pieces.piece :=
  match ws with
  | [] => []
  | [w] => [Pieces.Word [Pieces.Plain w]]
  | w :: rest =>
      Pieces.Word [Pieces.Plain w] :: Pieces.Blank [32%N] :: spaced_pieces rest
  end.

Module MoreExamples.
Import Bashlex.

(** The tree of [echo $(date)]: the second word holds a command
    substitution, whose command is a simple command. *)
Definition substitution_inner : pyval := command [word "date" 7 11] 7 11.
Definition substitution_tree : pyval :=
  command
    [word "echo" 0 4;
     node "word"
       [("word", PyStr (py "$(date)")); ("pos", pos 5 12);
        ("parts",
         PyList [node "commandsubstitution"
                   [("command", substitution_inner);
                    ("pos", pos 5 12)]%string])]%string]
    0 12.
End MoreExamples.

(* ===================================================================== *)
(** ** Facts about the resolver *)
(* ===================================================================== *)

Lemma str_eqb_eq (a b : str) : str_eqb a b = true <-> a = b.
Proof.
  revert b; induction a as [|x a IH]; intros [|y b]; simpl; split; intro H;
    try reflexivity; try discriminate.
  - apply andb_prop in H as [Hx Hab]. apply N.eqb_eq in Hx. apply IH in Hab.
    congruence.
  - injection H as -> ->. rewrite N.eqb_refl. simpl. now apply IH.
Qed.

Lemma str_eqb_refl (a : str) : str_eqb a a = true.
Proof. now apply str_eqb_eq. Qed.

Lemma str_eqb_neq (a b : str) : str_eqb a b = false <-> a <> b.
Proof.
  split.
  - intros H E. apply str_eqb_eq in E. congruence.
  - intros H. destruct (str_eqb a b) eqn:E; [|reflexivity].
    apply str_eqb_eq in E. contradiction.
Qed.

Lemma str_in_In (x : str) (l : list str) : str_in x l = true <-> In x l.
Proof.
  unfold str_in. rewrite existsb_exists. split.
  - intros (y & Hy & E). apply str_eqb_eq in E. now subst.
  - intros H. exists x. split; [assumption | apply str_eqb_refl].
Qed.

(** Indexing and suffixes. *)
Lemma getitem_skipn {A} (l : list A) (j : nat) :
  j < length l ->
  exists a, getitem l j = Ok a /\ skipn j l = a :: skipn (S j) l.
Proof.
  revert j; induction l as [|x l IH]; intros j Hj; simpl in Hj; [lia|].
  destruct j as [|j].
  - exists x. split; reflexivity.
  - destruct (IH j) as (a & Ha & Hs); [lia|].
    exists a. split; [exact Ha | exact Hs].
Qed.

Lemma skipn_S_cons {A} (l : list A) (j : nat) (a : A) (r : list A) :
  skipn j l = a :: r -> skipn (S j) l = r.
Proof.
  revert j; induction l as [|x l IH]; intros [|j] H; simpl in *;
    try discriminate.
  - now injection H.
  - now apply IH.
Qed.

Lemma ltb_lt_length {A} (l : list A) j : (j <? length l) = true -> j < length l.
Proof. apply Nat.ltb_lt. Qed.

Section ResolverFacts.
Context {db : UnicodeDB}.

Lemma skip_loop_spec (words : list str) :
  forall fuel j,
    length words - j < fuel -> j <= length words ->
    exists j',
      while_ fuel
        (fun j => if j <? length words
                  then a <- getitem words j ;; Ok (_looks_like_assignment_word a)
                  else Ok false)
        (fun j => Ok (@Next nat Empty_set (j + 1))) j = Ok (inl j')
      /\ j' <= length words
      /\ skipn j' words = drop_assignments (skipn j words).
Proof.
  induction fuel as [|fuel IH]; intros j Hf Hj; [lia|].
  simpl. destruct (j <? length words) eqn:E.
  - apply Nat.ltb_lt in E.
    destruct (getitem_skipn words E) as (a & Ha & Hs).
    rewrite Ha. simpl. rewrite Hs. simpl.
    destruct (_looks_like_assignment_word a) eqn:L.
    + destruct (IH (j + 1)) as (j' & Hw & Hle & Hsk); [lia | lia |].
      exists j'. rewrite Hw. replace (j + 1) with (S j) in Hsk by lia.
      auto.
    + exists j. rewrite Hs. auto with arith.
  - apply Nat.ltb_ge in E. exists j. rewrite (skipn_all2 words E).
    auto.
Qed.

Lemma skip_assignments_spec (words : list str) (j : nat) :
  j <= length words ->
  exists j',
    skip_assignments words j = Ok j' /\ j' <= length words
    /\ skipn j' words = drop_assignments (skipn j words).
Proof.
  intros Hj. unfold skip_assignments.
  destruct (@skip_loop_spec words (S (length words)) j) as (j' & Hw & H);
    [lia | assumption |].
  rewrite Hw. simpl. eauto.
Qed.

Lemma item_or_none_spec (args : list str) (j : nat) :
  item_or_none args j = Ok (hd_error (skipn j args)).
Proof.
  unfold item_or_none. destruct (j <? length args) eqn:E.
  - apply Nat.ltb_lt in E.
    destruct (getitem_skipn args E) as (a & Ha & Hs).
    rewrite Ha, Hs. reflexivity.
  - apply Nat.ltb_ge in E. now rewrite (skipn_all2 args E).
Qed.

Lemma after_assignments_hd (args : list str) :
  after_assignments args = hd_error (drop_assignments args).
Proof.
  induction args as [|a args IH]; simpl; [reflexivity|].
  destruct (_looks_like_assignment_word a); [exact IH | reflexivity].
Qed.

Ltac loop_step IH j :=
  match goal with
  | |- context [while_ _ _ _ (j + 2)] =>
      rewrite (IH (j + 2)) by lia;
      replace (j + 2) with (S (S j)) by lia
  | |- context [while_ _ _ _ (j + 1)] =>
      rewrite (IH (j + 1)) by lia;
      replace (j + 1) with (S j) by lia
  end.

Lemma sudo_loop_spec (args : list str) :
  forall fuel j,
    length args - j < fuel -> j <= length args ->
    bind (while_ fuel
            (fun j => Ok (j <? length args))
            (fun j =>
               a <- getitem args j ;;
               if str_eqb a (py "--") then Ok (Break (j + 1))
               else if startswith a (py "-") then
                 if str_in a (map py ["-u"; "-g"; "-h"; "-p"; "-U"; "-t"; "-C"]%string)
                    && (j + 1 <? length args)
                 then Ok (Next (j + 2))
                 else Ok (Next (j + 1))
               else Ok (Return (Some a)))
            j) (after_loop args)
    = Ok (sudo_rule (skipn j args)).
Proof.
  induction fuel as [|fuel IH]; intros j Hf Hj; [lia|].
  cbn [while_ bind]. destruct (j <? length args) eqn:E.
  - apply Nat.ltb_lt in E.
    destruct (getitem_skipn args E) as (a & Ha & Hs).
    rewrite Ha, Hs. cbn [bind sudo_rule].
    destruct (str_eqb a (py "--")).
    { cbn [bind after_loop]. rewrite item_or_none_spec.
      now replace (j + 1) with (S j) by lia. }
    unfold is_option. destruct (startswith a (py "-")); [|reflexivity].
    unfold sudo_arg_options. destruct (str_in a _).
    + destruct (j + 1 <? length args) eqn:E2; cbn [andb bind].
      * apply Nat.ltb_lt in E2. loop_step IH j.
        assert (E3 : S j < length args) by lia.
        destruct (getitem_skipn args E3) as (b & _ & Hs2).
        now rewrite Hs2.
      * apply Nat.ltb_ge in E2. loop_step IH j.
        assert (E3 : length args <= S j) by lia.
        now rewrite (skipn_all2 args E3).
    + cbn [andb bind]. now loop_step IH j.
  - apply Nat.ltb_ge in E. cbn [bind after_loop].
    rewrite item_or_none_spec.
    now rewrite (skipn_all2 args E).
Qed.

Lemma other_loop_spec (args : list str) :
  forall fuel j,
    length args - j < fuel -> j <= length args ->
    bind (while_ fuel
            (fun j => Ok (j <? length args))
            (fun j =>
               a <- getitem args j ;;
               if str_eqb a (py "--") then Ok (Break (j + 1))
               else if startswith a (py "-") then Ok (Next (j + 1))
               else Ok (Return (Some a)))
            j) (after_loop args)
    = Ok (other_rule (skipn j args)).
Proof.
  induction fuel as [|fuel IH]; intros j Hf Hj; [lia|].
  cbn [while_ bind]. destruct (j <? length args) eqn:E.
  - apply Nat.ltb_lt in E.
    destruct (getitem_skipn args E) as (a & Ha & Hs).
    rewrite Ha, Hs. cbn [bind other_rule].
    destruct (str_eqb a (py "--")).
    { cbn [bind after_loop]. rewrite item_or_none_spec.
      now replace (j + 1) with (S j) by lia. }
    unfold is_option. destruct (startswith a (py "-")); [|reflexivity].
    cbn [bind]. now loop_step IH j.
  - apply Nat.ltb_ge in E. cbn [bind after_loop].
    rewrite item_or_none_spec.
    now rewrite (skipn_all2 args E).
Qed.

Lemma after_env_loop_break (args : list str) (j : nat) :
  after_env_loop args (inl j) = Ok (after_assignments (skipn j args)).
Proof.
  unfold after_env_loop. destruct (j <? length args) eqn:E.
  - apply Nat.ltb_lt in E.
    destruct (@skip_assignments_spec args j) as (j' & Hj' & Hle & Hs); [lia|].
    rewrite Hj'. cbn [bind]. rewrite after_assignments_hd, <- Hs.
    exact (item_or_none_spec args j').
  - apply Nat.ltb_ge in E. now rewrite (skipn_all2 args E).
Qed.

Lemma env_loop_spec (args : list str) :
  forall fuel j,
    length args - j < fuel -> j <= length args ->
    bind (while_ fuel
            (fun j => Ok (j <? length args))
            (fun j =>
               a <- getitem args j ;;
               if str_eqb a (py "--") then Ok (Break (j + 1))
               else if startswith a (py "-") then
                 if str_in a (map py ["-u"; "--unset"]%string)
                    && (j + 1 <? length args)
                 then Ok (Next (j + 2))
                 else Ok (Next (j + 1))
               else if _looks_like_assignment_word a then Ok (Next (j + 1))
               else Ok (Return (Some a)))
            j) (after_env_loop args)
    = Ok (env_rule (skipn j args)).
Proof.
  induction fuel as [|fuel IH]; intros j Hf Hj; [lia|].
  cbn [while_ bind]. destruct (j <? length args) eqn:E.
  - apply Nat.ltb_lt in E.
    destruct (getitem_skipn args E) as (a & Ha & Hs).
    rewrite Ha, Hs. cbn [bind env_rule].
    destruct (str_eqb a (py "--")).
    { cbn [bind]. rewrite after_env_loop_break.
      now replace (j + 1) with (S j) by lia. }
    unfold is_option. destruct (startswith a (py "-")).
    + unfold env_arg_options. destruct (str_in a _).
      * destruct (j + 1 <? length args) eqn:E2; cbn [andb bind].
        -- apply Nat.ltb_lt in E2. loop_step IH j.
           assert (E3 : S j < length args) by lia.
           destruct (getitem_skipn args E3) as (b & _ & Hs2).
           now rewrite Hs2.
        -- apply Nat.ltb_ge in E2. loop_step IH j.
           assert (E3 : length args <= S j) by lia.
           now rewrite (skipn_all2 args E3).
      * cbn [andb bind]. now loop_step IH j.
    + destruct (_looks_like_assignment_word a); [|reflexivity].
      cbn [bind]. now loop_step IH j.
  - apply Nat.ltb_ge in E. cbn [bind].
    rewrite after_env_loop_break.
    now rewrite (skipn_all2 args E).
Qed.

Lemma command_loop_spec (args : list str) :
  forall fuel j,
    length args - j < fuel -> j <= length args ->
    exists j',
      while_ fuel
        (fun j => if j <? length args
                  then a <- getitem args j ;; Ok (startswith a (py "-"))
                  else Ok false)
        (fun j => Ok (@Next nat Empty_set (j + 1))) j = Ok (inl j')
      /\ hd_error (skipn j' args) = command_rule (skipn j args).
Proof.
  induction fuel as [|fuel IH]; intros j Hf Hj; [lia|].
  simpl. destruct (j <? length args) eqn:E.
  - apply Nat.ltb_lt in E.
    destruct (getitem_skipn args E) as (a & Ha & Hs).
    rewrite Ha. simpl. rewrite Hs. simpl. unfold is_option.
    destruct (startswith a (py "-")) eqn:L.
    + destruct (IH (j + 1)) as (j' & Hw & Hsk); [lia | lia |].
      exists j'. rewrite Hw. replace (j + 1) with (S j) in Hsk by lia.
      auto.
    + exists j. rewrite Hs. auto.
  - apply Nat.ltb_ge in E. exists j. rewrite (skipn_all2 args E).
    auto.
Qed.

Lemma twelve_wrappers (w : str) :
  str_eqb w (py "env") = false ->
  str_eqb w (py "sudo") = false ->
  str_in w (map py ["command"; "builtin"]%string) = false ->
  str_in w (map py ["time"; "nice"; "nohup"; "chronic"; "stdbuf"; "setpriv";
                    "chpst"; "gosu"; "su"; "chroot"; "ionice";
                    "taskset"]%string)
  = str_in w _WRAPPERS.
Proof.
  unfold _WRAPPERS, str_in. cbn [map existsb].
  intros -> -> H. apply orb_false_iff in H as [-> H].
  apply orb_false_iff in H as [-> _]. reflexivity.
Qed.

(** The wrapped-command inference computes the rule of the catalog. *)
Lemma infer_wrapped_command_spec (wrapper : str) (args : list str) :
  _infer_wrapped_command wrapper args = Ok (wrapper_rule wrapper args).
Proof.
  unfold _infer_wrapped_command, wrapper_rule.
  destruct args as [|a0 args0] eqn:Eargs.
  { repeat match goal with |- context [if ?b then _ else _] => destruct b end;
      reflexivity. }
  rewrite <- Eargs. clear Eargs a0 args0.
  destruct (str_eqb wrapper (py "env")) eqn:E1.
  { exact (@env_loop_spec args (S (length args)) 0 ltac:(lia) ltac:(lia)). }
  destruct (str_eqb wrapper (py "sudo")) eqn:E2.
  { exact (@sudo_loop_spec args (S (length args)) 0 ltac:(lia) ltac:(lia)). }
  destruct (str_in wrapper (map py ["command"; "builtin"]%string)) eqn:E3.
  { unfold command_loop.
    destruct (@command_loop_spec args (S (length args)) 0) as (j & Hw & Hj);
      [lia | lia |].
    rewrite Hw. cbn [bind]. rewrite item_or_none_spec. now rewrite Hj. }
  rewrite (twelve_wrappers _ E1 E2 E3).
  destruct (str_in wrapper _WRAPPERS); [|reflexivity].
  exact (@other_loop_spec args (S (length args)) 0 ltac:(lia) ltac:(lia)).
Qed.

Lemma resolve_drop (words : list str) :
  resolve words = resolve (drop_assignments words).
Proof.
  induction words as [|w words IH]; [reflexivity|].
  simpl. destruct (_looks_like_assignment_word w) eqn:L; [exact IH|].
  simpl. now rewrite L.
Qed.

Lemma drop_assignments_head (words : list str) (w : str) (rest : list str) :
  drop_assignments words = w :: rest -> _looks_like_assignment_word w = false.
Proof.
  induction words as [|x words IH]; simpl; [discriminate|].
  destruct (_looks_like_assignment_word x) eqn:L; [exact IH|].
  intros H. injection H as -> _. exact L.
Qed.

(** The resolver appends exactly the names of [resolve]. *)
Lemma append_command_words_spec (words out : list str) :
  _append_command_words words out = Ok (out ++ resolve words).
Proof.
  unfold _append_command_words. destruct words as [|w0 ws] eqn:Ew.
  { now rewrite app_nil_r. }
  rewrite <- Ew. clear Ew w0 ws.
  destruct (@skip_assignments_spec words 0) as (i & Hi & Hle & Hs); [lia|].
  rewrite Hi. cbn [bind]. simpl skipn in Hs.
  rewrite (resolve_drop words), <- Hs.
  destruct (length words <=? i) eqn:E.
  - apply Nat.leb_le in E. rewrite (skipn_all2 words E). simpl.
    now rewrite app_nil_r.
  - apply Nat.leb_gt in E.
    destruct (getitem_skipn words E) as (cmd0 & Hc & Hsk).
    rewrite Hc. cbn [bind]. rewrite Hsk in Hs |- *.
    symmetry in Hs. apply drop_assignments_head in Hs.
    cbn [resolve]. rewrite Hs. unfold slice_from.
    replace (i + 1) with (S i) by lia.
    destruct (str_in cmd0 _WRAPPERS).
    + rewrite infer_wrapped_command_spec. cbn [bind].
      destruct (wrapper_rule cmd0 (skipn (S i) words)); simpl.
      * now rewrite <- app_assoc.
      * reflexivity.
    + reflexivity.
Qed.
End ResolverFacts.

Section AssignmentPattern.
Context {db : UnicodeDB}.

Lemma isalpha_isalnum (c : char) : isalpha c = true -> isalnum c = true.
Proof.
  unfold isalpha, isalnum. destruct (c <? 128)%N.
  - intros ->. reflexivity.
  - apply uni_alpha_alnum.
Qed.

Lemma ident_first_rest (c : char) : ident_first c -> ident_rest c.
Proof. intros [H | H]; [left; now apply isalpha_isalnum | now right]. Qed.

Lemma ident_rest_not_eq (c : char) : ident_rest c -> (c =? 61)%N = false.
Proof.
  intros H. apply N.eqb_neq. intros ->. destruct H as [H | H]; discriminate.
Qed.

Lemma ident_rest_iff (c : char) :
  isalnum c || (c =? 95)%N = true <-> ident_rest c.
Proof.
  unfold ident_rest. rewrite orb_true_iff, N.eqb_eq. reflexivity.
Qed.

Lemma ident_first_iff (c : char) :
  isalpha c || (c =? 95)%N = true <-> ident_first c.
Proof.
  unfold ident_first. rewrite orb_true_iff, N.eqb_eq. reflexivity.
Qed.

Lemma before_eq_split (s : str) :
  chr_in 61%N s = true -> exists rest, s = before_eq s ++ 61%N :: rest.
Proof.
  unfold chr_in. induction s as [|c s IH]; cbn [existsb before_eq];
    [discriminate|].
  rewrite (N.eqb_sym 61 c). destruct (N.eqb_spec c 61) as [-> | Hc].
  - intros _. exists s. reflexivity.
  - cbn [orb]. intros H. destruct (IH H) as (rest & Hr).
    exists rest. cbn [app]. now rewrite <- Hr.
Qed.

Lemma before_eq_app (name rest : str) :
  Forall ident_rest name -> before_eq (name ++ 61%N :: rest) = name.
Proof.
  induction 1 as [|c name Hc _ IH]; simpl; [reflexivity|].
  rewrite (ident_rest_not_eq Hc). now rewrite IH.
Qed.

Lemma chr_in_app_eq (name rest : str) :
  chr_in 61%N (name ++ 61%N :: rest) = true.
Proof.
  unfold chr_in. rewrite existsb_app. simpl. apply orb_true_r.
Qed.

(** The heuristic accepts exactly the words of the shape [IDENT=...]. *)
Lemma looks_like_assignment_word_iff (s : str) :
  _looks_like_assignment_word s = true <-> assignment_shaped s.
Proof.
  unfold _looks_like_assignment_word, assignment_shaped. split.
  - destruct (chr_in 61%N s) eqn:E; simpl; [|discriminate].
    destruct (before_eq_split s E) as (rest & Hs).
    destruct (before_eq s) as [|c0 name]; [discriminate|].
    destruct (isalpha c0 || (c0 =? 95)%N) eqn:E0; simpl; [|discriminate].
    intros H. apply andb_prop in H as [_ H].
    exists c0, name, rest. split; [exact Hs|]. split.
    + now apply ident_first_iff.
    + apply Forall_forall. intros x Hx. apply ident_rest_iff.
      rewrite forallb_forall in H. now apply H.
  - intros (c & ident & rest & -> & Hc & Hid).
    assert (Hall : Forall ident_rest (c :: ident)).
    { constructor; [now apply ident_first_rest | exact Hid]. }
    pose proof (chr_in_app_eq (c :: ident) rest) as Hin.
    pose proof (before_eq_app rest Hall) as Hb.
    cbn [app] in Hin, Hb. rewrite Hin, Hb. simpl negb. cbv iota zeta.
    apply ident_first_iff in Hc. rewrite Hc. simpl negb. cbv iota.
    apply forallb_forall. intros x Hx. apply ident_rest_iff.
    rewrite Forall_forall in Hall. now apply Hall.
Qed.

Lemma looks_like_assignment_word_false (s : str) :
  _looks_like_assignment_word s = false <-> ~ assignment_shaped s.
Proof.
  rewrite <- looks_like_assignment_word_iff.
  destruct (_looks_like_assignment_word s); split; intros H;
    try reflexivity; try discriminate; try congruence.
Qed.

Lemma resolve_skip (pre rest : list str) :
  Forall assignment_shaped pre -> resolve (pre ++ rest) = resolve rest.
Proof.
  induction 1 as [|w pre Hw _ IH]; [reflexivity|].
  simpl. apply looks_like_assignment_word_iff in Hw. now rewrite Hw.
Qed.
End AssignmentPattern.

Section ScanFacts.
Context {db : UnicodeDB}.

Lemma scan_while_spec (tokens : list str) :
  forall fuel i words out,
    length tokens - i < fuel ->
    exists i' words' out',
      while_ fuel (fun s => Ok (fst (fst s) <? length tokens))
        (scan_body tokens) (i, words, out) = Ok (inl (i', words', out'))
      /\ out' ++ resolve words' = scan (skipn i tokens) words out.
Proof.
  induction fuel as [|fuel IH]; intros i words out Hf; [lia|].
  cbn [while_ bind fst]. destruct (i <? length tokens) eqn:E.
  - apply Nat.ltb_lt in E.
    destruct (getitem_skipn tokens E) as (t & Ht & Hs).
    unfold scan_body at 1. rewrite Ht, Hs. cbn [bind scan].
    destruct (str_in t _COMMAND_SEPARATORS).
    { rewrite append_command_words_spec. cbn [bind].
      destruct (IH (i + 1) [] (out ++ resolve words)) as (i' & w' & o' & Hw & Hr);
        [lia|].
      exists i', w', o'. rewrite Hw. split; [reflexivity|].
      now replace (i + 1) with (S i) in Hr by lia. }
    destruct (str_in t _REDIRECTION_TOKENS).
    { cbn [bind].
      destruct (IH (i + 2) words out) as (i' & w' & o' & Hw & Hr); [lia|].
      exists i', w', o'. rewrite Hw. split; [reflexivity|].
      rewrite Hr. replace (i + 2) with (S (S i)) by lia.
      destruct (Nat.lt_ge_cases (S i) (length tokens)) as [E2 | E2].
      - destruct (getitem_skipn tokens E2) as (b & _ & Hs2).
        now rewrite Hs2.
      - rewrite (skipn_all2 tokens E2).
        rewrite (skipn_all2 tokens) by lia. reflexivity. }
    destruct (str_in t _NON_COMMAND_TOKENS).
    { cbn [bind].
      destruct (IH (i + 1) words out) as (i' & w' & o' & Hw & Hr); [lia|].
      exists i', w', o'. rewrite Hw. split; [reflexivity|].
      now replace (i + 1) with (S i) in Hr by lia. }
    cbn [bind].
    destruct (IH (i + 1) (words ++ [t]) out) as (i' & w' & o' & Hw & Hr); [lia|].
    exists i', w', o'. rewrite Hw. split; [reflexivity|].
    now replace (i + 1) with (S i) in Hr by lia.
  - apply Nat.ltb_ge in E. exists i, words, out.
    split; [reflexivity|]. now rewrite (skipn_all2 tokens E).
Qed.

(** Scanning and the final flush yield [scan]. *)
Lemma scan_tokens_spec (tokens : list str) :
  ('(_, words, out) <- scan_loop tokens (0, [], []) ;;
   _append_command_words words out) = Ok (scan tokens [] []).
Proof.
  unfold scan_loop.
  destruct (@scan_while_spec tokens (S (length tokens)) 0 [] [])
    as (i' & w' & o' & Hw & Hr); [lia|].
  rewrite Hw. cbn [bind]. rewrite append_command_words_spec.
  now rewrite Hr.
Qed.
End ScanFacts.

(* ===================================================================== *)
(** ** The lexer terminates *)
(* ===================================================================== *)

Module ShlexFacts.
Import Shlex.

Import ShlexInv.

Section Facts.
Variable cfg : config.
Hypothesis Hcfg : standard cfg.

Lemma next_char_spec (l : lexer) :
  (next_char cfg l = (None, l) /\ instream l = [] /\ _pushback_chars l = [])
  \/ (exists c l',
        next_char cfg l = (Some c, l')
        /\ state l' = state l /\ token l' = token l
        /\ pushback l' = pushback l
        /\ chars l' + 1 = chars l
        /\ potential l' + 1 <= potential l
        /\ potential l' <= 2 * length (instream l')
                           + (length (_pushback_chars l') + 1)).
Proof.
  destruct Hcfg as (_ & _ & _ & Hp).
  unfold next_char, chars, potential.
  destruct (punctuation_chars cfg) as [|p ps]; [contradiction|].
  destruct (rev (_pushback_chars l)) as [|c before] eqn:E.
  - assert (E' : _pushback_chars l = []).
    { rewrite <- (rev_involutive (_pushback_chars l)), E. reflexivity. }
    destruct (instream l) as [|c rest] eqn:Ei.
    + left. auto.
    + right. exists c, (set_instream l rest). simpl. rewrite E'. simpl.
      repeat split; lia.
  - assert (E' : _pushback_chars l = rev before ++ [c]).
    { rewrite <- (rev_involutive (_pushback_chars l)), E. reflexivity. }
    right. exists c, (set_pushback_chars l (rev before)). simpl.
    rewrite E', length_app. simpl. repeat split; lia.
Qed.

Lemma readline_length (s : str) : length (readline s) <= length s.
Proof.
  induction s as [|c s IH]; simpl; [lia|].
  destruct (c =? 10)%N; lia.
Qed.

Ltac split_ifs :=
  repeat match goal with
    | |- context [if ?b then _ else _] => destruct b eqn:?
    end.

Ltac eval_tests :=
  repeat match goal with
    | |- context [chr_in ?a ?l] =>
        let v := eval vm_compute in (chr_in a l) in
        lazymatch v with
        | true => change (chr_in a l) with true
        | false => change (chr_in a l) with false
        end
    | |- context [N.eqb ?a ?b] =>
        let v := eval vm_compute in (N.eqb a b) in
        lazymatch v with
        | true => change (N.eqb a b) with true
        | false => change (N.eqb a b) with false
        end
    end;
  cbn [orb andb negb].

Ltac record_simpl :=
  cbn [self quoted escapedstate upd set_quoted set_escapedstate set_state
       set_token set_instream set_pushback_chars set_pushback instream
       _pushback_chars pushback state token].

Ltac open_post :=
  unfold step_post, emit; record_simpl;
  repeat match goal with
    | |- context [match token ?l with _ => _ end] =>
        let E := fresh "Etok" in destruct (token l) eqn:E
    | |- context [if quoted ?f then _ else _] =>
        let E := fresh "Equo" in destruct (quoted f) eqn:E
    end;
  unfold reading, left_loop, fresh, chars, potential in *;
  record_simpl; rewrite ?length_app; cbn [length map In].

Lemma chr_in_In (c : char) (l : str) : chr_in c l = true -> In c l.
Proof.
  unfold chr_in. rewrite existsb_exists. intros (x & Hx & E).
  apply N.eqb_eq in E. now subst.
Qed.

Ltac char_cases :=
  repeat match goal with
    | H : _ && true = true |- _ => rewrite andb_true_r in H
    | H : chr_in ?c [39; 34]%N = true |- _ =>
        apply chr_in_In in H; cbn [In] in H;
        destruct H as [H | [H | []]]; subst c
    | H : chr_in ?c [92%N] = true |- _ =>
        apply chr_in_In in H; cbn [In] in H;
        destruct H as [H | []]; subst c
    end.

Ltac nonempty :=
  match goal with
  | H : _ ++ [_] = [] |- _ => apply app_eq_nil in H; destruct H; discriminate
  | |- _ ++ [_] <> [] => let H := fresh in
                         intro H; apply app_eq_nil in H; destruct H; discriminate
  end.

Lemma read_token_body_step (p0 : nat) (f : frame) :
  reading p0 f -> step_post p0 f (read_token_body cfg f).
Proof.
  intros (Hst & Hesc & Hac & Hpb & Hpot & Hfresh).
  destruct Hcfg as (Hq & He & Heq & Hp).
  unfold read_token_body.
  destruct (next_char_spec (self f))
    as [(Hn & Hi & Hpc) | (c & l' & Hn & Hs' & Ht' & Hpb' & Hch & Hpo & Hpo2)];
    rewrite Hn; cbn [upd self quoted escapedstate].
  - (* end of input *)
    destruct Hst as [Hs | Hs].
    { rewrite Hs. open_post. intuition (auto; try lia). }
    cbn [map In] in Hs.
    destruct Hs as [Hs | [Hs | [Hs | [Hs | [Hs | [Hs | []]]]]]];
      rewrite <- Hs; rewrite ?Hq, ?He, ?Heq; eval_tests; cbv iota;
      open_post; try reflexivity;
      intuition (auto; try lia; try congruence).
  - (* a character was read *)
    rewrite Hs'.
    destruct Hst as [Hs | Hs].
    { rewrite Hs. open_post. intuition (auto; try lia; try congruence). }
    cbn [map In] in Hs.
    pose proof (readline_length (instream l')) as Hrl.
    cbn [In] in Hesc.
    destruct Hs as [Hs | [Hs | [Hs | [Hs | [Hs | [Hs | []]]]]]];
      rewrite <- Hs; symmetry in Hs;
      rewrite ?Hq, ?He, ?Heq; eval_tests; cbv iota;
      split_ifs; open_post; char_cases;
      intuition (auto; try lia; try congruence; try nonempty).
Qed.

Lemma read_loop_total (p0 : nat) :
  forall fuel f,
    reading p0 f -> chars (self f) < fuel ->
    while_ fuel (fun _ => Ok true) (read_token_body cfg) f = Raise ValueError
    \/ exists f',
         while_ fuel (fun _ => Ok true) (read_token_body cfg) f = Ok (inl f')
         /\ left_loop p0 f'.
Proof.
  induction fuel as [|fuel IH]; intros f Hf Hfuel; [lia|].
  cbn [while_ bind].
  pose proof (read_token_body_step Hf) as Hstep.
  destruct (read_token_body cfg f) as [[f' | f' | []] | e |];
    cbn [step_post bind] in *.
  - destruct Hstep as [Hr Hlt]. apply IH; [exact Hr | lia].
  - right. eauto.
  - left. now subst e.
  - contradiction.
Qed.

Lemma read_token_total (l : lexer) :
  at_rest l ->
  read_token cfg l = Raise ValueError
  \/ (exists l', read_token cfg l = Ok (None, l'))
  \/ (exists t l',
        read_token cfg l = Ok (Some t, l')
        /\ at_rest l' /\ potential l' < potential l).
Proof.
  intros (Hst & Htok & Hpb). unfold read_token.
  set (f0 := {| self := l; quoted := false; escapedstate := 32%N |}).
  assert (Hf0 : reading (potential l) f0).
  { unfold reading, fresh, f0; cbn [self quoted escapedstate map In].
    repeat split; auto.
    - destruct Hst as [-> | ->]; auto.
    - intros [H | H]; destruct Hst as [E | E]; congruence. }
  destruct (@read_loop_total (potential l) (read_fuel l) f0 Hf0)
    as [Hr | (f' & Hr & Hst' & Hpb' & Hle & Hd)].
  { unfold read_fuel, chars, f0. cbn [self]. lia. }
  - rewrite Hr. now left.
  - rewrite Hr. cbn [bind]. right.
    assert (Hrest : forall t, at_rest (set_token (self f') t) -> True) by auto.
    destruct (token (self f')) as [|c t] eqn:Et.
    + destruct (quoted f') eqn:Eq; cbn [negb].
      * right. exists [], (set_token (self f') []).
        split; [reflexivity|]. split.
        -- unfold at_rest. cbn [state token pushback set_token]. auto.
        -- unfold potential in *. cbn [instream _pushback_chars set_token].
           destruct Hd as [[_ Hd] | Hd]; [discriminate | exact Hd].
      * left. eauto.
    + right. exists (c :: t), (set_token (self f') []).
      split; [reflexivity|]. split.
      * unfold at_rest. cbn [state token pushback set_token]. auto.
      * unfold potential in *. cbn [instream _pushback_chars set_token].
        destruct Hd as [[Hd _] | Hd]; [discriminate | exact Hd].
Qed.

Lemma to_list_loop_total :
  forall fuel l (acc : list (list N)),
    at_rest l -> potential l < fuel ->
    while_ fuel (fun _ => Ok true) (to_list_body cfg) (l, acc) = Raise ValueError
    \/ exists s,
         while_ fuel (fun _ => Ok true) (to_list_body cfg) (l, acc) = Ok (inl s).
Proof.
  induction fuel as [|fuel IH]; intros l acc Hl Hfuel; [lia|].
  cbn [while_ bind]. unfold to_list_body at 1 3. cbn [fst snd].
  unfold get_token.
  pose proof Hl as (Hst & Htok & Hpb). rewrite Hpb.
  destruct (@read_token_total l Hl)
    as [Hr | [(l' & Hr) | (t & l' & Hr & Hl' & Hlt)]];
    rewrite Hr; cbn [bind].
  - now left.
  - right. eauto.
  - apply IH; [exact Hl' | lia].
Qed.

(** [list(lexer)] returns the tokens or raises [ValueError]. *)
Lemma to_list_total (s : list N) :
  to_list cfg (init_lexer s) = Raise ValueError
  \/ exists tokens, to_list cfg (init_lexer s) = Ok tokens.
Proof.
  unfold to_list.
  destruct (@to_list_loop_total
              (2 * length (instream (init_lexer s))
               + length (_pushback_chars (init_lexer s))
               + length (pushback (init_lexer s)) + 2)
              (init_lexer s) [])
    as [Hr | ([l' toks] & Hr)].
  - unfold at_rest, init_lexer. cbn. auto.
  - unfold potential, init_lexer. cbn. lia.
  - rewrite Hr. now left.
  - rewrite Hr. right. exists toks. reflexivity.
Qed.
End Facts.

Lemma fallback_config_standard : standard fallback_config.
Proof.
  unfold standard. repeat split; try reflexivity. discriminate.
Qed.
End ShlexFacts.

(* ===================================================================== *)
(** ** The tree walk terminates *)
(* ===================================================================== *)

Lemma for_each_total {A S} (l : list A) (body : A -> S -> result S) :
  (forall x, In x l -> forall s, exists s', body x s = Ok s') ->
  forall s, exists s', for_each l s body = Ok s'.
Proof.
  induction l as [|x l IH]; intros H s; simpl.
  - eauto.
  - destruct (H x (or_introl eq_refl) s) as (s1 & ->). cbn [bind].
    apply IH. intros y Hy. apply H. now right.
Qed.

Lemma list_max_map_ge {A} (f : A -> nat) (l : list A) (x : A) :
  In x l -> f x <= list_max (map f l).
Proof.
  induction l as [|y l IH]; simpl; [contradiction|].
  intros [-> | H]; [lia|]. specialize (IH H). lia.
Qed.

Lemma iter_children_depth (node c : pyval) :
  In c (_iter_children node) -> depth c < depth node.
Proof.
  destruct node as [| | | | |d]; simpl; try contradiction.
  rewrite in_flat_map. intros ([k v] & Hkv & Hc). cbn [snd] in Hc.
  pose proof (list_max_map_ge (fun kv => depth (snd kv)) d (k, v) Hkv) as Hv.
  cbn [snd] in Hv.
  assert (Hle : depth c <= depth v).
  { destruct v as [| | |l|l|d']; cbn [_is_ast_node] in Hc; try contradiction.
    - apply filter_In in Hc as [Hc _].
      pose proof (list_max_map_ge depth l c Hc). simpl. lia.
    - apply filter_In in Hc as [Hc _].
      pose proof (list_max_map_ge depth l c Hc). simpl. lia.
    - destruct (lookup (py "kind") d'); [|contradiction].
      destruct Hc as [<- | []]. lia. }
  lia.
Qed.

Section WalkFacts.
Context {db : UnicodeDB}.

Lemma handle_command_node_total (node : pyval) (out : list (list N)) :
  exists names, _handle_command_node node out = Ok (out ++ names).
Proof.
  unfold _handle_command_node.
  destruct (getattr node "parts");
    try (exists []; now rewrite app_nil_r).
  rewrite append_command_words_spec. eauto.
Qed.

(** Walking a tree returns, and only adds names to the output. *)
Lemma walk_total :
  forall fuel node out,
    depth node < fuel -> exists names, _walk fuel node out = Ok (out ++ names).
Proof.
  induction fuel as [|fuel IH]; intros node out Hd; [lia|].
  assert (Hgen :
    forall out1 children,
      (forall c, In c children -> depth c < fuel) ->
      exists names, for_each children out1 (_walk fuel) = Ok (out1 ++ names)).
  { intros out1 children. revert out1.
    induction children as [|c cs IHc]; intros out1 Hc; cbn [for_each].
    - exists []. now rewrite app_nil_r.
    - destruct (IH c out1) as (n1 & ->); [apply Hc; now left|].
      cbn [bind]. destruct (IHc (out1 ++ n1)) as (n2 & ->).
      { intros c' Hc'. apply Hc. now right. }
      exists (n1 ++ n2). now rewrite app_assoc. }
  assert (Hnode :
    exists names,
      (out <- (if is_str (getattr node "kind") "command"
               then _handle_command_node node out else Ok out) ;;
       for_each (_iter_children node) out (_walk fuel)) = Ok (out ++ names)).
  { assert (H1 : exists n1,
              (if is_str (getattr node "kind") "command"
               then _handle_command_node node out else Ok out) = Ok (out ++ n1)).
    { destruct (is_str (getattr node "kind") "command").
      - apply handle_command_node_total.
      - exists []. now rewrite app_nil_r. }
    destruct H1 as (n1 & ->). cbn [bind].
    destruct (Hgen (out ++ n1) (_iter_children node)) as (n2 & ->).
    { intros c Hc. apply iter_children_depth in Hc. lia. }
    exists (n1 ++ n2). now rewrite app_assoc. }
  cbn [_walk]. destruct node; exact Hnode.
Qed.

End WalkFacts.

(* ===================================================================== *)
(** ** Facts about the rules of the wrappers *)
(* ===================================================================== *)

Section RuleFacts.
Context {db : UnicodeDB}.

Lemma infer_cons_rule (wrapper a : list N) (rest : list (list N)) :
_infer_wrapped_command wrapper (a :: rest) = Ok (wrapper_rule wrapper (a :: rest)).
Proof. apply infer_wrapped_command_spec. Qed.

Lemma wrapper_rule_sudo (args : list (list N)) :
wrapper_rule (py "sudo") args = sudo_rule args.
Proof. reflexivity. Qed.

Lemma wrapper_rule_env (args : list (list N)) :
wrapper_rule (py "env") args = env_rule args.
Proof. reflexivity. Qed.

Lemma not_In_str_in (x : list N) (l : list (list N)) :
~ In x l -> str_in x l = false.
Proof.
intros H. destruct (str_in x l) eqn:E; [|reflexivity].
apply str_in_In in E. contradiction.
Qed.

Lemma after_assignments_first (asg : list (list N)) (w : list N) (rest : list (list N)) :
Forall assignment_shaped asg -> ~ assignment_shaped w ->
after_assignments (asg ++ w :: rest) = Some w.
Proof.
intros Ha Hw. induction Ha as [|a asg Ha _ IH]; simpl.
- apply looks_like_assignment_word_false in Hw. now rewrite Hw.
- apply looks_like_assignment_word_iff in Ha. now rewrite Ha.
Qed.

Lemma after_assignments_none (asg : list (list N)) :
Forall assignment_shaped asg -> after_assignments asg = None.
Proof.
induction 1 as [|a asg Ha _ IH]; simpl; [reflexivity|].
apply looks_like_assignment_word_iff in Ha. now rewrite Ha.
Qed.

(** The names the resolver appends for a command name and its arguments. *)
Lemma resolve_command (cmd : list N) (post : list (list N)) :
~ assignment_shaped cmd ->
resolve (cmd :: post)
= cmd :: (if str_in cmd _WRAPPERS then option_list (wrapper_rule cmd post) else []).
Proof.
intros H. apply looks_like_assignment_word_false in H.
cbn [resolve]. now rewrite H.
Qed.

Lemma resolve_all_assignments (words : list (list N)) :
Forall assignment_shaped words -> resolve words = [].
Proof.
intros H. rewrite <- (app_nil_r words). now rewrite resolve_skip.
Qed.

Lemma resolve_length (words : list (list N)) : length (resolve words) <= 2.
Proof.
induction words as [|w words IH]; cbn [resolve length]; [lia|].
destruct (_looks_like_assignment_word w); [exact IH|].
destruct (str_in w _WRAPPERS); cbn [length]; [|lia].
destruct (wrapper_rule w words); cbn [option_list length]; lia.
Qed.

Lemma resolve_shape (words : list (list N)) :
resolve words = []
\/ exists pre cmd post,
     words = pre ++ cmd :: post
     /\ Forall assignment_shaped pre /\ ~ assignment_shaped cmd
     /\ (resolve words = [cmd]
         \/ exists w, resolve words = [cmd; w] /\ In cmd _WRAPPERS
                      /\ wrapper_rule cmd post = Some w).
Proof.
induction words as [|x words IH]; cbn [resolve]; [now left|].
destruct (_looks_like_assignment_word x) eqn:L.
- destruct IH as [IH | (pre & cmd & post & -> & Hpre & Hcmd & Hres)];
    [now left|].
  right. exists (x :: pre), cmd, post. split; [reflexivity|].
  split; [constructor; [now apply looks_like_assignment_word_iff | exact Hpre]|].
  split; assumption.
- right. exists [], x, words. split; [reflexivity|].
  split; [constructor|]. split; [now apply looks_like_assignment_word_false|].
  destruct (str_in x _WRAPPERS) eqn:W; [|now left].
  destruct (wrapper_rule x words) as [w|] eqn:R; cbn [option_list]; [|now left].
  right. exists w. split; [reflexivity|]. split; [now apply str_in_In | reflexivity].
Qed.

Lemma assignment_not_option (a : list N) :
assignment_shaped a -> is_option a = false.
Proof.
intros (c & ident & rest & -> & Hc & _). unfold is_option.
change (py "-") with [45%N]. cbn [startswith].
destruct (N.eqb_spec 45 c) as [<- | _]; [|reflexivity].
destruct Hc as [Hc | Hc]; discriminate.
Qed.

Lemma assignment_not_dashes (a : list N) :
assignment_shaped a -> str_eqb a (py "--") = false.
Proof.
intros Ha. apply str_eqb_neq. intros ->.
apply looks_like_assignment_word_iff in Ha. discriminate.
Qed.

Lemma wrapper_not_assignment (w : list N) : In w _WRAPPERS -> ~ assignment_shaped w.
Proof.
intros H. apply looks_like_assignment_word_false.
unfold _WRAPPERS in H. cbn [map In] in H.
repeat (destruct H as [<- | H]; [reflexivity|]). contradiction.
Qed.
End RuleFacts.

Section Exhausted.
Context {db : UnicodeDB}.

Lemma other_rule_exhausted (opts tail : list (list N)) :
Forall (fun a => is_option a = true /\ a <> py "--") opts ->
tail = [] \/ tail = [py "--"] ->
other_rule (opts ++ tail) = None.
Proof.
intros Ho Ht. induction Ho as [|a opts [Ha Hd] _ IH]; cbn [app other_rule].
- destruct Ht as [-> | ->]; reflexivity.
- apply str_eqb_neq in Hd. now rewrite Hd, Ha.
Qed.

Lemma command_rule_exhausted (opts tail : list (list N)) :
Forall (fun a => is_option a = true /\ a <> py "--") opts ->
tail = [] \/ tail = [py "--"] ->
command_rule (opts ++ tail) = None.
Proof.
intros Ho Ht. induction Ho as [|a opts [Ha Hd] _ IH]; cbn [app command_rule].
- destruct Ht as [-> | ->]; reflexivity.
- now rewrite Ha.
Qed.

Lemma sudo_rule_exhausted (tail : list (list N)) :
tail = [] \/ tail = [py "--"] ->
forall n opts,
  length opts <= n ->
  Forall (fun a => is_option a = true /\ a <> py "--") opts ->
  sudo_rule (opts ++ tail) = None.
Proof.
intros Ht. induction n as [|n IH]; intros opts Hn Ho.
- destruct opts; [|simpl in Hn; lia].
  destruct Ht as [-> | ->]; reflexivity.
- destruct Ho as [|a rest [Ha Hd] Hrest].
  { destruct Ht as [-> | ->]; reflexivity. }
  cbn [app sudo_rule]. apply str_eqb_neq in Hd. rewrite Hd, Ha.
  simpl in Hn. destruct (str_in a sudo_arg_options).
  + destruct Hrest as [|b rest' _ Hrest']; cbn [app].
    * destruct Ht as [-> | ->]; reflexivity.
    * apply IH; [simpl in Hn; lia | exact Hrest'].
  + apply IH; [lia | exact Hrest].
Qed.

Lemma env_rule_assignments (asg : list (list N)) :
Forall assignment_shaped asg -> env_rule asg = None.
Proof.
induction 1 as [|a asg Ha _ IH]; cbn [env_rule]; [reflexivity|].
rewrite (assignment_not_dashes Ha), (assignment_not_option Ha).
apply looks_like_assignment_word_iff in Ha. now rewrite Ha.
Qed.

Lemma env_rule_exhausted (tail : list (list N)) :
(tail = []
 \/ exists asg, tail = py "--" :: asg /\ Forall assignment_shaped asg) ->
forall n opts,
  length opts <= n ->
  Forall (fun a => (is_option a = true /\ a <> py "--") \/ assignment_shaped a)
    opts ->
  env_rule (opts ++ tail) = None.
Proof.
intros Ht.
assert (Htail : env_rule tail = None).
{ destruct Ht as [-> | (asg & -> & Ha)]; [reflexivity|].
  cbn [env_rule]. change (str_eqb (py "--") (py "--")) with true. cbv iota.
  now apply after_assignments_none. }
induction n as [|n IH]; intros opts Hn Ho.
- destruct opts; [exact Htail | simpl in Hn; lia].
- destruct Ho as [|a rest Ha Hrest]; [exact Htail|].
  cbn [app env_rule]. simpl in Hn.
  destruct Ha as [[Ha Hd] | Ha].
  + apply str_eqb_neq in Hd. rewrite Hd, Ha.
    destruct (str_in a env_arg_options).
    * destruct Hrest as [|b rest' _ Hrest']; cbn [app].
      -- destruct Ht as [-> | (asg & -> & Hasg)]; [reflexivity|].
         now apply env_rule_assignments.
      -- apply IH; [simpl in Hn; lia | exact Hrest'].
    * apply IH; [lia | exact Hrest].
  + rewrite (assignment_not_dashes Ha), (assignment_not_option Ha).
    apply looks_like_assignment_word_iff in Ha. rewrite Ha.
    apply IH; [lia | exact Hrest].
Qed.

Lemma skippable_option (wrapper : list N) (opts : list (list N)) :
wrapper <> py "env" ->
Forall (skippable wrapper) opts ->
Forall (fun a => is_option a = true /\ a <> py "--") opts.
Proof.
intros Hw. apply Forall_impl. intros a [H | [H _]]; [exact H | contradiction].
Qed.

Lemma exhausted_tail (wrapper : list N) (tail : list (list N)) :
wrapper <> py "env" ->
(tail = []
 \/ exists asg,
      tail = py "--" :: asg
      /\ Forall (fun a => wrapper = py "env" /\ assignment_shaped a) asg) ->
tail = [] \/ tail = [py "--"].
Proof.
intros Hw [-> | (asg & -> & Ha)]; [now left|]. right.
destruct Ha as [|a asg [Ha _] _]; [reflexivity | contradiction].
Qed.

Lemma wrapper_rule_exhausted (wrapper : list N) (args : list (list N)) :
In wrapper _WRAPPERS -> exhausted wrapper args ->
wrapper_rule wrapper args = None.
Proof.
intros Hw (opts & tail & -> & Ho & Ht).
unfold _WRAPPERS in Hw. cbn [map In] in Hw.
destruct Hw as [<- | [<- | Hw]].
- (* sudo *)
  change (wrapper_rule (py "sudo") (opts ++ tail)) with (sudo_rule (opts ++ tail)).
  apply (@sudo_rule_exhausted tail) with (n := length opts).
  + apply exhausted_tail in Ht; [exact Ht | discriminate].
  + lia.
  + apply skippable_option in Ho; [exact Ho | discriminate].
- (* env *)
  change (wrapper_rule (py "env") (opts ++ tail)) with (env_rule (opts ++ tail)).
  apply (@env_rule_exhausted tail) with (n := length opts).
  + destruct Ht as [-> | (asg & -> & Ha)]; [now left|]. right.
    exists asg. split; [reflexivity|].
    revert Ha. apply Forall_impl. now intros a [_ Ha].
  + lia.
  + revert Ho. apply Forall_impl. intros a [H | [_ H]]; [now left | now right].
- destruct Hw as [<- | [<- | Hw]].
  + change (wrapper_rule (py "command") (opts ++ tail))
      with (command_rule (opts ++ tail)).
    apply command_rule_exhausted.
    * apply skippable_option in Ho; [exact Ho | discriminate].
    * apply exhausted_tail in Ht; [exact Ht | discriminate].
  + change (wrapper_rule (py "builtin") (opts ++ tail))
      with (command_rule (opts ++ tail)).
    apply command_rule_exhausted.
    * apply skippable_option in Ho; [exact Ho | discriminate].
    * apply exhausted_tail in Ht; [exact Ht | discriminate].
  + repeat (destruct Hw as [<- | Hw];
            [ match goal with
              | |- wrapper_rule ?w ?a = None =>
                  change (wrapper_rule w a) with (other_rule a)
              end;
              apply other_rule_exhausted;
              [ apply skippable_option in Ho; [exact Ho | discriminate]
              | apply exhausted_tail in Ht; [exact Ht | discriminate] ]
            | ]).
    contradiction.
Qed.
End Exhausted.

Section UsedUpFacts.
Context {db : UnicodeDB}.

Lemma sudo_arg_option (a : list N) :
In a sudo_arg_options -> is_option a = true /\ str_eqb a (py "--") = false.
Proof.
unfold sudo_arg_options. cbn [map In].
intros H. repeat (destruct H as [<- | H]; [split; reflexivity|]).
contradiction.
Qed.

Lemma env_arg_option (a : list N) :
In a env_arg_options -> is_option a = true /\ str_eqb a (py "--") = false.
Proof.
unfold env_arg_options. cbn [map In].
intros H. repeat (destruct H as [<- | H]; [split; reflexivity|]).
contradiction.
Qed.

Lemma takes_argument_sudo (a : list N) :
takes_argument (py "sudo") a <-> str_in a sudo_arg_options = true.
Proof.
rewrite str_in_In. unfold takes_argument. split.
- intros [[_ H] | [H _]]; [exact H | discriminate].
- intros H. left. now split.
Qed.

Lemma takes_argument_env (a : list N) :
takes_argument (py "env") a <-> str_in a env_arg_options = true.
Proof.
rewrite str_in_In. unfold takes_argument. split.
- intros [[H _] | [_ H]]; [discriminate | exact H].
- intros H. right. now split.
Qed.

Lemma after_assignments_none_iff (args : list (list N)) :
after_assignments args = None <-> Forall assignment_shaped args.
Proof.
split; [|apply after_assignments_none].
induction args as [|a args IH]; cbn [after_assignments]; [constructor|].
destruct (_looks_like_assignment_word a) eqn:E; [|discriminate].
intros H. constructor; [now apply looks_like_assignment_word_iff | now apply IH].
Qed.

Lemma used_up_sudo_rule (args : list (list N)) :
used_up (py "sudo") args -> sudo_rule args = None.
Proof.
induction 1 as [| a rest Ho Hd Ht _ IH | a b rest Ht _ IH
                | a rest Hw _ _ _ | asg _ Ha]; cbn [sudo_rule].
- reflexivity.
- assert (E : str_eqb a (py "--") = false).
  { apply str_eqb_neq. intros ->. specialize (Hd eq_refl).
    cbn in Hd. intuition discriminate. }
  rewrite E, Ho. destruct (str_in a sudo_arg_options) eqn:S; [|exact IH].
  apply takes_argument_sudo in S. now rewrite (Ht S).
- apply takes_argument_sudo in Ht. rewrite Ht.
  apply str_in_In, sudo_arg_option in Ht as [-> ->]. exact IH.
- discriminate.
- change (str_eqb (py "--") (py "--")) with true. cbv iota.
  destruct Ha as [|a asg [Hw _] _]; [reflexivity | discriminate].
Qed.

Lemma sudo_rule_used_up :
forall n args,
  length args <= n -> sudo_rule args = None -> used_up (py "sudo") args.
Proof.
induction n as [|n IH]; intros args Hn H.
- destruct args; [constructor | simpl in Hn; lia].
- destruct args as [|a rest]; [constructor|].
  cbn [sudo_rule] in H. simpl in Hn.
  destruct (str_eqb a (py "--")) eqn:E.
  { apply str_eqb_eq in E as ->. destruct rest; [|discriminate].
    apply used_up_dashes; [|constructor].
    cbn. intuition discriminate. }
  apply str_eqb_neq in E.
  destruct (is_option a) eqn:Ho; [|discriminate].
  destruct (str_in a sudo_arg_options) eqn:S.
  + destruct rest as [|b rest'].
    * apply used_up_option; [exact Ho | now intros -> | reflexivity | constructor].
    * apply used_up_argument; [now apply takes_argument_sudo|].
      apply IH; [simpl in Hn; lia | exact H].
  + apply used_up_option; [exact Ho | now intros -> | | apply IH; [lia | exact H]].
    intros Ht. apply takes_argument_sudo in Ht. congruence.
Qed.

Lemma used_up_env_rule (args : list (list N)) :
used_up (py "env") args -> env_rule args = None.
Proof.
induction 1 as [| a rest Ho Hd Ht _ IH | a b rest Ht _ IH
                | a rest _ Ha _ IH | asg _ Ha]; cbn [env_rule].
- reflexivity.
- assert (E : str_eqb a (py "--") = false).
  { apply str_eqb_neq. intros ->. specialize (Hd eq_refl).
    cbn in Hd. intuition discriminate. }
  rewrite E, Ho. destruct (str_in a env_arg_options) eqn:S; [|exact IH].
  apply takes_argument_env in S. now rewrite (Ht S).
- apply takes_argument_env in Ht. rewrite Ht.
  apply str_in_In, env_arg_option in Ht as [-> ->]. exact IH.
- rewrite (assignment_not_dashes Ha), (assignment_not_option Ha).
  apply looks_like_assignment_word_iff in Ha. now rewrite Ha.
- change (str_eqb (py "--") (py "--")) with true. cbv iota.
  apply after_assignments_none. revert Ha. apply Forall_impl. now intros a [_ H].
Qed.

Lemma env_rule_used_up :
forall n args,
  length args <= n -> env_rule args = None -> used_up (py "env") args.
Proof.
induction n as [|n IH]; intros args Hn H.
- destruct args; [constructor | simpl in Hn; lia].
- destruct args as [|a rest]; [constructor|].
  cbn [env_rule] in H. simpl in Hn.
  destruct (str_eqb a (py "--")) eqn:E.
  { apply str_eqb_eq in E as ->. apply used_up_dashes.
    - cbn. intuition discriminate.
    - apply after_assignments_none_iff in H. revert H.
      apply Forall_impl. intros a Ha. now split. }
  apply str_eqb_neq in E.
  destruct (is_option a) eqn:Ho.
  + destruct (str_in a env_arg_options) eqn:S.
    * destruct rest as [|b rest'].
      -- apply used_up_option;
           [exact Ho | now intros -> | reflexivity | constructor].
      -- apply used_up_argument; [now apply takes_argument_env|].
         apply IH; [simpl in Hn; lia | exact H].
    * apply used_up_option;
        [exact Ho | now intros -> | | apply IH; [lia | exact H]].
      intros Ht. apply takes_argument_env in Ht. congruence.
  + destruct (_looks_like_assignment_word a) eqn:L; [|discriminate].
    apply used_up_assignment;
      [reflexivity | now apply looks_like_assignment_word_iff
       | apply IH; [lia | exact H]].
Qed.

Lemma not_takes_argument (wrapper a : list N) :
wrapper <> py "sudo" -> wrapper <> py "env" -> ~ takes_argument wrapper a.
Proof. intros Hs He [[H _] | [H _]]; contradiction. Qed.

Lemma used_up_command_rule (wrapper : list N) (args : list (list N)) :
In wrapper command_wrappers ->
used_up wrapper args <-> command_rule args = None.
Proof.
intros Hw.
assert (Hs : wrapper <> py "sudo")
  by (intros ->; cbn in Hw; intuition discriminate).
assert (He : wrapper <> py "env")
  by (intros ->; cbn in Hw; intuition discriminate).
split.
- induction 1 as [| a rest Ho _ _ _ IH | a b rest Ht _ _
                  | a rest Hx _ _ _ | asg Hn _]; cbn [command_rule].
  + reflexivity.
  + now rewrite Ho.
  + now apply not_takes_argument in Ht.
  + contradiction.
  + contradiction.
- induction args as [|a rest IH]; cbn [command_rule]; [constructor|].
  destruct (is_option a) eqn:Ho; [|discriminate].
  intros H. apply used_up_option; [exact Ho | now intros _ | | now apply IH].
  intros Ht. now apply not_takes_argument in Ht.
Qed.

Lemma used_up_other_rule (wrapper : list N) (args : list (list N)) :
In wrapper other_wrappers ->
used_up wrapper args <-> other_rule args = None.
Proof.
intros Hw.
assert (Hs : wrapper <> py "sudo")
  by (intros ->; cbn in Hw; intuition discriminate).
assert (He : wrapper <> py "env")
  by (intros ->; cbn in Hw; intuition discriminate).
assert (Hc : ~ In wrapper command_wrappers).
{ intros Hc. unfold other_wrappers in Hw. cbn [map In] in Hw.
  repeat (destruct Hw as [<- | Hw]; [cbn in Hc; intuition discriminate|]).
  contradiction. }
split.
- induction 1 as [| a rest Ho Hd _ _ IH | a b rest Ht _ _
                  | a rest Hx _ _ _ | asg _ Ha]; cbn [other_rule].
  + reflexivity.
  + assert (E : str_eqb a (py "--") = false).
    { apply str_eqb_neq. intros ->. now specialize (Hd eq_refl). }
    now rewrite E, Ho.
  + now apply not_takes_argument in Ht.
  + contradiction.
  + change (str_eqb (py "--") (py "--")) with true. cbv iota.
    destruct Ha as [|a asg [Hx _] _]; [reflexivity | contradiction].
- induction args as [|a rest IH]; cbn [other_rule]; [constructor|].
  destruct (str_eqb a (py "--")) eqn:E.
  { apply str_eqb_eq in E as ->. destruct rest; [|discriminate].
    intros _. apply used_up_dashes; [exact Hc | constructor]. }
  apply str_eqb_neq in E.
  destruct (is_option a) eqn:Ho; [|discriminate].
  intros H. apply used_up_option; [exact Ho | now intros -> | | now apply IH].
  intros Ht. now apply not_takes_argument in Ht.
Qed.

(** The lists that are used up are those on which the rule of the
    wrapper finds no word. *)
Lemma used_up_wrapper_rule (wrapper : list N) (args : list (list N)) :
In wrapper _WRAPPERS ->
used_up wrapper args <-> wrapper_rule wrapper args = None.
Proof.
intros Hw. unfold _WRAPPERS in Hw. cbn [map In] in Hw.
destruct Hw as [<- | [<- | [<- | [<- | Hw]]]].
- change (wrapper_rule (py "sudo") args) with (sudo_rule args).
  split; [apply used_up_sudo_rule | now apply sudo_rule_used_up with (n := length args)].
- change (wrapper_rule (py "env") args) with (env_rule args).
  split; [apply used_up_env_rule | now apply env_rule_used_up with (n := length args)].
- change (wrapper_rule (py "command") args) with (command_rule args).
  apply used_up_command_rule. now left.
- change (wrapper_rule (py "builtin") args) with (command_rule args).
  apply used_up_command_rule. right. now left.
- repeat (destruct Hw as [<- | Hw];
          [ match goal with
            | |- _ <-> wrapper_rule ?w ?a = None =>
                change (wrapper_rule w a) with (other_rule a)
            end;
            apply used_up_other_rule; cbn; tauto
          | ]).
  contradiction.
Qed.

Lemma exhausted_used_up (wrapper : list N) (args : list (list N)) :
In wrapper _WRAPPERS -> exhausted wrapper args -> used_up wrapper args.
Proof.
intros Hw He. apply used_up_wrapper_rule; [exact Hw|].
now apply wrapper_rule_exhausted.
Qed.
End UsedUpFacts.


(* ===================================================================== *)
(** ** Facts about the normalization *)
(* ===================================================================== *)


Lemma span_prefix (p : N -> bool) (a : list N) (c : N) (r : list N) :
  forallb p a = true -> p c = false -> span p (a ++ c :: r) = (a, c :: r).
Proof.
  intros Ha Hc. induction a as [|x a IH]; cbn [app span].
  - now rewrite Hc.
  - cbn [forallb] in Ha. apply andb_prop in Ha as [Hx Ha].
    rewrite Hx, (IH Ha). reflexivity.
Qed.

Section NormalizationFacts.
Context {db : UnicodeDB}.








End NormalizationFacts.

Section DedentFacts.
Import Textwrap.

Lemma split_lines_no_newline (l : list N) :
no_newline l -> split_lines l = [l].
Proof.
induction 1 as [|c l Hc _ IH]; cbn [split_lines]; [reflexivity|].
apply N.eqb_neq in Hc. now rewrite Hc, IH.
Qed.

Lemma split_lines_app (l r : list N) :
no_newline l -> split_lines (l ++ 10%N :: r) = l :: split_lines r.
Proof.
induction 1 as [|c l Hc _ IH]; cbn [app split_lines].
- reflexivity.
- apply N.eqb_neq in Hc. now rewrite Hc, IH.
Qed.

Lemma split_join_lines (ls : list (list N)) :
ls <> [] -> Forall no_newline ls -> split_lines (join_lines ls) = ls.
Proof.
intros Hne H. induction H as [|l ls Hl Hls IH]; [contradiction|].
destruct ls as [|l2 ls].
- cbn [join_lines]. now apply split_lines_no_newline.
- change (join_lines (l :: l2 :: ls)) with (l ++ 10%N :: join_lines (l2 :: ls)).
  rewrite split_lines_app by assumption. f_equal. apply IH. discriminate.
Qed.

Lemma blank_no_newline (m : list N) : forallb blank m = true -> no_newline m.
Proof.
intros H. apply Forall_forall. intros c Hc ->.
rewrite forallb_forall in H. specialize (H _ Hc). discriminate.
Qed.

Lemma clear_blank_text (m b : list N) :
text_line b -> clear_blank_line (m ++ b) = m ++ b.
Proof.
intros (c & b' & -> & Hc & _). unfold clear_blank_line.
rewrite forallb_app. cbn [forallb]. rewrite Hc.
now rewrite andb_false_r.
Qed.

Lemma line_indent_text (m b : list N) :
forallb blank m = true -> text_line b -> line_indent (m ++ b) = [m].
Proof.
intros Hm (c & b' & -> & Hc & _). unfold line_indent.
now rewrite (@span_prefix blank m c b' Hm Hc).
Qed.

Lemma startswith_app (m b : list N) : startswith (m ++ b) m = true.
Proof.
induction m as [|c m IH]; cbn [app startswith].
- now destruct b.
- now rewrite N.eqb_refl, IH.
Qed.

Lemma strip_margin_app (m b : list N) : strip_margin m (m ++ b) = b.
Proof.
unfold strip_margin. rewrite startswith_app.
now rewrite skipn_app, skipn_all, Nat.sub_diag.
Qed.

Lemma margin_of_equal_indents (m : list N) (n : nat) (start : option (list N)) :
start = None \/ start = Some m ->
fold_left margin_step (repeat m n) start
= match n with O => start | S _ => Some m end.
Proof.
revert start. induction n as [|n IH]; intros start Hs; cbn [repeat fold_left].
- reflexivity.
- rewrite IH.
  + destruct n; [|reflexivity].
    destruct Hs as [-> | ->]; cbn [margin_step]; [reflexivity|].
    replace (startswith m m) with true; [reflexivity|].
    symmetry. rewrite <- (app_nil_r m) at 1. apply startswith_app.
  + right. destruct Hs as [-> | ->]; cbn [margin_step]; [reflexivity|].
    replace (startswith m m) with true; [reflexivity|].
    symmetry. rewrite <- (app_nil_r m) at 1. apply startswith_app.
Qed.

(** [dedent] removes the indentation that all lines share. *)
Lemma dedent_common_margin (m : list N) (bodies : list (list N)) :
bodies <> [] -> forallb blank m = true -> Forall text_line bodies ->
dedent (join_lines (map (app m) bodies)) = join_lines bodies.
Proof.
intros Hne Hm Hb. unfold dedent.
rewrite split_join_lines.
2:{ destruct bodies; [contradiction | discriminate]. }
2:{ apply Forall_forall. intros l Hl. apply in_map_iff in Hl as (b & <- & Hbin).
    rewrite Forall_forall in Hb. destruct (Hb _ Hbin) as (c & b' & _ & _ & Hn).
    apply Forall_app. split; [now apply blank_no_newline | exact Hn]. }
assert (Hclear : map clear_blank_line (map (app m) bodies) = map (app m) bodies).
{ rewrite map_map. apply map_ext_in. intros b Hbin.
  rewrite Forall_forall in Hb. now apply clear_blank_text, Hb. }
rewrite Hclear.
assert (Hind : flat_map line_indent (map (app m) bodies)
               = repeat m (length bodies)).
{ clear Hne Hclear. induction Hb as [|b bodies Hbt _ IH]; [reflexivity|].
  cbn [map flat_map length repeat]. rewrite line_indent_text by assumption.
  rewrite IH.
  reflexivity. }
rewrite Hind, margin_of_equal_indents by (now left).
destruct (length bodies) as [|n] eqn:El.
{ destruct bodies; [contradiction | discriminate]. }
destruct m as [|c m'].
- f_equal. rewrite <- (map_id bodies) at 2. now apply map_ext.
- f_equal. rewrite map_map. rewrite <- (map_id bodies) at 2.
  apply map_ext. intros b. apply strip_margin_app.
Qed.
End DedentFacts.

Section MarginFacts.
Import Textwrap.



















End MarginFacts.

Section RowFacts.
Import Textwrap.







End RowFacts.


(* ===================================================================== *)
(** ** Facts about the scan of the fallback path *)
(* ===================================================================== *)

Section ScanClaims.
Context {db : UnicodeDB}.

Lemma redirection_not_separator (t : list N) :
In t _REDIRECTION_TOKENS -> str_in t _COMMAND_SEPARATORS = false.
Proof.
unfold _REDIRECTION_TOKENS. cbn [map In]. intros H.
repeat (destruct H as [<- | H]; [reflexivity|]). contradiction.
Qed.

Lemma marker_not_separator (t : list N) :
In t _NON_COMMAND_TOKENS ->
str_in t _COMMAND_SEPARATORS = false /\ str_in t _REDIRECTION_TOKENS = false.
Proof.
unfold _NON_COMMAND_TOKENS. cbn [map In]. intros H.
repeat (destruct H as [<- | H]; [split; reflexivity|]). contradiction.
Qed.

(** On the fallback path the result is the [scan] of the tokens. *)
Lemma fallback_scan (cmdline : list N) (tokens : list (list N)) :
Shlex.to_list fallback_config (Shlex.init_lexer cmdline) = Ok tokens ->
_extract_executables_without_bashlex cmdline = Ok (scan tokens [] []).
Proof.
intros H. unfold _extract_executables_without_bashlex. rewrite H.
apply scan_tokens_spec.
Qed.

Lemma scan_drop_redirection (pre : list (list N)) (t x : list N)
  (post words out : list (list N)) :
Forall (fun p => ~ In p _REDIRECTION_TOKENS) pre ->
In t _REDIRECTION_TOKENS ->
scan (pre ++ t :: x :: post) words out = scan (pre ++ post) words out.
Proof.
intros Hpre Ht. revert words out.
induction Hpre as [|p pre Hp _ IH]; intros words out; cbn [app scan].
- rewrite (redirection_not_separator Ht).
  now rewrite (proj2 (str_in_In t _REDIRECTION_TOKENS) Ht).
- rewrite (not_In_str_in _ _ Hp).
  destruct (str_in p _COMMAND_SEPARATORS); [apply IH|].
  destruct (str_in p _NON_COMMAND_TOKENS); apply IH.
Qed.

Lemma scan_drop_marker (pre : list (list N)) (m : list N)
  (post words out : list (list N)) :
Forall (fun p => ~ In p _REDIRECTION_TOKENS) pre ->
In m _NON_COMMAND_TOKENS ->
scan (pre ++ m :: post) words out = scan (pre ++ post) words out.
Proof.
intros Hpre Hm. revert words out.
induction Hpre as [|p pre Hp _ IH]; intros words out; cbn [app scan].
- destruct (marker_not_separator Hm) as [-> ->].
  now rewrite (proj2 (str_in_In m _NON_COMMAND_TOKENS) Hm).
- rewrite (not_In_str_in _ _ Hp).
  destruct (str_in p _COMMAND_SEPARATORS); [apply IH|].
  destruct (str_in p _NON_COMMAND_TOKENS); apply IH.
Qed.
End ScanClaims.


(* ===================================================================== *)
(** ** A quote that is never closed makes the lexer raise *)
(* ===================================================================== *)

Module QuoteFacts.
Import Shlex ShlexInv QuoteInv.

Section Doomed.
Variable cfg : config.
Hypothesis Hcfg : fallback_like cfg.
Variable q : N.
Variable body : list N.
Hypothesis Hq : q = 39%N \/ q = 34%N.
Hypothesis Hbody : Forall (inside q) body.

Lemma next_char_remaining (l : lexer) :
  match remaining l with
  | [] => next_char cfg l = (None, l)
  | c :: r =>
      exists l',
        next_char cfg l = (Some c, l') /\ remaining l' = r
        /\ state l' = state l /\ token l' = token l
        /\ pushback l' = pushback l
  end.
Proof.
  destruct Hcfg as (_ & _ & _ & _ & _ & Hp & _).
  unfold next_char, remaining. rewrite Hp. cbn [py list_ascii_of_string map].
  destruct (rev (_pushback_chars l)) as [|c before] eqn:E; cbn [app].
  - destruct (instream l) as [|c rest] eqn:Ei; [reflexivity|].
    exists (set_instream l rest). cbn. now rewrite E.
  - exists (set_pushback_chars l (rev before)). cbn.
    now rewrite rev_involutive.
Qed.

Lemma remaining_push (l : lexer) (c : N) :
  remaining (set_pushback_chars l (_pushback_chars l ++ [c])) = c :: remaining l.
Proof. unfold remaining. cbn. now rewrite rev_app_distr. Qed.

Ltac q_split_ifs :=
  repeat match goal with
    | |- context [if ?b then _ else _] => destruct b eqn:?
    end.

Ltac q_record_simpl :=
  cbn [self quoted escapedstate upd set_quoted set_escapedstate set_state
       set_token set_instream set_pushback_chars set_pushback instream
       _pushback_chars pushback state token].

Ltac q_eval_tests :=
  repeat match goal with
    | |- context [chr_in ?a ?l] =>
        let v := eval vm_compute in (chr_in a l) in
        lazymatch v with
        | true => change (chr_in a l) with true
        | false => change (chr_in a l) with false
        end
    | |- context [N.eqb ?a ?b] =>
        let v := eval vm_compute in (N.eqb a b) in
        lazymatch v with
        | true => change (N.eqb a b) with true
        | false => change (N.eqb a b) with false
        end
    end;
  cbn [orb andb negb].

Lemma plain_tests (c : N) :
  plain c -> chr_in c [39; 34]%N = false /\ chr_in c [92%N] = false.
Proof.
  intros (H1 & H2 & H3). unfold chr_in. cbn [existsb].
  apply N.eqb_neq in H1, H2, H3. now rewrite H1, H2, H3.
Qed.

Lemma nonempty_snoc (t : list N) (c : N) : t ++ [c] <> [].
Proof. intros H. apply app_eq_nil in H as [_ H]. discriminate. Qed.

Lemma quote_tests (wc : list N) :
  chr_in 39 wc = false -> chr_in 34 wc = false ->
  (q =? 32)%N = false /\ chr_in q [32; 9; 13; 10]%N = false
  /\ chr_in q [39; 34]%N = true /\ chr_in q [92%N] = false
  /\ chr_in q (py "|&;()<>") = false /\ chr_in q wc = false.
Proof.
  intros H1 H2. destruct Hq as [E | E]; rewrite E; repeat split;
    try reflexivity; assumption.
Qed.

Ltac solve_token Htok Ht' :=
  first
    [ right; assumption
    | right; reflexivity
    | right; congruence
    | left; apply nonempty_snoc
    | left; congruence
    | left; discriminate
    | rewrite Ht'; apply Htok; auto
    | exfalso; destruct Htok as [Htok | Htok]; [auto | congruence | congruence] ].

Lemma doomed_step (f : frame) :
  in_quote q f \/ before_quote q body f -> doomed_post q body (read_token_body cfg f).
Proof.
  destruct Hcfg as (Hw & Hc & Hqs & He & Heq & Hp & Hws & Hw39 & Hw34).
  pose proof Hp as Hp'. cbn in Hp'.
  destruct (@quote_tests (wordchars cfg) Hw39 Hw34) as (Q32 & Qws & Qq & Qe & Qp & Qwc).
  intros Hf. unfold read_token_body.
  pose proof (next_char_remaining (self f)) as Hn.
  destruct Hf as [(Hst & Hrem & Hpb) | (Hst & Htok & Hpb & rest & Hrest & Hrem)].
  - (* inside the quotation *)
    destruct (remaining (self f)) as [|c r] eqn:Er.
    + rewrite Hn. cbn [upd self]. rewrite Hst, Hqs, Q32, Qq. exact I.
    + destruct Hn as (l' & -> & Hr' & Hs' & Ht' & Hpb').
      cbn [upd self quoted escapedstate]. rewrite Hs', Hst, Hqs, He, Heq.
      apply Forall_cons_iff in Hrem as [[Hcq Hc92] Hrem].
      apply N.eqb_neq in Hcq. rewrite Hcq, Q32, Qq.
      assert (Hesc : chr_in c [92%N] && chr_in q [34%N] = false).
      { destruct Hq as [E | E]; [rewrite E; apply andb_false_r|].
        specialize (Hc92 E). apply N.eqb_neq in Hc92.
        unfold chr_in at 1. cbn [existsb]. now rewrite Hc92. }
      rewrite Hesc. cbn [doomed_post]. left. unfold in_quote, remaining in *.
      q_record_simpl. rewrite Hr'. repeat split; congruence.
  - (* before the quote *)
    rewrite Hrem in Hn. destruct rest as [|c rest'].
    + (* the quote is read *)
      cbn [app] in Hn. destruct Hn as (l' & -> & Hr' & Hs' & Ht' & Hpb').
      cbn [upd self quoted escapedstate]. rewrite Hs'.
      assert (Hinq : forall f', state (self f') = Some q ->
                remaining (self f') = body -> pushback (self f') = [] ->
                in_quote q f').
      { intros f' H1 H2 H3. unfold in_quote. rewrite H2. auto. }
      destruct Hst as [Hs | [Hs | Hs]]; rewrite Hs;
        rewrite ?Hw, ?Hc, ?Hqs, ?He, ?Heq, ?Hws;
        q_eval_tests; cbv iota;
        rewrite ?Hp, ?Qws, ?Qq, ?Qe, ?Qp, ?Qwc; rewrite ?Hp';
        cbn [orb andb negb chr_in existsb];
        cbn [doomed_post];
        try (left; apply Hinq; unfold remaining in *; q_record_simpl;
             congruence).
      unfold token_out, remaining in *; q_record_simpl.
      rewrite rev_app_distr. cbn [rev app]. rewrite Hr', Ht'.
      split; [reflexivity|]. split; [apply Htok; auto|].
      split; [congruence|]. exists []. split; [constructor | reflexivity].
    + (* a plain character is read *)
      cbn [app] in Hn. destruct Hn as (l' & -> & Hr' & Hs' & Ht' & Hpb').
      cbn [upd self quoted escapedstate]. rewrite Hs'.
      apply Forall_cons_iff in Hrest as [Hplain Hrest'].
      destruct (plain_tests Hplain) as [Hcq Hce].
      assert (Hbq : forall f' st,
                state (self f') = Some st ->
                st = 32%N \/ (st = 97%N \/ st = 99%N)
                              /\ (token (self f') <> [] \/ quoted f' = true) ->
                pushback (self f') = [] ->
                remaining (self f') = rest' ++ q :: body ->
                before_quote q body f').
      { intros f' st H1 H2 H3 H4. unfold before_quote. rewrite H1.
        split; [destruct H2 as [-> | [[-> | ->] _]]; auto|].
        split.
        { intros Hx. destruct H2 as [-> | [_ H2]]; [|exact H2].
          destruct Hx; discriminate. }
        split; [exact H3|]. exists rest'. auto. }
      assert (Hout : forall f',
                state (self f') = Some 32%N ->
                token (self f') <> [] \/ quoted f' = true ->
                pushback (self f') = [] ->
                (remaining (self f') = rest' ++ q :: body
                 \/ remaining (self f') = (c :: rest') ++ q :: body) ->
                token_out q body f').
      { intros f' H1 H2 H3 H4. unfold token_out.
        split; [exact H1|]. split; [exact H2|]. split; [exact H3|].
        destruct H4 as [H4 | H4].
        - exists rest'. auto.
        - exists (c :: rest'). split; [constructor; assumption | exact H4]. }
      destruct Hst as [Hs | [Hs | Hs]]; rewrite Hs;
        rewrite ?Hw, ?Hc, ?Hqs, ?He, ?Heq, ?Hp', ?Hws, ?Hcq, ?Hce;
        q_eval_tests; cbv iota; rewrite ?Hcq, ?Hce; cbn [orb andb negb];
        q_split_ifs; unfold emit; q_record_simpl;
        repeat match goal with
          | |- context [match token ?l with _ => _ end] =>
              let E := fresh "Etok" in destruct (token l) eqn:E
          | |- context [if quoted ?f then _ else _] =>
              let E := fresh "Equo" in destruct (quoted f) eqn:E
          end;
        cbn [doomed_post].
      all: first
        [ exfalso; destruct Htok as [Htok | Htok]; [now auto | congruence | congruence]
        | right; eapply Hbq; unfold remaining in *; q_record_simpl;
          [ first [reflexivity | rewrite Hs', Hs; reflexivity]
          | first [ now left
                  | right; split; [auto|]; solve_token Htok Ht' ]
          | congruence
          | congruence ]
        | eapply Hout; unfold remaining in *; q_record_simpl;
          rewrite ?rev_app_distr; cbn [rev app];
          [ first [reflexivity | congruence]
          | solve_token Htok Ht'
          | congruence
          | first [ left; congruence | right; congruence ] ] ].
Qed.

Lemma doomed_loop :
  forall fuel f,
    in_quote q f \/ before_quote q body f ->
    match while_ fuel (fun _ => Ok true) (read_token_body cfg) f with
    | Ok (inl f') => token_out q body f'
    | Ok (inr e) => False
    | Raise e => True
    | Diverge => True
    end.
Proof.
  induction fuel as [|fuel IH]; intros f Hf; [exact I|].
  cbn [while_ bind]. pose proof (doomed_step Hf) as Hstep.
  destruct (read_token_body cfg f) as [[f' | f' | []] | e |];
    cbn [doomed_post bind] in *.
  - now apply IH.
  - exact Hstep.
  - exact I.
  - exact I.
Qed.

Lemma doomed_read_token (l : lexer) :
  waiting q body l ->
  match read_token cfg l with
  | Ok (Some t, l') => waiting q body l'
  | Ok (None, l') => False
  | Raise e => True
  | Diverge => True
  end.
Proof.
  intros (Hst & Htok & Hpb & Hrem). unfold read_token.
  set (f0 := {| self := l; quoted := false; escapedstate := 32%N |}).
  assert (Hf0 : in_quote q f0 \/ before_quote q body f0).
  { right. unfold before_quote, f0. cbn [self quoted].
    split; [now left|]. split; [|split; assumption].
    intros [H | H]; congruence. }
  pose proof (doomed_loop (read_fuel l) Hf0) as Hloop.
  destruct (while_ (read_fuel l) (fun _ => Ok true) (read_token_body cfg) f0)
    as [[f' | []] | e |]; cbn [bind]; auto.
  destruct Hloop as (Hs' & Ht' & Hpb' & Hrem').
  assert (Hw : waiting q body (set_token (self f') [])).
  { unfold waiting, remaining in *. cbn. auto. }
  destruct (token (self f')) as [|c t].
  - destruct Ht' as [Ht' | Ht']; [contradiction|]. now rewrite Ht'.
  - exact Hw.
Qed.

Lemma doomed_to_list :
  forall fuel l (acc : list (list N)) s,
    waiting q body l ->
    while_ fuel (fun _ => Ok true) (to_list_body cfg) (l, acc) <> Ok s.
Proof.
  induction fuel as [|fuel IH]; intros l acc s Hl; [discriminate|].
  cbn [while_ bind]. unfold to_list_body at 1. cbn [fst snd].
  unfold get_token. pose proof Hl as (_ & _ & Hpb & _). rewrite Hpb.
  pose proof (doomed_read_token Hl) as Hr.
  destruct (read_token cfg l) as [[[t|] l'] | e |]; cbn [bind];
    try discriminate; [|contradiction].
  now apply IH.
Qed.
End Doomed.

Lemma fallback_config_like : fallback_like fallback_config.
Proof. unfold fallback_like. repeat split; reflexivity. Qed.

(** A quote that is never closed makes the lexer raise [ValueError]. *)
Lemma unterminated_raises (s : list N) :
  unterminated s ->
  to_list fallback_config (init_lexer s) = Raise ValueError.
Proof.
  intros (pre & q & body & -> & Hq & Hpre & Hbody).
  destruct (ShlexFacts.to_list_total ShlexFacts.fallback_config_standard
              (pre ++ q :: body)) as [H | (tokens & H)]; [exact H|].
  exfalso. unfold to_list in H.
  destruct (while_ _ _ _ _) as [[st | []] | e |] eqn:E; try discriminate.
  revert E.
  apply (@doomed_to_list fallback_config fallback_config_like q body Hq Hbody).
  unfold waiting, remaining, init_lexer. cbn.
  repeat split. exists pre. split; [exact Hpre | reflexivity].
Qed.
End QuoteFacts.


(* ===================================================================== *)
(** ** Further facts about the rules, the scan and the trees *)
(* ===================================================================== *)

Section MoreRules.
Context {db : UnicodeDB}.

Lemma command_rule_first (opts : list (list N)) (a : list N)
  (rest : list (list N)) :
Forall (fun o => is_option o = true) opts -> is_option a = false ->
command_rule (opts ++ a :: rest) = Some a.
Proof.
intros Ho Ha. induction Ho as [|o opts Hopt _ IH]; cbn [app command_rule].
- now rewrite Ha.
- now rewrite Hopt.
Qed.

Lemma command_rule_options (opts : list (list N)) :
Forall (fun o => is_option o = true) opts -> command_rule opts = None.
Proof.
induction 1 as [|o opts Hopt _ IH]; cbn [command_rule]; [reflexivity|].
now rewrite Hopt.
Qed.

Lemma other_rule_first (opts : list (list N)) (a : list N)
  (rest : list (list N)) :
Forall (fun o => is_option o = true /\ o <> py "--") opts ->
is_option a = false ->
other_rule (opts ++ a :: rest) = Some a.
Proof.
intros Ho Ha. induction Ho as [|o opts [Hopt Hd] _ IH]; cbn [app other_rule].
- destruct (str_eqb a (py "--")) eqn:E.
  + apply str_eqb_eq in E. subst a. discriminate.
  + now rewrite Ha.
- apply str_eqb_neq in Hd. now rewrite Hd, Hopt.
Qed.

Lemma other_rule_dashes (opts rest : list (list N)) :
Forall (fun o => is_option o = true /\ o <> py "--") opts ->
other_rule (opts ++ py "--" :: rest) = hd_error rest.
Proof.
induction 1 as [|o opts [Hopt Hd] _ IH]; cbn [app other_rule].
- reflexivity.
- apply str_eqb_neq in Hd. now rewrite Hd, Hopt.
Qed.

Lemma wrapper_rule_command (wrapper : list N) (args : list (list N)) :
In wrapper command_wrappers -> wrapper_rule wrapper args = command_rule args.
Proof.
unfold command_wrappers. cbn [map In].
intros [<- | [<- | []]]; reflexivity.
Qed.

Lemma wrapper_rule_other (wrapper : list N) (args : list (list N)) :
In wrapper other_wrappers -> wrapper_rule wrapper args = other_rule args.
Proof.
unfold other_wrappers. cbn [map In]. intros H.
repeat (destruct H as [<- | H]; [reflexivity|]). contradiction.
Qed.

Lemma wrapper_rule_outside (wrapper : list N) (args : list (list N)) :
~ In wrapper _WRAPPERS -> wrapper_rule wrapper args = None.
Proof.
intros H. unfold wrapper_rule.
destruct (str_eqb wrapper (py "env")) eqn:E1.
{ apply str_eqb_eq in E1. subst. exfalso. apply H. cbn. tauto. }
destruct (str_eqb wrapper (py "sudo")) eqn:E2.
{ apply str_eqb_eq in E2. subst. exfalso. apply H. cbn. tauto. }
destruct (str_in wrapper (map py ["command"; "builtin"]%string)) eqn:E3.
{ apply str_in_In in E3. exfalso. apply H. cbn [map In] in E3.
  destruct E3 as [<- | [<- | []]]; cbn; tauto. }
now rewrite (not_In_str_in _ _ H).
Qed.

(** The scan with words already accumulated and names already found. *)
Lemma scan_ordinary (pre : list (list N)) :
Forall ordinary pre ->
forall rest words out,
  scan (pre ++ rest) words out = scan rest (words ++ pre) out.
Proof.
induction 1 as [|t pre (Hs & Hr & Hm) _ IH]; intros rest words out;
  cbn [app scan].
- now rewrite app_nil_r.
- rewrite (not_In_str_in _ _ Hs), (not_In_str_in _ _ Hr),
    (not_In_str_in _ _ Hm).
  rewrite IH. now rewrite <- app_assoc.
Qed.

Lemma scan_out_app_le (n : nat) :
forall tokens words out,
  length tokens <= n ->
  scan tokens words out = out ++ scan tokens words [].
Proof.
induction n as [|n IH]; intros tokens words out Hn;
  destruct tokens as [|t rest]; cbn [scan]; try reflexivity.
{ cbn in Hn. lia. }
cbn [length] in Hn.
destruct (str_in t _COMMAND_SEPARATORS).
{ rewrite (IH rest) by lia. symmetry.
  rewrite (IH rest) by lia. cbn [app]. now rewrite app_assoc. }
destruct (str_in t _REDIRECTION_TOKENS).
{ destruct rest as [|x rest']; [reflexivity|].
  apply IH. cbn [length] in Hn. lia. }
destruct (str_in t _NON_COMMAND_TOKENS); apply IH; lia.
Qed.

Lemma scan_out_app (tokens words out : list (list N)) :
scan tokens words out = out ++ scan tokens words [].
Proof. now apply scan_out_app_le with (n := length tokens). Qed.

Lemma scan_separator (pre post : list (list N)) (sep : list N)
  (out : list (list N)) :
Forall ordinary pre -> In sep _COMMAND_SEPARATORS ->
scan (pre ++ sep :: post) [] out = out ++ resolve pre ++ scan post [] [].
Proof.
intros Hpre Hsep. rewrite (scan_ordinary Hpre). cbn [app scan].
rewrite (proj2 (str_in_In sep _COMMAND_SEPARATORS) Hsep).
rewrite scan_out_app. now rewrite <- app_assoc.
Qed.

(** Subsequences. *)
Lemma subseq_refl {A} (l : list A) : subseq l l.
Proof. induction l; constructor; assumption. Qed.

Lemma subseq_nil_l {A} (l : list A) : subseq [] l.
Proof. induction l; constructor; assumption. Qed.

Lemma subseq_app {A} (a b c d : list A) :
subseq a b -> subseq c d -> subseq (a ++ c) (b ++ d).
Proof.
induction 1 as [|x a b Hab IH|x a b Hab IH]; intros Hcd; cbn [app].
- exact Hcd.
- constructor. auto.
- constructor. auto.
Qed.

Lemma subseq_trans {A} (b c : list A) :
subseq b c -> forall a, subseq a b -> subseq a c.
Proof.
induction 1 as [|x b c Hbc IH|x b c Hbc IH]; intros a Hab.
- exact Hab.
- inversion Hab; subst; constructor; auto.
- constructor. auto.
Qed.

Lemma subseq_In {A} (a b : list A) (x : A) : subseq a b -> In x a -> In x b.
Proof.
induction 1 as [|y a b H IH|y a b H IH]; cbn [In]; intros Hx.
- exact Hx.
- destruct Hx as [-> | Hx]; [now left | right; auto].
- right. auto.
Qed.

Lemma subseq_option {A} (o : option A) (l : list A) :
(forall a, o = Some a -> In a l) -> subseq (option_list o) l.
Proof.
destruct o as [a|]; cbn [option_list]; intros H; [|apply subseq_nil_l].
specialize (H a eq_refl). induction l as [|x l IH]; [contradiction|].
destruct H as [-> | H].
- constructor. apply subseq_nil_l.
- apply subseq_skip. now apply IH.
Qed.

Lemma hd_error_In {A} (l : list A) (a : A) : hd_error l = Some a -> In a l.
Proof. destruct l; cbn; [discriminate|]. intros [= ->]. now left. Qed.

Lemma after_assignments_In (args : list (list N)) (a : list N) :
after_assignments args = Some a -> In a args.
Proof.
induction args as [|x args IH]; cbn [after_assignments In]; [discriminate|].
destruct (_looks_like_assignment_word x).
- intros H. right. auto.
- intros [= ->]. now left.
Qed.

Lemma sudo_rule_In (n : nat) :
forall args a, length args <= n -> sudo_rule args = Some a -> In a args.
Proof.
induction n as [|n IH]; intros args a Hn; destruct args as [|x args];
  cbn [sudo_rule In]; try discriminate.
{ cbn in Hn. lia. }
cbn [length] in Hn.
destruct (str_eqb x (py "--")).
{ intros H. right. now apply hd_error_In. }
destruct (is_option x); [|intros [= ->]; now left].
destruct (str_in x sudo_arg_options).
- destruct args as [|y args]; [discriminate|]. intros H. right. right.
  apply IH; [cbn [length] in Hn; lia | exact H].
- intros H. right. apply IH; [lia | exact H].
Qed.

Lemma env_rule_In (n : nat) :
forall args a, length args <= n -> env_rule args = Some a -> In a args.
Proof.
induction n as [|n IH]; intros args a Hn; destruct args as [|x args];
  cbn [env_rule In]; try discriminate.
{ cbn in Hn. lia. }
cbn [length] in Hn.
destruct (str_eqb x (py "--")).
{ intros H. right. now apply after_assignments_In. }
destruct (is_option x).
{ destruct (str_in x env_arg_options).
  - destruct args as [|y args]; [discriminate|]. intros H. right. right.
    apply IH; [cbn [length] in Hn; lia | exact H].
  - intros H. right. apply IH; [lia | exact H]. }
destruct (_looks_like_assignment_word x); [|intros [= ->]; now left].
intros H. right. apply IH; [lia | exact H].
Qed.

Lemma command_rule_In (args : list (list N)) (a : list N) :
command_rule args = Some a -> In a args.
Proof.
induction args as [|x args IH]; cbn [command_rule In]; [discriminate|].
destruct (is_option x); [intros H; right; auto | intros [= ->]; now left].
Qed.

Lemma other_rule_In (args : list (list N)) (a : list N) :
other_rule args = Some a -> In a args.
Proof.
induction args as [|x args IH]; cbn [other_rule In]; [discriminate|].
destruct (str_eqb x (py "--")).
{ intros H. right. now apply hd_error_In. }
destruct (is_option x); [intros H; right; auto | intros [= ->]; now left].
Qed.

Lemma wrapper_rule_In (wrapper : list N) (args : list (list N)) (a : list N) :
wrapper_rule wrapper args = Some a -> In a args.
Proof.
unfold wrapper_rule.
destruct (str_eqb wrapper (py "env")).
{ now apply env_rule_In with (n := length args). }
destruct (str_eqb wrapper (py "sudo")).
{ now apply sudo_rule_In with (n := length args). }
destruct (str_in wrapper (map py ["command"; "builtin"]%string)).
{ apply command_rule_In. }
destruct (str_in wrapper _WRAPPERS); [apply other_rule_In | discriminate].
Qed.

Lemma resolve_subseq (words : list (list N)) : subseq (resolve words) words.
Proof.
induction words as [|w words IH]; cbn [resolve]; [constructor|].
destruct (_looks_like_assignment_word w); [now constructor|].
constructor. destruct (str_in w _WRAPPERS); [|apply subseq_nil_l].
apply subseq_option. intros a. apply wrapper_rule_In.
Qed.

Lemma scan_subseq_le (n : nat) :
forall tokens words,
  length tokens <= n -> subseq (scan tokens words []) (words ++ tokens).
Proof.
induction n as [|n IH]; intros tokens words Hn;
  destruct tokens as [|t rest]; cbn [scan app];
  try (rewrite app_nil_r; apply resolve_subseq).
{ cbn in Hn. lia. }
cbn [length] in Hn.
destruct (str_in t _COMMAND_SEPARATORS).
{ rewrite scan_out_app. cbn [app]. apply subseq_app; [apply resolve_subseq|].
  apply subseq_skip. apply (IH rest []). lia. }
destruct (str_in t _REDIRECTION_TOKENS).
{ destruct rest as [|x rest'].
  - cbn [app]. rewrite <- (app_nil_r (resolve words)).
    apply subseq_app; [apply resolve_subseq|].
    apply subseq_skip. constructor.
  - apply subseq_trans with (b := words ++ rest').
    + apply subseq_app; [apply subseq_refl|].
      apply subseq_skip, subseq_skip, subseq_refl.
    + apply IH. cbn [length] in Hn. lia. }
destruct (str_in t _NON_COMMAND_TOKENS).
{ apply subseq_trans with (b := words ++ rest).
  - apply subseq_app; [apply subseq_refl|]. apply subseq_skip, subseq_refl.
  - apply IH. lia. }
replace (words ++ t :: rest) with ((words ++ [t]) ++ rest)
  by now rewrite <- app_assoc.
apply IH. lia.
Qed.

Lemma scan_subseq (tokens : list (list N)) :
subseq (scan tokens [] []) tokens.
Proof. now apply (@scan_subseq_le (length tokens) tokens []). Qed.
End MoreRules.

Module BlankFacts.
Import Shlex.

Lemma blank_step (c : N) (s : list N) :
In c [32; 9; 13; 10]%N ->
read_token_body fallback_config (blank_frame (c :: s) (Some 32%N))
= Ok (Next (blank_frame s (Some 32%N))).
Proof.
cbn [In]. intros [<- | [<- | [<- | [<- | []]]]]; reflexivity.
Qed.

Lemma blank_loop (s : list N) :
Forall (fun c => In c [32; 9; 13; 10]%N) s ->
forall fuel,
  length s < fuel ->
  while_ fuel (fun _ => Ok true) (read_token_body fallback_config)
    (blank_frame s (Some 32%N))
  = Ok (inl (blank_frame [] None)).
Proof.
induction 1 as [|c s Hc _ IH]; intros fuel Hf;
  (destruct fuel as [|fuel]; [cbn [length] in Hf; lia|]);
  cbn [while_ bind].
- reflexivity.
- rewrite (blank_step s Hc). cbn [bind]. apply IH. cbn [length] in Hf. lia.
Qed.

Lemma blank_tokens (s : list N) :
Forall (fun c => In c [32; 9; 13; 10]%N) s ->
to_list fallback_config (init_lexer s) = Ok [].
Proof.
intros Hs. unfold to_list.
cbn [init_lexer instream _pushback_chars pushback length].
rewrite !Nat.add_0_r.
replace (2 * length s + 2) with (S (2 * length s + 1)) by lia.
cbn [while_ bind]. unfold to_list_body at 1. cbn [fst snd].
unfold get_token. cbn [pushback init_lexer].
unfold read_token.
change {| self := init_lexer s; quoted := false; escapedstate := 32%N |}
  with (blank_frame s (Some 32%N)).
rewrite (blank_loop Hs) by (unfold read_fuel; cbn; lia).
reflexivity.
Qed.
End BlankFacts.

Section PlainCommands.
Context {db : UnicodeDB}.

Lemma walk_word_leaf (fuel : nat) (w : list N) (s e : Z) (out : list (list N)) :
_walk (S fuel) (Bashlex.leaf "word" w s e) out = Ok out.
Proof. reflexivity. Qed.

Lemma walk_word_parts (parts : list pyval) (ws : list (list N)) :
word_parts parts ws ->
forall fuel out, for_each parts out (_walk (S fuel)) = Ok out.
Proof.
induction 1 as [|p w parts ws (s & e & ->) _ IH]; intros fuel out;
  cbn [for_each]; [reflexivity|].
rewrite walk_word_leaf. cbn [bind]. apply IH.
Qed.

Lemma word_parts_children (parts : list pyval) (ws : list (list N)) :
word_parts parts ws -> filter _is_ast_node parts = parts.
Proof.
induction 1 as [|p w parts ws (s & e & ->) _ IH]; [reflexivity|].
cbn [filter]. change (_is_ast_node (Bashlex.leaf "word" w s e)) with true.
now rewrite IH.
Qed.

Lemma word_parts_words (parts : list pyval) (ws : list (list N)) :
word_parts parts ws ->
forall acc,
  fold_left
    (fun words p =>
       if is_str (getattr p "kind") "word" then
         match _word_text p with
         | Some w => words ++ [w]
         | None => words
         end
       else words)
    parts acc = acc ++ ws.
Proof.
induction 1 as [|p w parts ws (s & e & ->) _ IH]; intros acc; cbn [fold_left].
- now rewrite app_nil_r.
- change (is_str (getattr (Bashlex.leaf "word" w s e) "kind") "word") with true.
  change (_word_text (Bashlex.leaf "word" w s e)) with (Some w).
  cbn iota. rewrite IH. now rewrite <- app_assoc.
Qed.

Lemma walk_plain_command_fuel (k : nat) (parts : list pyval)
  (ws : list (list N)) (s e : Z) (out : list (list N)) :
word_parts parts ws ->
_walk (S (S k)) (Bashlex.command parts s e) out = Ok (out ++ resolve ws).
Proof.
intros H.
cbn [_walk]. change (Bashlex.command parts s e)
  with (PyObj [(py "kind", PyStr (py "command"));
               (py "parts", PyList parts);
               (py "pos", Bashlex.pos s e)]).
cbv beta iota.
change (is_str (getattr (PyObj [(py "kind", PyStr (py "command"));
               (py "parts", PyList parts);
               (py "pos", Bashlex.pos s e)]) "kind") "command") with true.
cbv iota. unfold _handle_command_node.
change (getattr (PyObj [(py "kind", PyStr (py "command"));
               (py "parts", PyList parts);
               (py "pos", Bashlex.pos s e)]) "parts") with (PyList parts).
cbv iota zeta. rewrite (word_parts_words H). cbn [app].
rewrite append_command_words_spec. cbn [bind].
change (_iter_children (PyObj [(py "kind", PyStr (py "command"));
               (py "parts", PyList parts);
               (py "pos", Bashlex.pos s e)]))
  with (filter _is_ast_node parts ++ []).
rewrite app_nil_r, (word_parts_children H).
apply (walk_word_parts H).
Qed.

Lemma walk_plain_command (parts : list pyval) (ws : list (list N)) (s e : Z)
  (out : list (list N)) :
word_parts parts ws ->
_walk (S (depth (Bashlex.command parts s e))) (Bashlex.command parts s e) out
= Ok (out ++ resolve ws).
Proof.
intros H.
assert (Hd : exists k, depth (Bashlex.command parts s e) = S k)
  by (eexists; reflexivity).
destruct Hd as (k & ->). now apply walk_plain_command_fuel.
Qed.
End PlainCommands.

Section QuoteFree.
Context {db : UnicodeDB}.

Lemma span_suffix (p : N -> bool) (s a b : list N) :
span p s = (a, b) -> exists pre, s = pre ++ b.
Proof.
revert a b. induction s as [|c s IH]; intros a b; cbn [span].
- intros [= <- <-]. now exists [].
- destruct (p c).
  + destruct (span p s) as [a' b'] eqn:E. intros [= <- <-].
    destruct (IH _ _ eq_refl) as (pre & ->). now exists (c :: pre).
  + intros [= <- <-]. now exists [].
Qed.

Lemma quote_free_app_r (a b : list N) : quote_free (a ++ b) -> quote_free b.
Proof. unfold quote_free. rewrite Forall_app. tauto. Qed.

Lemma match_heredoc_quote_free (s : list N) :
quote_free s -> match_heredoc s = None.
Proof.
intros H. unfold match_heredoc.
destruct s as [|a [|b s1]]; try reflexivity.
destruct ((a =? 60)%N && (b =? 60)%N); [|reflexivity].
assert (H1 : quote_free s1).
{ apply (@quote_free_app_r [a; b]). exact H. }
set (d := match s1 with
          | c :: r => if (c =? 45)%N then ([c], r) else ([], s1)
          | [] => ([], s1)
          end).
assert (H2 : quote_free (snd d)).
{ subst d. destruct s1 as [|c r]; [exact H1|].
  destruct (c =? 45)%N; [|exact H1].
  apply (@quote_free_app_r [c]). exact H1. }
destruct d as [dash s2]. cbn [snd] in H2.
destruct (span isspace s2) as [ws s3] eqn:E.
destruct (span_suffix _ _ E) as (pre & ->).
apply quote_free_app_r in H2.
destruct s3 as [|q [|c0 s4]]; try reflexivity.
inversion H2 as [|? ? [Hq1 Hq2] _]; subst.
apply N.eqb_neq in Hq1, Hq2. now rewrite Hq1, Hq2.
Qed.

Lemma sub_heredoc_quote_free (fuel : nat) (s : list N) :
quote_free s -> sub_heredoc fuel s = s.
Proof.
revert s. induction fuel as [|fuel IH]; intros s H; cbn [sub_heredoc];
  [reflexivity|].
rewrite (match_heredoc_quote_free H).
destruct s as [|c s]; [reflexivity|].
f_equal. apply IH. apply (@quote_free_app_r [c]). exact H.
Qed.
End QuoteFree.

Section Pipelines.
Context {db : UnicodeDB}.

Lemma walk_pipe (k : nat) (s e : Z) (out : list (list N)) :
_walk (S k) (Bashlex.pipe s e) out = Ok out.
Proof. reflexivity. Qed.

Lemma pipeline_parts_children (nodes : list pyval) (wss : list (list (list N))) :
pipeline_parts nodes wss -> filter _is_ast_node nodes = nodes.
Proof.
induction 1 as [parts ws s e Hw | parts ws s e s' e' nodes wss Hw _ IH];
  cbn [filter].
- reflexivity.
- change (_is_ast_node (Bashlex.command parts s e)) with true.
  change (_is_ast_node (Bashlex.pipe s' e')) with true.
  cbv iota. now rewrite IH.
Qed.

Lemma walk_pipeline_parts (nodes : list pyval) (wss : list (list (list N))) :
pipeline_parts nodes wss ->
forall k out,
  for_each nodes out (_walk (S (S k))) = Ok (out ++ flat_map resolve wss).
Proof.
induction 1 as [parts ws s e Hw | parts ws s e s' e' nodes wss Hw _ IH];
  intros k out; cbn [for_each flat_map].
- rewrite (walk_plain_command_fuel k s e out Hw). cbn [bind].
  now rewrite app_nil_r.
- rewrite (walk_plain_command_fuel k s e out Hw). cbn [bind].
  rewrite walk_pipe. cbn [bind]. rewrite IH. now rewrite <- app_assoc.
Qed.

Lemma pipeline_parts_nonempty (nodes : list pyval) (wss : list (list (list N))) :
pipeline_parts nodes wss ->
exists parts s e rest, nodes = Bashlex.command parts s e :: rest.
Proof. destruct 1; repeat eexists. Qed.

Lemma walk_pipeline (k : nat) (nodes : list pyval)
  (wss : list (list (list N))) (s e : Z) (out : list (list N)) :
pipeline_parts nodes wss ->
_walk (S (S (S k))) (Bashlex.pipeline nodes s e) out
= Ok (out ++ flat_map resolve wss).
Proof.
intros H.
cbn [_walk]. change (Bashlex.pipeline nodes s e)
  with (PyObj [(py "kind", PyStr (py "pipeline"));
               (py "parts", PyList nodes);
               (py "pos", Bashlex.pos s e)]).
cbv beta iota.
change (is_str (getattr (PyObj [(py "kind", PyStr (py "pipeline"));
               (py "parts", PyList nodes);
               (py "pos", Bashlex.pos s e)]) "kind") "command") with false.
cbv iota. cbn [bind].
change (_iter_children (PyObj [(py "kind", PyStr (py "pipeline"));
               (py "parts", PyList nodes);
               (py "pos", Bashlex.pos s e)]))
  with (filter _is_ast_node nodes ++ []).
rewrite app_nil_r, (pipeline_parts_children H).
apply (walk_pipeline_parts H).
Qed.

Lemma scan_pipe_tokens (wss : list (list (list N))) :
Forall (Forall ordinary) wss ->
forall out, scan (pipe_tokens wss) [] out = out ++ flat_map resolve wss.
Proof.
induction 1 as [|ws wss Hws Hrest IH]; intros out.
- reflexivity.
- destruct wss as [|ws' wss'].
  + cbn [pipe_tokens flat_map]. rewrite <- (app_nil_r ws) at 1.
    rewrite (scan_ordinary Hws). cbn [app scan]. now rewrite app_nil_r.
  + change (pipe_tokens (ws :: ws' :: wss'))
      with (ws ++ py "|" :: pipe_tokens (ws' :: wss')).
    rewrite (scan_ordinary Hws). cbn [app].
    change (scan (py "|" :: pipe_tokens (ws' :: wss')) ws out)
      with (scan (pipe_tokens (ws' :: wss')) [] (out ++ resolve ws)).
    rewrite IH. cbn [flat_map]. now rewrite <- app_assoc.
Qed.
End Pipelines.


(* ===================================================================== *)
(** ** Facts about the tree walk, the lexer and the normalization *)
(* ===================================================================== *)

Section TreeFacts.
Context {db : UnicodeDB}.

Lemma fold_command_words (parts : list pyval) :
forall acc,
  fold_left
    (fun words p =>
       if is_str (getattr p "kind") "word" then
         match _word_text p with
         | Some w => words ++ [w]
         | None => words
         end
       else words)
    parts acc = acc ++ command_words parts.
Proof.
induction parts as [|p parts IH]; intros acc; cbn [fold_left command_words flat_map].
- now rewrite app_nil_r.
- rewrite IH. fold (command_words parts).
  destruct (is_str (getattr p "kind") "word"); [|reflexivity].
  destruct (_word_text p); cbn [option_list app]; [|reflexivity].
  now rewrite <- app_assoc.
Qed.

Lemma handle_command_node_names (node : pyval) (out : list (list N)) :
_handle_command_node node out
= Ok (out ++ match getattr node "parts" with
             | PyList parts => resolve (command_words parts)
             | _ => []
             end).
Proof.
unfold _handle_command_node.
destruct (getattr node "parts"); try now rewrite app_nil_r.
cbv zeta. rewrite fold_command_words. cbn [app].
apply append_command_words_spec.
Qed.

Lemma own_names_step (node : pyval) (out : list (list N)) :
(if is_str (getattr node "kind") "command"
 then _handle_command_node node out else Ok out)
= Ok (out ++ own_names node).
Proof.
unfold own_names. destruct (is_str (getattr node "kind") "command").
- apply handle_command_node_names.
- now rewrite app_nil_r.
Qed.

Lemma for_each_names {A} (g : A -> list (list N))
  (body : A -> list (list N) -> result (list (list N))) (cs : list A) :
(forall c, In c cs -> forall out, body c out = Ok (out ++ g c)) ->
forall out, for_each cs out body = Ok (out ++ flat_map g cs).
Proof.
induction cs as [|c cs IH]; intros H out; cbn [for_each flat_map].
- now rewrite app_nil_r.
- rewrite (H c (or_introl eq_refl)). cbn [bind].
  rewrite IH by (intros c' Hc'; apply H; now right).
  now rewrite <- app_assoc.
Qed.

Lemma flat_map_ext_in {A B} (f g : A -> list B) (l : list A) :
(forall x, In x l -> f x = g x) -> flat_map f l = flat_map g l.
Proof.
induction l as [|x l IH]; intros H; cbn [flat_map]; [reflexivity|].
rewrite (H x (or_introl eq_refl)). f_equal. apply IH.
intros y Hy. apply H. now right.
Qed.

Lemma walk_step (fuel : nat) (node : pyval) (out : list (list N)) :
node <> PyNone ->
_walk (S fuel) node out
= (out' <- Ok (out ++ own_names node) ;;
   for_each (_iter_children node) out' (_walk fuel)).
Proof.
intros H. cbn [_walk]. rewrite own_names_step.
destruct node; try reflexivity. contradiction.
Qed.

Lemma walk_names_with :
forall fuel node,
  depth node < fuel ->
  forall out, _walk fuel node out = Ok (out ++ names_with fuel node).
Proof.
induction fuel as [|fuel IH]; intros node Hd out; [lia|].
destruct node as [| s | z | l | l | d] eqn:En;
  try (unfold names_with; cbn; now rewrite app_nil_r).
assert (Hc : forall c, In c (_iter_children (PyObj d)) ->
             forall o, _walk fuel c o = Ok (o ++ names_with fuel c)).
{ intros c Hin o. apply IH. apply iter_children_depth in Hin. lia. }
unfold names_with. rewrite !walk_step by discriminate. cbn [bind].
rewrite !(for_each_names (names_with fuel) (_walk fuel) _ Hc).
cbn [app]. now rewrite app_assoc.
Qed.

Lemma names_with_step (fuel : nat) (node : pyval) :
node <> PyNone -> depth node < S fuel ->
names_with (S fuel) node
= own_names node ++ flat_map (names_with fuel) (_iter_children node).
Proof.
intros Hn Hd. unfold names_with at 1. rewrite walk_step by assumption.
cbn [bind app]. rewrite (for_each_names (names_with fuel) (_walk fuel)).
- reflexivity.
- intros c Hin o. apply walk_names_with.
  apply iter_children_depth in Hin. lia.
Qed.

Lemma names_with_none (fuel : nat) : names_with fuel PyNone = [].
Proof. destruct fuel; reflexivity. Qed.

Lemma names_with_succ :
forall fuel node,
  depth node < fuel -> names_with (S fuel) node = names_with fuel node.
Proof.
induction fuel as [|fuel IH]; intros node Hd; [lia|].
assert (Hnone : node = PyNone \/ node <> PyNone)
  by (destruct node; (now left) || (right; discriminate)).
destruct Hnone as [-> | Hn].
{ now rewrite !names_with_none. }
rewrite !names_with_step by (assumption || lia). f_equal.
apply flat_map_ext_in. intros c Hin. apply IH.
apply iter_children_depth in Hin. lia.
Qed.

Lemma names_with_enough (k : nat) :
forall node, names_with (S (depth node) + k) node = walk_names node.
Proof.
induction k as [|k IH]; intros node.
- now rewrite Nat.add_0_r.
- rewrite Nat.add_succ_r. rewrite names_with_succ by lia. apply IH.
Qed.

Lemma names_with_walk_names (fuel : nat) (node : pyval) :
depth node < fuel -> names_with fuel node = walk_names node.
Proof.
intros H. replace fuel with (S (depth node) + (fuel - S (depth node))) by lia.
apply names_with_enough.
Qed.

(** With enough fuel the walk appends the names of the tree. *)
Lemma walk_spec (fuel : nat) (node : pyval) (out : list (list N)) :
depth node < fuel -> _walk fuel node out = Ok (out ++ walk_names node).
Proof.
intros H. rewrite walk_names_with by assumption.
now rewrite names_with_walk_names by assumption.
Qed.

Lemma walk_names_none : walk_names PyNone = [].
Proof. reflexivity. Qed.


(** The names of a tree: those of the node, then those of its children. *)
Lemma walk_names_step (node : pyval) :
node <> PyNone ->
walk_names node = own_names node ++ flat_map walk_names (_iter_children node).
Proof.
intros Hn. unfold walk_names at 1.
rewrite names_with_step by (assumption || lia). f_equal.
apply flat_map_ext_in. intros c Hin. apply names_with_walk_names.
now apply iter_children_depth.
Qed.

Lemma own_names_none : own_names PyNone = [].
Proof. reflexivity. Qed.

Lemma list_max_flat_map {A B} (f : B -> nat) (g : A -> list B) (l : list A) :
list_max (map f (flat_map g l))
= list_max (map (fun x => list_max (map f (g x))) l).
Proof.
induction l as [|x l IH]; cbn [flat_map map]; [reflexivity|].
rewrite map_app, list_max_app. rewrite IH. reflexivity.
Qed.

Lemma list_max_filter {A} (f : A -> nat) (p : A -> bool) (l : list A) :
list_max (map f (filter p l))
= list_max (map (fun x => if p x then f x else 0) l).
Proof.
induction l as [|x l IH]; cbn [filter map]; [reflexivity|].
unfold list_max in *.
destruct (p x); cbn [map fold_right]; now rewrite IH.
Qed.

(** The nesting of a node is one more than that of its deepest child. *)
Lemma height_step (d : list (list N * pyval)) :
height (PyObj d) = S (list_max (map height (_iter_children (PyObj d)))).
Proof.
cbn [height _iter_children]. f_equal. rewrite list_max_flat_map.
f_equal. apply map_ext. intros [k v]. cbn [snd].
destruct v as [| s | z | l | l | d']; cbn [_is_ast_node]; try reflexivity.
- now rewrite list_max_filter.
- now rewrite list_max_filter.
- destruct (lookup (py "kind") d'); [|reflexivity].
  change (list_max (map height [PyObj d'])) with (Nat.max (height (PyObj d')) 0).
  now rewrite Nat.max_0_r.
Qed.

Lemma height_pos (node : pyval) : 1 <= height node.
Proof. destruct node; cbn [height]; lia. Qed.

Lemma height_child (node c : pyval) :
In c (_iter_children node) -> height c < height node.
Proof.
destruct node as [| | | | |d]; try contradiction.
intros H. rewrite height_step.
pose proof (list_max_map_ge height _ _ H). lia.
Qed.

Lemma for_each_overflow {A} (g : A -> list (list N)) (fits : A -> bool)
  (body : A -> list (list N) -> result (list (list N))) (cs : list A) :
(forall c, In c cs -> forall out,
   body c out = if fits c then Ok (out ++ g c) else Raise RecursionError) ->
forall out,
  for_each cs out body
  = if forallb fits cs then Ok (out ++ flat_map g cs)
    else Raise RecursionError.
Proof.
induction cs as [|c cs IH]; intros H out; cbn [for_each flat_map forallb].
- now rewrite app_nil_r.
- rewrite (H c (or_introl eq_refl)). destruct (fits c); cbn [bind andb].
  + rewrite IH by (intros c' Hc'; apply H; now right).
    destruct (forallb fits cs); [|reflexivity]. now rewrite <- app_assoc.
  + reflexivity.
Qed.

Lemma forallb_leb_list_max {A} (f : A -> nat) (n : nat) (l : list A) :
forallb (fun x => f x <=? n) l = (list_max (map f l) <=? n).
Proof.
induction l as [|x l IH]; [reflexivity|].
unfold list_max in *. cbn [forallb map fold_right]. rewrite IH.
destruct (f x <=? n) eqn:E1,
         (fold_right Nat.max 0 (map f l) <=? n) eqn:E2;
  cbn [andb]; symmetry;
  rewrite ?Nat.leb_le, ?Nat.leb_gt in *; lia.
Qed.

(** The walk returns the names of the tree when its nesting fits the
    room, and raises [RecursionError] when it does not. *)
Lemma walk_exact :
forall room node out,
  _walk room node out
  = if height node <=? room then Ok (out ++ walk_names node)
    else Raise RecursionError.
Proof.
induction room as [|room IH]; intros node out.
- pose proof (height_pos node) as Hp.
  destruct (height node <=? 0) eqn:E; [apply Nat.leb_le in E; lia|].
  reflexivity.
- destruct node as [| s | z | l | l | d] eqn:En;
    try (cbn; now rewrite app_nil_r).
  rewrite walk_step by discriminate. cbn [bind].
  rewrite (for_each_overflow walk_names (fun c => height c <=? room)
             (_walk room)) by (intros c _ o; apply IH).
  rewrite forallb_leb_list_max, height_step.
  change (S (list_max (map height (_iter_children (PyObj d)))) <=? S room)
    with (list_max (map height (_iter_children (PyObj d))) <=? room).
  destruct (list_max (map height (_iter_children (PyObj d))) <=? room);
    [|reflexivity].
  rewrite walk_names_step by discriminate. now rewrite app_assoc.
Qed.

Lemma height_le_depth (node : pyval) : height node <= S (depth node).
Proof.
destruct (height node <=? S (depth node)) eqn:E; [now apply Nat.leb_le|].
pose proof (walk_exact (S (depth node)) node []) as H.
rewrite E, walk_spec in H by lia. discriminate.
Qed.

Context {interp : Interpreter}.

(** The trees of a parse are walked in order; the first tree whose
    nesting does not fit the room makes the walk raise. *)
Lemma walk_trees_exact (trees : list pyval) :
walk_trees trees
= if forallb (fun t => height t <=? recursion_room) trees
  then Ok (flat_map walk_names trees) else Raise RecursionError.
Proof.
unfold walk_trees.
rewrite (for_each_overflow walk_names (fun t => height t <=? recursion_room)
           (fun t out => _walk recursion_room t out))
  by (intros t _ o; apply walk_exact).
reflexivity.
Qed.

Lemma walk_trees_names (trees : list pyval) :
Forall (fun t => height t <= recursion_room) trees ->
walk_trees trees = Ok (flat_map walk_names trees).
Proof.
intros H. rewrite walk_trees_exact.
replace (forallb (fun t => height t <=? recursion_room) trees) with true;
  [reflexivity|].
symmetry. apply forallb_forall. intros t Ht. apply Nat.leb_le.
rewrite Forall_forall in H. now apply H.
Qed.

(** Trees whose nesting is below sixteen fit every interpreter. *)
Lemma walk_trees_shallow (trees : list pyval) :
forallb (fun t => height t <=? 16) trees = true ->
walk_trees trees = Ok (flat_map walk_names trees).
Proof.
intros H. apply walk_trees_names. apply Forall_forall. intros t Ht.
rewrite forallb_forall in H. specialize (H t Ht). apply Nat.leb_le in H.
pose proof recursion_room_min. lia.
Qed.

Lemma walk_trees_ok (trees : list pyval) (names : list (list N)) :
walk_trees trees = Ok names -> names = flat_map walk_names trees.
Proof.
rewrite walk_trees_exact.
destruct (forallb (fun t => height t <=? recursion_room) trees);
  [|discriminate].
intros H. now injection H.
Qed.



Lemma names_descendant :
forall n root name,
  depth root < n ->
  In name (walk_names root) ->
  exists d, descendant root d /\ In name (own_names d).
Proof.
induction n as [|n IH]; intros root name Hd Hin; [lia|].
assert (Hnone : root = PyNone \/ root <> PyNone)
  by (destruct root; (now left) || (right; discriminate)).
destruct Hnone as [-> | Hn]; [contradiction|].
rewrite (walk_names_step Hn) in Hin. apply in_app_or in Hin as [Hin | Hin].
- exists root. split; [constructor | exact Hin].
- apply in_flat_map in Hin as (c & Hc & Hin).
  destruct (IH c name) as (d & Hcd & Hd'); [|exact Hin|].
  { apply iter_children_depth in Hc. lia. }
  exists d. split; [|exact Hd']. now apply descendant_child with (c := c).
Qed.

Lemma command_words_In (parts : list pyval) (w : list N) :
In w (command_words parts) <->
exists p, In p parts /\ is_str (getattr p "kind") "word" = true
          /\ _word_text p = Some w.
Proof.
unfold command_words. rewrite in_flat_map. split.
- intros (p & Hp & Hw). exists p. split; [exact Hp|].
  destruct (is_str (getattr p "kind") "word"); [|contradiction].
  destruct (_word_text p) as [w'|]; [|contradiction].
  destruct Hw as [-> | []]. split; reflexivity.
- intros (p & Hp & Hk & Hw). exists p. split; [exact Hp|].
  rewrite Hk, Hw. now left.
Qed.

Lemma own_names_In (d : pyval) (name : list N) :
In name (own_names d) ->
is_str (getattr d "kind") "command" = true
/\ exists parts,
     getattr d "parts" = PyList parts /\ In name (command_words parts).
Proof.
unfold own_names.
destruct (is_str (getattr d "kind") "command"); [|contradiction].
destruct (getattr d "parts") as [| | |parts| |]; try contradiction.
intros H. split; [reflexivity|]. exists parts. split; [reflexivity|].
exact (@subseq_In _ _ _ name (resolve_subseq _) H).
Qed.

Lemma iter_children_In (d : list (list N * pyval)) (c : pyval) :
In c (_iter_children (PyObj d)) <->
_is_ast_node c = true
/\ exists k v, In (k, v) d
   /\ (v = c \/ exists l, (v = PyList l \/ v = PyTuple l) /\ In c l).
Proof.
cbn [_iter_children]. rewrite in_flat_map. split.
- intros ([k v] & Hkv & Hc). cbn [snd] in Hc.
  destruct v as [| s | z | l | l | d'] eqn:Ev; cbn [_is_ast_node] in Hc;
    try contradiction.
  + apply filter_In in Hc as [Hc Hn]. split; [exact Hn|].
    exists k, (PyList l). split; [exact Hkv|]. right. exists l. tauto.
  + apply filter_In in Hc as [Hc Hn]. split; [exact Hn|].
    exists k, (PyTuple l). split; [exact Hkv|]. right. exists l. tauto.
  + destruct (lookup (py "kind") d') eqn:Ek; [|contradiction].
    destruct Hc as [<- | []]. split.
    * cbn [_is_ast_node]. now rewrite Ek.
    * exists k, (PyObj d'). split; [exact Hkv|]. now left.
- intros (Hn & k & v & Hkv & Hv). exists (k, v). split; [exact Hkv|].
  cbn [snd]. destruct Hv as [-> | (l & [-> | ->] & Hin)].
  + destruct c as [| | | | |d']; try discriminate. rewrite Hn. now left.
  + cbn [_is_ast_node]. apply filter_In. tauto.
  + cbn [_is_ast_node]. apply filter_In. tauto.
Qed.

Lemma iter_children_nodes (node : pyval) :
Forall (fun c => _is_ast_node c = true) (_iter_children node).
Proof.
apply Forall_forall. intros c Hc.
destruct node as [| | | | |d]; try contradiction.
now apply iter_children_In in Hc.
Qed.
End TreeFacts.

Section NestedFacts.
Context {db : UnicodeDB}.




End NestedFacts.

Module LexFacts.
Import Shlex ShlexInv QuoteInv LexSpec.

Section Refinement.
Variable cfg : config.
Hypothesis Hcfg : fallback_lexer cfg.

Ltac l_record_simpl :=
  cbn [self quoted escapedstate upd set_quoted set_escapedstate set_state
       set_token set_instream set_pushback_chars set_pushback instream
       _pushback_chars pushback state token].

Ltac l_eval_tests :=
  repeat match goal with
    | |- context [chr_in ?a ?l] =>
        let v := eval vm_compute in (chr_in a l) in
        lazymatch v with
        | true => change (chr_in a l) with true
        | false => change (chr_in a l) with false
        end
    | |- context [N.eqb ?a ?b] =>
        let v := eval vm_compute in (N.eqb a b) in
        lazymatch v with
        | true => change (N.eqb a b) with true
        | false => change (N.eqb a b) with false
        end
    end;
  cbn [orb andb negb].

Lemma quote_not_wordchar (c : N) :
  chr_in c [39; 34]%N = true -> chr_in c (wordchars cfg) = false.
Proof.
  destruct Hcfg as ((_ & _ & _ & _ & _ & _ & _ & H39 & H34) & _).
  unfold chr_in at 1. cbn [existsb]. rewrite orb_false_r.
  intros H. apply orb_true_iff in H as [H | H]; apply N.eqb_eq in H; now subst.
Qed.

Lemma quote_cases (c : N) : chr_in c [39; 34]%N = true -> c = 39%N \/ c = 34%N.
Proof.
  unfold chr_in. cbn [existsb]. rewrite orb_false_r.
  intros H. apply orb_true_iff in H as [H | H]; apply N.eqb_eq in H; auto.
Qed.

Lemma esc_case (c : N) : chr_in c [92%N] = true -> c = 92%N.
Proof.
  unfold chr_in. cbn [existsb]. rewrite orb_false_r. apply N.eqb_eq.
Qed.

Lemma snoc_nonempty (t : list N) (c : N) : t ++ [c] <> [].
Proof. intros H. apply app_eq_nil in H as [_ H]. discriminate. Qed.

Ltac classify c :=
  let Eq := fresh "Eq" in
  let Ee := fresh "Ee" in
  let Ews := fresh "Ews" in
  let Ep := fresh "Ep" in
  destruct (chr_in c [39; 34]%N) eqn:Eq;
  [ apply quote_cases in Eq; destruct Eq; subst c
  | destruct (chr_in c [92%N]) eqn:Ee;
    [ apply esc_case in Ee; subst c
    | destruct (chr_in c [32; 9; 13; 10]%N) eqn:Ews;
      destruct (chr_in c (124%N :: py "&;()<>")) eqn:Ep ] ].

Ltac solve_atom :=
  first [ reflexivity | assumption | discriminate | apply snoc_nonempty
        | congruence ].

Ltac solve_emits := first [assumption | left; solve_atom | right; solve_atom].

Ltac solve_good :=
  first
    [ left; split; [solve_atom | split; solve_atom]
    | right; left; split;
      [first [left; reflexivity | right; reflexivity] | solve_emits]
    | right; right; left; first [left; reflexivity | right; reflexivity]
    | right; right; right; split;
      [reflexivity | first [left; solve_atom | right; solve_atom]] ].

Ltac solve_next := split; [split; [solve_atom | solve_good] | solve_atom].

Ltac solve_broke :=
  split;
  [ solve_atom
  | first
      [ left; split; [reflexivity | split; [solve_emits | solve_atom]]
      | right; left; split; [reflexivity | split; [solve_emits | solve_atom]]
      | right; right; split;
        [reflexivity | split; [solve_atom | split; solve_atom]] ] ].

Ltac split_emit :=
  try match goal with
    | |- context [match token (self ?f) with _ => _ end] =>
        destruct (token (self f)) eqn:Etok
    end;
  try match goal with
    | |- context [if quoted ?f then _ else _] =>
        destruct (quoted f) eqn:Equo
    end.

Ltac norm_punct :=
  change (py "|&;()<>") with (124%N :: py "&;()<>") in *.

Lemma lex_step (f : frame) : good f -> lex_step_post f (read_token_body cfg f).
Proof.
  destruct Hcfg as (Hlike & Hpw).
  pose proof Hlike as (Hw & Hc & Hqs & He & Heq & Hp & Hws & Hw39 & Hw34).
  intros (Hpb & Hgood). unfold read_token_body.
  pose proof (QuoteFacts.next_char_remaining Hlike (self f)) as Hn.
  destruct (state (self f)) as [st|] eqn:Hst; [|contradiction].
  assert (Hcases : st = 32%N \/ st = 97%N \/ st = 99%N \/ st = 39%N
                   \/ st = 34%N \/ st = 92%N) by intuition.
  destruct (remaining (self f)) as [|c r] eqn:Er.
  - (* the end of the input *)
    rewrite Hn. cbn [upd self set_quoted]. rewrite Hst.
    rewrite Hqs, He.
    destruct Hcases as [-> | [-> | [-> | [-> | [-> | ->]]]]];
      l_eval_tests; cbv iota;
      cbn [lex_step_post]; unfold broke, spec_of, mode_of, emits, lex in *;
      l_record_simpl; rewrite ?Hst, ?Er; l_eval_tests; cbv iota;
      cbn [lex_from]; try reflexivity;
      destruct Hgood
        as [(Hs0 & Htok & Hquo)
           | [([Hs0 | Hs0] & Hem) | [[Hs0 | Hs0] | (Hs0 & Hesc)]]];
      try discriminate Hs0; solve_broke.
  - (* a character is read *)
    destruct Hn as (l' & -> & Hr' & Hs' & Ht' & Hpb').
    cbn [upd self quoted escapedstate set_quoted]. rewrite Hs'.
    rewrite ?Hw, ?Hc, ?He, ?Heq, ?Hp, ?Hqs, ?Hws. norm_punct.
    destruct Hcases as [-> | [-> | [-> | [-> | [-> | ->]]]]];
      l_eval_tests; cbv iota;
      (destruct Hgood
         as [(Hs0 & Htok & Hquo)
            | [([Hs0 | Hs0] & Hem) | [[Hs0 | Hs0] | (Hs0 & Hesc)]]];
       try discriminate Hs0; clear Hs0).
    all: try (destruct Hesc as [Hesc | Hesc]; rewrite Hesc).
    all: classify c; rewrite ?Hw39, ?Hw34, ?(Hpw _ Ep); l_eval_tests;
      rewrite ?andb_false_r, ?andb_true_r, ?orb_true_r, ?orb_false_r;
      cbv iota.
    all: try match goal with
           | |- context [chr_in ?c (wordchars cfg)] =>
               destruct (chr_in c (wordchars cfg))
           end;
      cbn [orb andb negb]; cbv iota.
    all: repeat match goal with
           | |- context [(?a =? ?b)%N] => destruct (a =? b)%N eqn:?
           end;
      cbn [orb andb negb]; cbv iota.
    all: unfold emit; l_record_simpl; rewrite ?Ht'; split_emit;
      cbn [lex_step_post]; unfold good, broke, spec_of, mode_of, emits, lex,
        remaining in *;
      l_record_simpl; rewrite ?rev_app_distr; cbn [rev app];
      rewrite ?Hs', ?Hst, ?Er, ?Hr', ?Ht', ?Hpb', ?Hpb, ?Hesc;
      l_eval_tests; cbv iota; cbn [lex_from resume]; norm_punct;
      rewrite ?Eq, ?Ee, ?Ews, ?Ep, ?Etok, ?Equo; l_eval_tests;
      repeat match goal with
        | H : (_ =? _)%N = _ |- _ => rewrite H
        end;
      rewrite ?andb_false_r, ?andb_true_r, ?orb_true_r, ?orb_false_r;
      cbn [orb andb negb]; cbv iota.
    all: try solve [solve_next | solve_broke
                   | exfalso; rewrite ?Etok, ?Equo in Hem;
                     destruct Hem as [Hem | Hem];
                     [now apply Hem | discriminate] ].
Qed.

Lemma lex_loop :
  forall fuel f,
    good f ->
    match while_ fuel (fun _ => Ok true) (read_token_body cfg) f with
    | Ok (inl f') => pushback (self f') = [] /\ broke f f'
    | Ok (inr e) => False
    | Raise e => spec_of f = ([], false)
    | Diverge => True
    end.
Proof.
  induction fuel as [|fuel IH]; intros f Hf; [exact I|].
  cbn [while_ bind]. pose proof (lex_step Hf) as Hstep.
  destruct (read_token_body cfg f) as [[f' | f' | []] | e |];
    cbn [lex_step_post bind] in *.
  - destruct Hstep as (Hf' & Hspec). specialize (IH f' Hf').
    destruct (while_ fuel (fun _ => Ok true) (read_token_body cfg) f')
      as [[f'' | []] | e |]; try exact IH.
    + unfold broke in *. now rewrite <- Hspec.
    + now rewrite <- Hspec.
  - exact Hstep.
  - exact Hstep.
  - contradiction.
Qed.

Lemma lex_read_token (l : lexer) :
  resting l ->
  match read_token cfg l with
  | Ok (Some t, l') => resting l' /\ expected l = push t (expected l')
  | Ok (None, l') => expected l = ([], true)
  | Raise e => expected l = ([], false)
  | Diverge => True
  end.
Proof.
  intros (Hpb & Htok & Hst). unfold read_token.
  set (f0 := {| self := l; quoted := false; escapedstate := 32%N |}).
  destruct Hst as [Hst | Hst].
  - assert (Hf0 : good f0).
    { unfold good, f0. cbn [self quoted]. rewrite Hst. auto. }
    pose proof (lex_loop (read_fuel l) Hf0) as Hloop.
    assert (Hspec : spec_of f0 = expected l).
    { unfold spec_of, mode_of, expected, f0. cbn [self]. rewrite Hst, Htok.
      reflexivity. }
    rewrite Hspec in Hloop.
    destruct (while_ (read_fuel l) (fun _ => Ok true) (read_token_body cfg) f0)
      as [[f' | []] | e |]; cbn [bind]; try exact Hloop.
    destruct Hloop as (Hpb' & Hb). unfold broke, emits in Hb.
    rewrite Hspec in Hb.
    destruct Hb as [(Hs' & Hem & Hb) | [(Hs' & Hem & Hb) | (Hs' & Ht' & Hq' & Hb)]].
    + assert (Hrest : resting (set_token (self f') [])
                      /\ expected l
                         = push (token (self f'))
                             (expected (set_token (self f') []))).
      { unfold resting, expected. cbn. rewrite Hs'. auto. }
      destruct (token (self f')) as [|c t] eqn:Et; [|exact Hrest].
      destruct Hem as [Hem | Hem]; [contradiction|]. rewrite Hem. exact Hrest.
    + assert (Hrest : resting (set_token (self f') [])
                      /\ expected l
                         = push (token (self f'))
                             (expected (set_token (self f') []))).
      { unfold resting, expected. cbn. rewrite Hs'. auto. }
      destruct (token (self f')) as [|c t] eqn:Et; [|exact Hrest].
      destruct Hem as [Hem | Hem]; [contradiction|]. rewrite Hem. exact Hrest.
    + rewrite Ht', Hq'. exact Hb.
  - replace (read_fuel l) with (S (read_fuel l - 1))
      by (unfold read_fuel; lia).
    cbn [while_ bind]. unfold read_token_body at 1.
    destruct Hcfg as (Hlike & _).
    pose proof (QuoteFacts.next_char_remaining Hlike (self f0)) as Hn.
    destruct (remaining (self f0)) as [|c r].
    + rewrite Hn. cbn [f0 self upd]. rewrite Hst. cbn.
      unfold expected. now rewrite Hst.
    + destruct Hn as (l' & -> & _ & Hs' & _). cbn [f0 self] in Hs'.
      cbn [upd self]. rewrite Hs', Hst. cbn.
      unfold expected. now rewrite Hst.
Qed.

Lemma lex_to_list :
  forall fuel l (acc : list (list N)),
    resting l ->
    match while_ fuel (fun _ => Ok true) (to_list_body cfg) (l, acc) with
    | Ok (inl s) => snd (expected l) = true /\ snd s = acc ++ fst (expected l)
    | Ok (inr e) => False
    | Raise e => snd (expected l) = false
    | Diverge => True
    end.
Proof.
  induction fuel as [|fuel IH]; intros l acc Hl; [exact I|].
  cbn [while_ bind]. unfold to_list_body at 1. cbn [fst snd].
  unfold get_token. pose proof Hl as (Hpb & _). rewrite Hpb.
  pose proof (lex_read_token Hl) as Hr.
  destruct (read_token cfg l) as [[[t|] l'] | e |]; cbn [bind].
  - destruct Hr as (Hl' & He). specialize (IH l' (acc ++ [t]) Hl').
    rewrite He. cbn [push fst snd].
    destruct (while_ fuel (fun _ => Ok true) (to_list_body cfg) (l', acc ++ [t]))
      as [[s | []] | e |]; try exact IH.
    destruct IH as (H1 & H2). split; [exact H1|].
    rewrite H2. now rewrite <- app_assoc.
  - rewrite Hr. cbn [fst snd]. now rewrite app_nil_r.
  - now rewrite Hr.
  - exact I.
Qed.

Lemma fallback_lexer_standard : standard cfg.
Proof.
  destruct Hcfg as ((_ & _ & Hqs & He & Heq & Hp & _) & _).
  unfold standard. rewrite Hp. repeat split; try assumption. discriminate.
Qed.

(** The tokens of a line are those of the one-pass tokenizer, and the
    lexer raises [ValueError] exactly when the tokenizer ends inside a
    quotation or right after a backslash. *)
Lemma to_list_lex (s : list N) :
  to_list cfg (init_lexer s)
  = if snd (lex s) then Ok (fst (lex s)) else Raise ValueError.
Proof.
  assert (Hrest : resting (init_lexer s)).
  { unfold resting, init_lexer. cbn. auto. }
  assert (Hexp : expected (init_lexer s) = lex s).
  { unfold expected, init_lexer, remaining. reflexivity. }
  destruct (ShlexFacts.to_list_total fallback_lexer_standard s)
    as [H | (tokens & H)]; rewrite H; unfold to_list in H.
  - pose proof (lex_to_list
      (2 * length (instream (init_lexer s))
       + length (_pushback_chars (init_lexer s))
       + length (pushback (init_lexer s)) + 2)
      (@nil (list N)) Hrest) as Hl.
    destruct (while_ _ _ _ _) as [[st | []] | e |]; try discriminate.
    rewrite Hexp in Hl. now rewrite Hl.
  - pose proof (lex_to_list
      (2 * length (instream (init_lexer s))
       + length (_pushback_chars (init_lexer s))
       + length (pushback (init_lexer s)) + 2)
      (@nil (list N)) Hrest) as Hl.
    destruct (while_ _ _ _ _) as [[st | []] | e |]; try discriminate.
    rewrite Hexp in Hl. destruct Hl as (H1 & H2). rewrite H1.
    cbn [bind] in H. injection H as <-. now rewrite H2.
Qed.
End Refinement.

Lemma fallback_config_lexer : fallback_lexer fallback_config.
Proof.
  split; [apply QuoteFacts.fallback_config_like|].
  intros c H. apply ShlexFacts.chr_in_In in H. cbn [py list_ascii_of_string map In] in H.
  repeat (destruct H as [<- | H]; [reflexivity|]). contradiction.
Qed.

(** The tokens of the fallback path. *)
Lemma fallback_tokens (s : list N) :
  to_list fallback_config (init_lexer s)
  = if snd (lex s) then Ok (fst (lex s)) else Raise ValueError.
Proof. apply to_list_lex, fallback_config_lexer. Qed.
End LexFacts.

Module PieceFacts.
Import LexSpec Pieces.

Ltac norm_punct :=
  change (py "|&;()<>") with (124%N :: py "&;()<>") in *.

Lemma blank_tests (c : N) :
  blank_char c -> chr_in c [32; 9; 13; 10]%N = true.
Proof.
  unfold blank_char. cbn [In]. intros H.
  repeat (destruct H as [<- | H]; [reflexivity|]). contradiction.
Qed.

Lemma punct_tests (c : N) :
  punct_char c ->
  chr_in c [32; 9; 13; 10]%N = false /\ chr_in c [92%N] = false
  /\ chr_in c (py "|&;()<>") = true /\ chr_in c [39; 34]%N = false.
Proof.
  unfold punct_char. cbn [py list_ascii_of_string map In]. intros H.
  repeat (destruct H as [<- | H]; [repeat split; reflexivity|]).
  contradiction.
Qed.

Lemma blank_run (b rest : list N) :
  Forall blank_char b ->
  lex_from InBlank [] (b ++ rest) = lex_from InBlank [] rest.
Proof.
  induction 1 as [|c b Hc _ IH]; cbn [app lex_from]; [reflexivity|].
  now rewrite (blank_tests Hc).
Qed.

Lemma punct_run (p rest : list N) :
  Forall punct_char p ->
  forall tok, lex_from InPunct tok (p ++ rest) = lex_from InPunct (tok ++ p) rest.
Proof.
  induction 1 as [|c p Hc _ IH]; intros tok; cbn [app lex_from].
  - now rewrite app_nil_r.
  - destruct (punct_tests Hc) as (E1 & E2 & E3 & E4). rewrite E1, E3.
    rewrite IH. now rewrite <- app_assoc.
Qed.

Lemma plain_run (s rest : list N) :
  Forall wordy s ->
  forall tok, lex_from InWord tok (s ++ rest) = lex_from InWord (tok ++ s) rest.
Proof.
  induction 1 as [|c s (E1 & E2 & E3 & E4) _ IH]; intros tok;
    cbn [app lex_from].
  - now rewrite app_nil_r.
  - rewrite E1, E4, E2, E3. rewrite IH. now rewrite <- app_assoc.
Qed.

Lemma single_run (body rest : list N) :
  Forall (fun c => c <> 39%N) body ->
  forall tok,
    lex_from (InQuote 39) tok (body ++ 39%N :: rest)
    = lex_from InWord (tok ++ body) rest.
Proof.
  induction 1 as [|c body Hc _ IH]; intros tok; cbn [app lex_from].
  - now rewrite app_nil_r.
  - apply N.eqb_neq in Hc. rewrite Hc.
    change (chr_in 39 [34%N]) with false. rewrite andb_false_r.
    rewrite IH. now rewrite <- app_assoc.
Qed.

Lemma double_run (items : list quoted_item) (rest : list N) :
  Forall item_ok items ->
  forall tok,
    lex_from (InQuote 34) tok (flat_map item_text items ++ 34%N :: rest)
    = lex_from InWord (tok ++ flat_map item_value items) rest.
Proof.
  induction 1 as [|i items Hi _ IH]; intros tok; cbn [flat_map app].
  - cbn [lex_from]. now rewrite app_nil_r.
  - destruct i as [c | c]; cbn [item_ok item_text item_value app] in *.
    + destruct Hi as [Hc He]. apply N.eqb_neq in Hc, He. cbn [lex_from].
      rewrite Hc. unfold chr_in at 1. cbn [existsb]. rewrite He.
      cbn [orb andb]. rewrite IH. now rewrite <- app_assoc.
    + cbn [lex_from]. change (92 =? 34)%N with false.
      change (chr_in 92 [92%N] && chr_in 34 [34%N]) with true.
      change (chr_in 34 [39; 34]%N) with true. cbv iota.
      change (resume 34) with (InQuote 34). rewrite IH. f_equal.
      destruct (c =? 92)%N, (c =? 34)%N; cbn [negb andb orb];
        now rewrite <- !app_assoc.
Qed.

(** A segment read inside a word. *)
Lemma segment_in_word (g : segment) (rest : list N) (tok : list N) :
  segment_ok g ->
  lex_from InWord tok (segment_text g ++ rest)
  = lex_from InWord (tok ++ segment_value g) rest.
Proof.
  destruct g as [s | body | body | c]; cbn [segment_ok segment_text segment_value].
  - intros [_ H]. now apply plain_run.
  - intros H. cbn [app lex_from]. change (chr_in 39 [32; 9; 13; 10]%N) with false.
    change (chr_in 39 [39; 34]%N) with true. cbv iota.
    rewrite <- app_assoc. cbn [app]. now apply single_run.
  - intros H. cbn [app lex_from]. change (chr_in 34 [32; 9; 13; 10]%N) with false.
    change (chr_in 34 [39; 34]%N) with true. cbv iota.
    rewrite <- app_assoc. cbn [app]. now apply double_run.
  - intros _. cbn [app lex_from]. reflexivity.
Qed.

Lemma segments_in_word (gs : list segment) (rest : list N) :
  Forall segment_ok gs ->
  forall tok,
    lex_from InWord tok (flat_map segment_text gs ++ rest)
    = lex_from InWord (tok ++ flat_map segment_value gs) rest.
Proof.
  induction 1 as [|g gs Hg _ IH]; intros tok; cbn [flat_map app].
  - now rewrite app_nil_r.
  - rewrite <- app_assoc. rewrite segment_in_word by assumption. rewrite IH.
    now rewrite <- app_assoc.
Qed.

(** The first segment of a word, read between tokens. *)
Lemma segment_starts (g : segment) (rest : list N) :
  segment_ok g ->
  lex_from InBlank [] (segment_text g ++ rest)
  = lex_from InWord (segment_value g) rest.
Proof.
  destruct g as [s | body | body | c]; cbn [segment_ok segment_text segment_value].
  - intros [Hne H]. destruct H as [|c s (E1 & E2 & E3 & E4) H]; [contradiction|].
    cbn [app lex_from]. rewrite E1, E2, E3, E4.
    now rewrite (plain_run rest H).
  - intros H. cbn [app lex_from]. rewrite <- app_assoc. cbn [app].
    now rewrite (single_run rest H).
  - intros H. cbn [app lex_from]. rewrite <- app_assoc. cbn [app].
    now rewrite (double_run rest H).
  - intros _. reflexivity.
Qed.

Lemma word_starts (gs : list segment) (rest : list N) :
  gs <> [] -> Forall segment_ok gs ->
  lex_from InBlank [] (flat_map segment_text gs ++ rest)
  = lex_from InWord (flat_map segment_value gs) rest.
Proof.
  intros Hne H. destruct H as [|g gs Hg H]; [contradiction|].
  cbn [flat_map]. rewrite <- app_assoc. rewrite segment_starts by assumption.
  now rewrite (segments_in_word rest H).
Qed.

Lemma word_first_char (gs : list segment) :
  gs <> [] -> Forall segment_ok gs ->
  exists c s,
    flat_map segment_text gs = c :: s
    /\ chr_in c [32; 9; 13; 10]%N = false
    /\ chr_in c (py "|&;()<>") = false.
Proof.
  intros Hne H. destruct H as [|g gs Hg H]; [contradiction|].
  cbn [flat_map]. destruct g as [s | body | body | c];
    cbn [segment_ok segment_text] in *.
  - destruct Hg as [Hs Hw]. destruct Hw as [|c s (E1 & _ & E3 & _) _];
      [contradiction|].
    exists c, (s ++ flat_map segment_text gs). auto.
  - eexists. eexists. cbn [app]. split; [reflexivity|]. split; reflexivity.
  - eexists. eexists. cbn [app]. split; [reflexivity|]. split; reflexivity.
  - eexists. eexists. cbn [app]. split; [reflexivity|]. split; reflexivity.
Qed.

Lemma punct_then_other (c : N) (s tok : list N) :
  chr_in c [32; 9; 13; 10]%N = false -> chr_in c (py "|&;()<>") = false ->
  lex_from InPunct tok (c :: s) = push tok (lex_from InBlank [] (c :: s)).
Proof.
  intros E1 E3. cbn [lex_from]. now rewrite E1, E3.
Qed.

Lemma alternating_tail (p : piece) (ps : list piece) :
  alternating (p :: ps) -> alternating ps.
Proof. destruct ps; cbn; tauto. Qed.

Lemma pieces_lex (ps : list piece) :
  well_formed ps ->
  lex_from InBlank [] (line_text ps) = (line_tokens ps, true)
  /\ (not_word ps ->
      forall tok,
        lex_from InWord tok (line_text ps) = push tok (line_tokens ps, true))
  /\ (not_punct ps ->
      forall tok,
        lex_from InPunct tok (line_text ps) = push tok (line_tokens ps, true)).
Proof.
  intros [Hok Halt]. induction Hok as [|p ps Hp Hok IH].
  { repeat split; intros; reflexivity. }
  specialize (IH (alternating_tail _ _ Halt)). destruct IH as (IHa & IHw & IHp).
  unfold line_text, line_tokens in *. cbn [flat_map].
  destruct p as [gs | q | b]; cbn [piece_ok piece_text piece_tokens] in *.
  - (* a word *)
    destruct Hp as [Hne Hgs].
    assert (Hnw : not_word ps).
    { destruct ps as [|[ | | ] ps]; cbn in Halt |- *; try exact I.
      destruct Halt. discriminate. }
    assert (Ha : lex_from InBlank [] (flat_map segment_text gs ++ flat_map piece_text ps)
                 = (flat_map segment_value gs :: flat_map piece_tokens ps, true)).
    { rewrite (word_starts _ Hne Hgs). now rewrite (IHw Hnw). }
    split; [exact Ha|]. split; [intros []|]. intros _ tok.
    destruct (word_first_char Hne Hgs) as (c & s & E & E1 & E3).
    rewrite E in Ha |- *. cbn [app] in Ha |- *.
    rewrite punct_then_other by assumption. now rewrite Ha.
  - (* a run of punctuation characters *)
    destruct Hp as [Hne Hq].
    assert (Hnp : not_punct ps).
    { destruct ps as [|[ | | ] ps]; cbn in Halt |- *; try exact I.
      destruct Halt. discriminate. }
    destruct Hq as [|c q Hc Hq]; [contradiction|].
    destruct (punct_tests Hc) as (E1 & E2 & E3 & E4).
    assert (Hrun : lex_from InPunct [c] (q ++ flat_map piece_text ps)
                   = push (c :: q) (flat_map piece_tokens ps, true)).
    { rewrite (punct_run _ Hq). now rewrite (IHp Hnp). }
    split; [|split; [|intros []]].
    + cbn [app lex_from]. now rewrite E1, E2, E3.
    + intros _ tok. cbn [app lex_from]. rewrite E1, E4, E2, E3. now rewrite Hrun.
  - (* a run of blanks *)
    destruct Hp as [Hne Hb].
    assert (Ha : lex_from InBlank [] (b ++ flat_map piece_text ps)
                 = (flat_map piece_tokens ps, true)).
    { now rewrite (blank_run _ Hb). }
    destruct Hb as [|c b Hc Hb]; [contradiction|].
    pose proof (blank_tests Hc) as E1.
    assert (Hb' : lex_from InBlank [] (b ++ flat_map piece_text ps)
                  = (flat_map piece_tokens ps, true)).
    { now rewrite (blank_run _ Hb). }
    split; [exact Ha|].
    split; intros _ tok; cbn [app lex_from]; rewrite E1; now rewrite Hb'.
Qed.

(** The tokens of a line written with words, punctuation runs and blanks. *)
Lemma pieces_tokens (ps : list piece) :
  well_formed ps ->
  Shlex.to_list fallback_config (Shlex.init_lexer (line_text ps))
  = Ok (line_tokens ps).
Proof.
  intros H. rewrite LexFacts.fallback_tokens. unfold lex.
  now rewrite (proj1 (pieces_lex H)).
Qed.
End PieceFacts.

Module QuotingFacts.
Import LexSpec Quoting.

Lemma not_quote (c : N) :
  c <> 39%N -> c <> 34%N -> chr_in c [39; 34]%N = false.
Proof.
  intros H1 H2. apply N.eqb_neq in H1, H2. unfold chr_in. cbn [existsb].
  now rewrite H1, H2.
Qed.

Lemma not_backslash (c : N) : c <> 92%N -> chr_in c [92%N] = false.
Proof.
  intros H. apply N.eqb_neq in H. unfold chr_in. cbn [existsb].
  now rewrite H.
Qed.

Lemma snd_push (tok : list N) (r : list (list N) * bool) :
  snd (push tok r) = snd r.
Proof. reflexivity. Qed.

Ltac by_IH IH := rewrite ?snd_push; rewrite IH by (cbn; auto); reflexivity.

Lemma lex_open_at_end (s : list N) :
  forall m tok,
    valid_mode m ->
    snd (lex_from m tok s) = negb (open_at_end (quoting_of m) s).
Proof.
  induction s as [|c s IH]; intros m tok Hm.
  { destruct m as [| | |q|back]; cbn [valid_mode] in Hm;
      try (destruct Hm as [-> | ->]); reflexivity. }
  destruct (N.eqb_spec c 39) as [-> | H39].
  { destruct m as [| | |q|back]; cbn [valid_mode] in Hm;
      try (destruct Hm as [-> | ->]); cbn [lex_from quoting_of open_at_end];
      repeat match goal with
        | |- context [chr_in ?a ?l] =>
            let v := eval vm_compute in (chr_in a l) in
            change (chr_in a l) with v
        | |- context [N.eqb ?a ?b] =>
            let v := eval vm_compute in (N.eqb a b) in
            change (N.eqb a b) with v
        end; cbn [andb orb negb resume]; cbv iota; by_IH IH. }
  destruct (N.eqb_spec c 34) as [-> | H34].
  { destruct m as [| | |q|back]; cbn [valid_mode] in Hm;
      try (destruct Hm as [-> | ->]); cbn [lex_from quoting_of open_at_end];
      repeat match goal with
        | |- context [chr_in ?a ?l] =>
            let v := eval vm_compute in (chr_in a l) in
            change (chr_in a l) with v
        | |- context [N.eqb ?a ?b] =>
            let v := eval vm_compute in (N.eqb a b) in
            change (N.eqb a b) with v
        end; cbn [andb orb negb resume]; cbv iota; by_IH IH. }
  destruct (N.eqb_spec c 92) as [-> | H92].
  { destruct m as [| | |q|back]; cbn [valid_mode] in Hm;
      try (destruct Hm as [-> | ->]); cbn [lex_from quoting_of open_at_end];
      repeat match goal with
        | |- context [chr_in ?a ?l] =>
            let v := eval vm_compute in (chr_in a l) in
            change (chr_in a l) with v
        | |- context [N.eqb ?a ?b] =>
            let v := eval vm_compute in (N.eqb a b) in
            change (N.eqb a b) with v
        end; cbn [andb orb negb resume]; cbv iota; by_IH IH. }
  pose proof (not_quote H39 H34) as Eq.
  pose proof (not_backslash H92) as Ee.
  apply N.eqb_neq in H39, H34, H92.
  destruct m as [| | |q|back]; cbn [valid_mode] in Hm;
    try (destruct Hm as [-> | ->]); cbn [lex_from quoting_of open_at_end];
    rewrite ?Eq, ?Ee, ?H39, ?H34, ?H92;
    repeat match goal with
      | |- context [N.eqb ?a ?b] =>
          let v := eval vm_compute in (N.eqb a b) in
          lazymatch v with
          | true => change (N.eqb a b) with true
          | false => change (N.eqb a b) with false
          end
      | |- context [chr_in ?a ?l] =>
          let v := eval vm_compute in (chr_in a l) in
          lazymatch v with
          | true => change (chr_in a l) with true
          | false => change (chr_in a l) with false
          end
      end;
    cbn [andb orb negb resume]; cbv iota;
    repeat match goal with
      | |- context [if chr_in c ?l then _ else _] => destruct (chr_in c l)
      end;
    by_IH IH.
Qed.

Lemma lex_malformed (s : list N) : snd (lex s) = negb (malformed s).
Proof. apply (lex_open_at_end s InBlank [] I). Qed.

(** The lexer of the fallback path raises exactly on malformed quoting. *)
Lemma malformed_raises (s : list N) :
  Shlex.to_list fallback_config (Shlex.init_lexer s) = Raise ValueError
  <-> malformed s = true.
Proof.
  rewrite LexFacts.fallback_tokens, lex_malformed.
  destruct (malformed s); cbn [negb]; split; intros H;
    try reflexivity; discriminate.
Qed.
End QuotingFacts.

Section PlainLines.
Context {db : UnicodeDB}.
Import Pieces.

Lemma spaced_pieces_text (ws : list (list N)) :
line_text (spaced_pieces ws) = spaced ws.
Proof.
induction ws as [|w ws IH]; [reflexivity|].
destruct ws as [|w2 ws].
- unfold line_text. cbn. now rewrite !app_nil_r.
- change (spaced_pieces (w :: w2 :: ws))
    with (Word [Plain w] :: Blank [32%N] :: spaced_pieces (w2 :: ws)).
  change (spaced (w :: w2 :: ws)) with (w ++ 32%N :: spaced (w2 :: ws)).
  rewrite <- IH. unfold line_text. cbn [flat_map piece_text segment_text].
  now rewrite app_nil_r.
Qed.

Lemma spaced_pieces_tokens (ws : list (list N)) :
line_tokens (spaced_pieces ws) = ws.
Proof.
induction ws as [|w ws IH]; [reflexivity|].
destruct ws as [|w2 ws].
- unfold line_tokens. cbn. now rewrite app_nil_r.
- change (spaced_pieces (w :: w2 :: ws))
    with (Word [Plain w] :: Blank [32%N] :: spaced_pieces (w2 :: ws)).
  unfold line_tokens in *. cbn [flat_map piece_tokens segment_value app].
  rewrite IH. now rewrite app_nil_r.
Qed.

Lemma spaced_pieces_well_formed (ws : list (list N)) :
Forall plain_word ws -> well_formed (spaced_pieces ws).
Proof.
induction 1 as [|w ws Hw Hws IH]; [split; constructor|].
assert (Hp : piece_ok (Word [Plain w])).
{ split; [discriminate|]. constructor; [exact Hw | constructor]. }
destruct ws as [|w2 ws].
- split; [constructor; [exact Hp | constructor] | exact I].
- change (spaced_pieces (w :: w2 :: ws))
    with (Word [Plain w] :: Blank [32%N] :: spaced_pieces (w2 :: ws)).
  destruct IH as [IH1 IH2]. split.
  + constructor; [exact Hp|]. constructor; [|exact IH1].
    split; [discriminate|]. constructor; [|constructor].
    cbn. tauto.
  + cbn [alternating same_kind]. split; [reflexivity|].
    destruct ws as [|w3 ws]; cbn [spaced_pieces alternating same_kind] in *;
      (split; [reflexivity | exact IH2]).
Qed.

Lemma plain_word_not_separator (w : list N) :
plain_word w -> ~ In w _COMMAND_SEPARATORS.
Proof.
intros [Hne Hw] Hin. destruct Hw as [|c w (_ & _ & Hp & _) _]; [contradiction|].
unfold _COMMAND_SEPARATORS in Hin. cbn [map In] in Hin.
repeat (destruct Hin as [Hin | Hin];
        [injection Hin as <- _; discriminate|]).
contradiction.
Qed.

Lemma plain_word_not_redirection (w : list N) :
plain_word w -> ~ In w _REDIRECTION_TOKENS.
Proof.
intros [Hne Hw] Hin. destruct Hw as [|c w (_ & _ & Hp & _) _]; [contradiction|].
unfold _REDIRECTION_TOKENS in Hin. cbn [map In] in Hin.
repeat (destruct Hin as [Hin | Hin];
        [injection Hin as <- _; discriminate|]).
contradiction.
Qed.

Lemma plain_words_ordinary (ws : list (list N)) :
Forall plain_word ws ->
Forall (fun w => ~ In w _NON_COMMAND_TOKENS) ws ->
Forall ordinary ws.
Proof.
intros H1 H2. apply Forall_forall. intros w Hw.
rewrite Forall_forall in H1, H2. repeat split.
- now apply plain_word_not_separator, H1.
- now apply plain_word_not_redirection, H1.
- now apply H2.
Qed.

(** The names of the fallback path are ordinary tokens. *)
Lemma resolve_In (words : list (list N)) (name : list N) :
In name (resolve words) -> In name words.
Proof. apply subseq_In, resolve_subseq. Qed.

Lemma scan_names_ordinary (n : nat) :
forall tokens words,
  length tokens <= n ->
  Forall ordinary words ->
  Forall ordinary (scan tokens words []).
Proof.
induction n as [|n IH]; intros tokens words Hn Hw;
  destruct tokens as [|t rest]; cbn [scan app].
- apply Forall_forall. intros x Hx. apply resolve_In in Hx.
  rewrite Forall_forall in Hw. auto.
- cbn in Hn. lia.
- apply Forall_forall. intros x Hx. apply resolve_In in Hx.
  rewrite Forall_forall in Hw. auto.
- cbn [length] in Hn.
  assert (Hres : Forall ordinary (resolve words)).
  { apply Forall_forall. intros x Hx. apply resolve_In in Hx.
    rewrite Forall_forall in Hw. auto. }
  destruct (str_in t _COMMAND_SEPARATORS) eqn:Es.
  { rewrite scan_out_app. apply Forall_app. split; [exact Hres|].
    apply IH; [lia | constructor]. }
  destruct (str_in t _REDIRECTION_TOKENS) eqn:Er.
  { destruct rest as [|x rest']; [exact Hres|].
    apply IH; [cbn [length] in Hn; lia | exact Hw]. }
  destruct (str_in t _NON_COMMAND_TOKENS) eqn:Em.
  { apply IH; [lia | exact Hw]. }
  apply IH; [lia|]. apply Forall_app. split; [exact Hw|].
  constructor; [|constructor]. repeat split; intros Hin;
    apply str_in_In in Hin; congruence.
Qed.
End PlainLines.

Section HeredocOperator.
Context {db : UnicodeDB}.







End HeredocOperator.


(* ===================================================================== *)
(** ** The claims of the specification *)
(* ===================================================================== *)

(** Running the extractor on a line for which the engine returns [trees]. *)
(** The room for the walk holds at least three calls. *)
Lemma recursion_room_three {interp : Interpreter} :
  exists k, recursion_room = S (S (S k)).
Proof.
  pose proof recursion_room_min as H. exists (recursion_room - 3). lia.
Qed.

Lemma extract_parsed {db : UnicodeDB} {interp : Interpreter}
    (parse : list N -> exn + list pyval)
    (cmdline : list N) (trees : list pyval) :
  parse cmdline = inr trees ->
  extract_executables (Some parse) cmdline = walk_trees trees.
Proof. intros H. unfold extract_executables. now rewrite H. Qed.


(** C3: the leading words of the shape IDENT=... of a simple command are
    skipped and the first other word is the command name; when every word
    is of that shape nothing is appended.  The heuristic accepts exactly the
    words [c :: ident ++ "=" :: rest] whose [c] is a letter or an underscore
    and whose [ident] holds letters, digits and underscores.  On both paths
    [FOO=bar BAZ=qux mycmd arg1] yields [mycmd]. *)
Theorem assignment_words_skipped {db : UnicodeDB} {interp : Interpreter}
    (pre : list (list N)) (cmd : list N) (post out : list (list N)) :
  Forall assignment_shaped pre -> ~ assignment_shaped cmd ->
  (forall s, _looks_like_assignment_word s = true <-> assignment_shaped s)
  /\ _append_command_words (pre ++ cmd :: post) out
     = _append_command_words (cmd :: post) out
  /\ (exists wrapped,
        _append_command_words (pre ++ cmd :: post) out = Ok (out ++ cmd :: wrapped))
  /\ _append_command_words pre out = Ok out
  /\ extract_executables None Examples.assignments_line = Ok [py "mycmd"]
  /\ (forall parse,
        parse Examples.assignments_line = inr [Examples.assignments_tree] ->
        extract_executables (Some parse) Examples.assignments_line
        = Ok [py "mycmd"]).
Proof.
  intros Hpre Hcmd. split; [exact looks_like_assignment_word_iff|].
  rewrite !append_command_words_spec, (resolve_skip _ Hpre).
  rewrite (resolve_all_assignments Hpre), app_nil_r.
  rewrite (resolve_command post Hcmd).
  repeat split; eauto.
  intros parse H.
  rewrite (extract_parsed _ _ H), walk_trees_shallow by reflexivity.
  reflexivity.
Qed.

Lemma assignment_words_skipped_witness :
  @_append_command_words ascii_only
    [py "FOO=bar"; py "BAZ=qux"; py "mycmd"; py "arg1"] []
  = @_append_command_words ascii_only [py "mycmd"; py "arg1"] [].
Proof.
  refine (proj1 (proj2 (@assignment_words_skipped ascii_only cpython
            [py "FOO=bar"; py "BAZ=qux"] (py "mycmd") [py "arg1"] [] _ _))).
  - repeat constructor; apply looks_like_assignment_word_iff; reflexivity.
  - apply looks_like_assignment_word_false; reflexivity.
Defined.

(** C4: after [sudo], options are skipped, each of -u -g -h -p -U -t -C
    together with the token after it; the skipping stops at a [--], which is
    consumed; the first word left is appended after [sudo].  On both paths
    [sudo -u root apt-get update] yields [sudo; apt-get]. *)
Theorem sudo_wrapped_command {db : UnicodeDB} {interp : Interpreter}
    (pre args out : list (list N)) :
  Forall assignment_shaped pre ->
  _infer_wrapped_command (py "sudo") args = Ok (sudo_rule args)
  /\ (forall a rest,
        is_option a = true -> a <> py "--" -> ~ In a sudo_arg_options ->
        _infer_wrapped_command (py "sudo") (a :: rest)
        = _infer_wrapped_command (py "sudo") rest)
  /\ (forall a b rest,
        In a sudo_arg_options ->
        _infer_wrapped_command (py "sudo") (a :: b :: rest)
        = _infer_wrapped_command (py "sudo") rest)
  /\ (forall rest,
        _infer_wrapped_command (py "sudo") (py "--" :: rest) = Ok (hd_error rest))
  /\ (forall a rest,
        is_option a = false ->
        _infer_wrapped_command (py "sudo") (a :: rest) = Ok (Some a))
  /\ _append_command_words (pre ++ py "sudo" :: args) out
     = Ok (out ++ py "sudo" :: option_list (sudo_rule args))
  /\ extract_executables None Examples.sudo_line = Ok [py "sudo"; py "apt-get"]
  /\ (forall parse,
        parse Examples.sudo_line = inr [Examples.sudo_tree] ->
        extract_executables (Some parse) Examples.sudo_line
        = Ok [py "sudo"; py "apt-get"]).
Proof.
  intros Hpre. rewrite !infer_wrapped_command_spec.
  split; [reflexivity|]. split.
  { intros a rest Ho Hd Hn. rewrite !infer_wrapped_command_spec.
    rewrite !wrapper_rule_sudo. cbn [sudo_rule].
    apply str_eqb_neq in Hd. rewrite Hd, Ho, (not_In_str_in _ _ Hn).
    reflexivity. }
  split.
  { intros a b rest Ha. rewrite !infer_wrapped_command_spec.
    rewrite !wrapper_rule_sudo. cbn [sudo_rule].
    assert (Hd : str_eqb a (py "--") = false).
    { unfold sudo_arg_options in Ha. cbn [map In] in Ha.
      repeat (destruct Ha as [<- | Ha]; [reflexivity|]). contradiction. }
    assert (Ho : is_option a = true).
    { unfold sudo_arg_options in Ha. cbn [map In] in Ha.
      repeat (destruct Ha as [<- | Ha]; [reflexivity|]). contradiction. }
    apply str_in_In in Ha. now rewrite Hd, Ho, Ha. }
  split.
  { intros rest. now rewrite infer_wrapped_command_spec. }
  split.
  { intros a rest Ho. rewrite infer_wrapped_command_spec, wrapper_rule_sudo.
    cbn [sudo_rule]. rewrite Ho.
    destruct (str_eqb a (py "--")) eqn:E; [|reflexivity].
    apply str_eqb_eq in E. subst a. discriminate. }
  split.
  { rewrite append_command_words_spec, (resolve_skip _ Hpre). reflexivity. }
  split; [reflexivity|].
  intros parse H.
  rewrite (extract_parsed _ _ H), walk_trees_shallow by reflexivity.
  reflexivity.
Qed.

Lemma sudo_wrapped_command_witness :
  @_append_command_words ascii_only
    [py "LANG=C"; py "sudo"; py "-u"; py "root"; py "apt-get"; py "update"] []
  = Ok [py "sudo"; py "apt-get"].
Proof.
  refine (proj1 (proj2 (proj2 (proj2 (proj2 (proj2
            (@sudo_wrapped_command ascii_only cpython [py "LANG=C"]
               [py "-u"; py "root"; py "apt-get"; py "update"] [] _))))))).
  repeat constructor; apply looks_like_assignment_word_iff; reflexivity.
Defined.

(** C5: after [env], options are skipped, -u and --unset together with the
    token after them, and assignment words are skipped; one [--] is consumed,
    after which only assignment words are still skipped; the first word left
    is appended after [env].  On both paths
    [env -i FOO=1 python3 script.py] yields [env; python3]. *)
Theorem env_wrapped_command {db : UnicodeDB} {interp : Interpreter}
    (pre args out : list (list N)) :
  Forall assignment_shaped pre ->
  _infer_wrapped_command (py "env") args = Ok (env_rule args)
  /\ (forall a rest,
        is_option a = true -> a <> py "--" -> ~ In a env_arg_options ->
        _infer_wrapped_command (py "env") (a :: rest)
        = _infer_wrapped_command (py "env") rest)
  /\ (forall a b rest,
        In a env_arg_options ->
        _infer_wrapped_command (py "env") (a :: b :: rest)
        = _infer_wrapped_command (py "env") rest)
  /\ (forall a rest,
        assignment_shaped a ->
        _infer_wrapped_command (py "env") (a :: rest)
        = _infer_wrapped_command (py "env") rest)
  /\ (forall asg w rest,
        Forall assignment_shaped asg -> ~ assignment_shaped w ->
        _infer_wrapped_command (py "env") (py "--" :: asg ++ w :: rest)
        = Ok (Some w))
  /\ (forall asg,
        Forall assignment_shaped asg ->
        _infer_wrapped_command (py "env") (py "--" :: asg) = Ok None)
  /\ (forall a rest,
        is_option a = false -> ~ assignment_shaped a ->
        _infer_wrapped_command (py "env") (a :: rest) = Ok (Some a))
  /\ _append_command_words (pre ++ py "env" :: args) out
     = Ok (out ++ py "env" :: option_list (env_rule args))
  /\ extract_executables None Examples.env_line = Ok [py "env"; py "python3"]
  /\ (forall parse,
        parse Examples.env_line = inr [Examples.env_tree] ->
        extract_executables (Some parse) Examples.env_line
        = Ok [py "env"; py "python3"]).
Proof.
  intros Hpre. rewrite !infer_wrapped_command_spec.
  split; [reflexivity|]. split.
  { intros a rest Ho Hd Hn. rewrite !infer_wrapped_command_spec.
    rewrite !wrapper_rule_env. cbn [env_rule].
    apply str_eqb_neq in Hd. rewrite Hd, Ho, (not_In_str_in _ _ Hn).
    reflexivity. }
  split.
  { intros a b rest Ha. rewrite !infer_wrapped_command_spec.
    rewrite !wrapper_rule_env. cbn [env_rule].
    assert (Hd : str_eqb a (py "--") = false).
    { unfold env_arg_options in Ha. cbn [map In] in Ha.
      repeat (destruct Ha as [<- | Ha]; [reflexivity|]). contradiction. }
    assert (Ho : is_option a = true).
    { unfold env_arg_options in Ha. cbn [map In] in Ha.
      repeat (destruct Ha as [<- | Ha]; [reflexivity|]). contradiction. }
    apply str_in_In in Ha. now rewrite Hd, Ho, Ha. }
  split.
  { intros a rest Ha. rewrite !infer_wrapped_command_spec.
    rewrite !wrapper_rule_env. cbn [env_rule].
    pose proof (assignment_not_dashes Ha) as Hd.
    pose proof (assignment_not_option Ha) as Ho.
    apply looks_like_assignment_word_iff in Ha. now rewrite Hd, Ho, Ha. }
  split.
  { intros asg w rest Ha Hw. rewrite infer_wrapped_command_spec.
    rewrite wrapper_rule_env. cbn [env_rule].
    change (str_eqb (py "--") (py "--")) with true. cbv iota.
    now rewrite (after_assignments_first rest Ha Hw). }
  split.
  { intros asg Ha. rewrite infer_wrapped_command_spec.
    rewrite wrapper_rule_env. cbn [env_rule].
    change (str_eqb (py "--") (py "--")) with true. cbv iota.
    now rewrite (after_assignments_none Ha). }
  split.
  { intros a rest Ho Ha. rewrite infer_wrapped_command_spec, wrapper_rule_env.
    cbn [env_rule]. apply looks_like_assignment_word_false in Ha.
    rewrite Ho, Ha.
    destruct (str_eqb a (py "--")) eqn:E; [|reflexivity].
    apply str_eqb_eq in E. subst a. discriminate. }
  split.
  { rewrite append_command_words_spec, (resolve_skip _ Hpre). reflexivity. }
  split; [reflexivity|].
  intros parse H.
  rewrite (extract_parsed _ _ H), walk_trees_shallow by reflexivity.
  reflexivity.
Qed.

Lemma env_wrapped_command_witness :
  @_append_command_words ascii_only
    [py "A=1"; py "env"; py "-i"; py "FOO=1"; py "python3"; py "script.py"] []
  = Ok [py "env"; py "python3"].
Proof.
  refine (proj1 (proj2 (proj2 (proj2 (proj2 (proj2 (proj2 (proj2
            (@env_wrapped_command ascii_only cpython [py "A=1"]
               [py "-i"; py "FOO=1"; py "python3"; py "script.py"] [] _))))))))).
  repeat constructor; apply looks_like_assignment_word_iff; reflexivity.
Defined.

(** C10: one simple command adds at most two names: the command name, which
    is a word of the command that is not of the shape IDENT=..., and after
    it at most one inferred name, which is there only when the command name
    is one of the sixteen wrappers of the catalog. *)
Theorem at_most_two_names {db : UnicodeDB} (words out : list (list N)) :
  exists names,
    _append_command_words words out = Ok (out ++ names)
    /\ length names <= 2
    /\ (forall cmd rest,
          names = cmd :: rest -> In cmd words /\ ~ assignment_shaped cmd)
    /\ (forall cmd w rest,
          names = cmd :: w :: rest ->
          In cmd _WRAPPERS /\ rest = []
          /\ _infer_wrapped_command cmd (tl (drop_assignments words)) = Ok (Some w))
    /\ length _WRAPPERS = 16 /\ NoDup _WRAPPERS.
Proof.
  exists (resolve words). split; [apply append_command_words_spec|].
  split; [apply resolve_length|].
  assert (Hdrop : forall pre cmd post,
            Forall assignment_shaped pre -> ~ assignment_shaped cmd ->
            drop_assignments (pre ++ cmd :: post) = cmd :: post).
  { intros pre cmd post Hp Hc. induction Hp as [|x pre Hx _ IH]; cbn.
    - apply looks_like_assignment_word_false in Hc. now rewrite Hc.
    - apply looks_like_assignment_word_iff in Hx. now rewrite Hx. }
  assert (Hcat : length _WRAPPERS = 16 /\ NoDup _WRAPPERS).
  { split; [reflexivity|].
    repeat constructor; cbn; intuition discriminate. }
  destruct (resolve_shape words)
    as [-> | (pre & cmd & post & -> & Hpre & Hcmd & [-> | (w & -> & Hw & Hr)])].
  - split; [intros cmd rest H; discriminate|].
    split; [intros cmd w rest H; discriminate | exact Hcat].
  - split.
    { intros c rest H. injection H as <- _.
      split; [apply in_or_app; right; now left | exact Hcmd]. }
    split; [intros c w rest H; discriminate | exact Hcat].
  - split.
    { intros c rest H. injection H as <- _.
      split; [apply in_or_app; right; now left | exact Hcmd]. }
    split; [|exact Hcat].
    intros c w' rest H. injection H as <- <- <-.
    split; [exact Hw|]. split; [reflexivity|].
    rewrite (Hdrop _ _ _ Hpre Hcmd). cbn [tl].
    rewrite infer_wrapped_command_spec. now rewrite Hr.
Qed.

(** C6: for every wrapper of the catalog, when the words after it are
    absent, or are all used up by the skipping (options, with the word
    that an option with an argument takes along, for [env] also
    assignment words, and a closing [--]), nothing is inferred and nothing
    is raised: the wrapper's name is the only name appended.  The lists
    that are used up are all the lists on which nothing is inferred, and
    the inference raises on no list.  On both paths [sudo] alone yields
    [sudo]. *)
Theorem wrapper_alone {db : UnicodeDB} {interp : Interpreter}
    (wrapper : list N) (args out : list (list N)) :
  In wrapper _WRAPPERS -> used_up wrapper args ->
  _infer_wrapped_command wrapper args = Ok None
  /\ _infer_wrapped_command wrapper [] = Ok None
  /\ _append_command_words (wrapper :: args) out = Ok (out ++ [wrapper])
  /\ _append_command_words [wrapper] out = Ok (out ++ [wrapper])
  /\ (forall args', exhausted wrapper args' -> used_up wrapper args')
  /\ (forall args',
        _infer_wrapped_command wrapper args' = Ok None ->
        used_up wrapper args')
  /\ (forall args', exists r, _infer_wrapped_command wrapper args' = Ok r)
  /\ (forall a b,
        In a sudo_arg_options ->
        _infer_wrapped_command (py "sudo") [a; b] = Ok None)
  /\ (forall a b,
        In a env_arg_options ->
        _infer_wrapped_command (py "env") [a; b] = Ok None)
  /\ extract_executables None Examples.bare_sudo_line = Ok [py "sudo"]
  /\ (forall parse,
        parse Examples.bare_sudo_line = inr [Examples.bare_sudo_tree] ->
        extract_executables (Some parse) Examples.bare_sudo_line
        = Ok [py "sudo"]).
Proof.
  intros Hw He.
  rewrite !infer_wrapped_command_spec, !append_command_words_spec.
  rewrite !(resolve_command _ (wrapper_not_assignment Hw)).
  rewrite (proj1 (used_up_wrapper_rule args Hw) He).
  rewrite (proj1 (used_up_wrapper_rule [] Hw) (used_up_nil wrapper)).
  pose proof (proj2 (str_in_In wrapper _WRAPPERS) Hw) as Hin. rewrite Hin.
  cbn [option_list].
  repeat (split; [reflexivity|]).
  split; [intros args'; now apply exhausted_used_up|].
  split.
  { intros args' H. rewrite infer_wrapped_command_spec in H.
    apply used_up_wrapper_rule; [exact Hw | congruence]. }
  split.
  { intros args'. rewrite infer_wrapped_command_spec. eauto. }
  split.
  { intros a b Ha. rewrite infer_wrapped_command_spec.
    unfold sudo_arg_options in Ha. cbn [map In] in Ha.
    repeat (destruct Ha as [<- | Ha]; [reflexivity|]). contradiction. }
  split.
  { intros a b Ha. rewrite infer_wrapped_command_spec.
    unfold env_arg_options in Ha. cbn [map In] in Ha.
    repeat (destruct Ha as [<- | Ha]; [reflexivity|]). contradiction. }
  split; [reflexivity|].
  intros parse H.
  rewrite (extract_parsed _ _ H), walk_trees_shallow by reflexivity.
  reflexivity.
Qed.

Lemma wrapper_alone_witness :
  @_append_command_words ascii_only
    [py "sudo"; py "-i"; py "-u"; py "root"; py "--"] []
  = Ok [py "sudo"].
Proof.
  refine (proj1 (proj2 (proj2
            (@wrapper_alone ascii_only cpython (py "sudo")
               [py "-i"; py "-u"; py "root"; py "--"] [] _ _)))).
  - cbn. tauto.
  - apply used_up_option;
      [reflexivity | discriminate
       | intros [[_ H] | [H _]]; [|discriminate];
         cbn in H; intuition discriminate |].
    apply used_up_argument; [left; split; [reflexivity | cbn; tauto]|].
    apply used_up_dashes; [cbn; intuition discriminate | constructor].
Defined.

(** C7: on [cat file | grep foo | sort] the fallback path returns
    [cat; grep; sort], and so does the grammar-aware path on the pipeline
    tree that the engine builds for this line. *)
Theorem pipeline_paths_agree {db : UnicodeDB} {interp : Interpreter}
    (parse : list N -> exn + list pyval) :
  parse Examples.pipeline_line = inr [Examples.pipeline_tree] ->
  extract_executables None Examples.pipeline_line
  = Ok [py "cat"; py "grep"; py "sort"]
  /\ extract_executables (Some parse) Examples.pipeline_line
     = Ok [py "cat"; py "grep"; py "sort"]
  /\ extract_executables (Some parse) Examples.pipeline_line
     = extract_executables None Examples.pipeline_line.
Proof.
  intros H.
  rewrite (extract_parsed _ _ H), walk_trees_shallow by reflexivity.
  repeat split; reflexivity.
Qed.

Lemma pipeline_paths_agree_witness :
  @extract_executables ascii_only cpython
    (Some (fun _ => inr [Examples.pipeline_tree])) Examples.pipeline_line
  = @extract_executables ascii_only cpython None Examples.pipeline_line.
Proof.
  exact (proj2 (proj2 (@pipeline_paths_agree ascii_only cpython
                         (fun _ => inr [Examples.pipeline_tree]) eq_refl))).
Defined.

(** C9: in the scan of the fallback path a redirection operator is passed
    over together with the token after it, and a marker symbol alone; the
    accumulator and the output stay as they were.  So a command line whose
    tokens hold a redirection operator with its target, or a marker, after
    tokens that are not redirection operators, yields what it yields
    without them. *)
Theorem redirections_and_markers_dropped
    {db : UnicodeDB} {interp : Interpreter}
    (tokens : list (list N)) (i : nat) (t : list N) (words out : list (list N)) :
  nth_error tokens i = Some t ->
  (In t _REDIRECTION_TOKENS ->
   scan_body tokens (i, words, out) = Ok (Next (i + 2, words, out)))
  /\ (In t _NON_COMMAND_TOKENS ->
      scan_body tokens (i, words, out) = Ok (Next (i + 1, words, out)))
  /\ _REDIRECTION_TOKENS
     = map py ["<"; ">"; "<<"; ">>"; "<<<"; "<>"; ">&"; "<&"; ">|"; "<<-"]%string
  /\ _NON_COMMAND_TOKENS = map py ["$"; "!"; "{"]%string
  /\ (forall cmdline toks,
        Shlex.to_list fallback_config (Shlex.init_lexer cmdline) = Ok toks ->
        extract_executables None cmdline = Ok (scan toks [] []))
  /\ (forall pre x post ws o,
        Forall (fun p => ~ In p _REDIRECTION_TOKENS) pre ->
        In t _REDIRECTION_TOKENS ->
        scan (pre ++ t :: x :: post) ws o = scan (pre ++ post) ws o
        /\ scan (pre ++ [t]) ws o = scan pre ws o)
  /\ (forall pre post ws o,
        Forall (fun p => ~ In p _REDIRECTION_TOKENS) pre ->
        In t _NON_COMMAND_TOKENS ->
        scan (pre ++ t :: post) ws o = scan (pre ++ post) ws o).
Proof.
  intros Hi.
  assert (Hg : getitem tokens i = Ok t) by (unfold getitem; now rewrite Hi).
  split.
  { intros Ht. unfold scan_body. rewrite Hg. cbn [bind].
    rewrite (redirection_not_separator Ht).
    now rewrite (proj2 (str_in_In t _REDIRECTION_TOKENS) Ht). }
  split.
  { intros Ht. unfold scan_body. rewrite Hg. cbn [bind].
    destruct (marker_not_separator Ht) as [-> ->].
    now rewrite (proj2 (str_in_In t _NON_COMMAND_TOKENS) Ht). }
  split; [reflexivity|]. split; [reflexivity|].
  split.
  { intros cmdline toks H. now apply fallback_scan. }
  split.
  { intros pre x post ws o Hpre Ht. split.
    - now apply scan_drop_redirection.
    - revert ws o. induction Hpre as [|p pre Hp _ IH]; intros ws o; cbn [app scan].
      + rewrite (redirection_not_separator Ht).
        now rewrite (proj2 (str_in_In t _REDIRECTION_TOKENS) Ht).
      + rewrite (not_In_str_in _ _ Hp).
        destruct (str_in p _COMMAND_SEPARATORS); [apply IH|].
        destruct (str_in p _NON_COMMAND_TOKENS); apply IH. }
  intros pre post ws o Hpre Ht. now apply scan_drop_marker.
Qed.

Lemma redirections_and_markers_dropped_witness :
  @scan_body ascii_only [py "cat"; py "<"; py "in"; py "!"; py "x"]
    (1, [py "cat"], [])
  = Ok (Next (3, [py "cat"], []))
  /\ @scan ascii_only [py "cat"; py "<"; py "in"; py "x"] [] []
     = @scan ascii_only [py "cat"; py "x"] [] [].
Proof.
  pose proof (@redirections_and_markers_dropped ascii_only cpython
                [py "cat"; py "<"; py "in"; py "!"; py "x"] 1 (py "<")
                [py "cat"] [] eq_refl) as (H1 & _ & _ & _ & _ & H2 & _).
  split.
  - apply H1. cbn. tauto.
  - apply (H2 [py "cat"] (py "in") [py "x"] [] []).
    + apply Forall_cons; [|apply Forall_nil].
      cbn. intuition discriminate.
    + cbn. tauto.
Defined.

(** C8: on the fallback path, a command line with a quote that is never
    closed makes the lexer raise [ValueError], and the extractor returns the
    empty list, without raising.  More generally the extractor returns the
    empty list whenever the lexer raises [ValueError].  The line
    [echo 'unterminated] is such a command line. *)
Theorem unterminated_quote_empty {db : UnicodeDB} {interp : Interpreter}
    (cmdline : list N) :
  QuoteInv.unterminated cmdline ->
  Shlex.to_list fallback_config (Shlex.init_lexer cmdline) = Raise ValueError
  /\ extract_executables None cmdline = Ok []
  /\ (forall s : list N,
        Shlex.to_list fallback_config (Shlex.init_lexer s) = Raise ValueError ->
        extract_executables None s = Ok [])
  /\ QuoteInv.unterminated Examples.unterminated_line
  /\ extract_executables None Examples.unterminated_line = Ok [].
Proof.
  intros H.
  assert (Hgen : forall s : list N,
             Shlex.to_list fallback_config (Shlex.init_lexer s)
             = Raise ValueError ->
             extract_executables None s = Ok []).
  { intros s Hs.
    unfold extract_executables, _extract_executables_without_bashlex.
    now rewrite Hs. }
  pose proof (QuoteFacts.unterminated_raises H) as Hr.
  split; [exact Hr|]. split; [now apply Hgen|]. split; [exact Hgen|].
  split; [|reflexivity].
  exists (py "echo "), 39%N, (py "unterminated").
  split; [reflexivity|]. split; [now left|].
  split.
  - repeat (apply Forall_cons;
            [unfold QuoteInv.plain; repeat split; discriminate|]).
    apply Forall_nil.
  - repeat (apply Forall_cons;
            [unfold QuoteInv.inside; split; [|intros _]; discriminate|]).
    apply Forall_nil.
Qed.

Lemma unterminated_quote_empty_witness :
  QuoteInv.unterminated (py "ls 'a b")
  /\ @extract_executables ascii_only cpython None (py "ls 'a b") = Ok [].
Proof.
  assert (H : QuoteInv.unterminated (py "ls 'a b")).
  { exists (py "ls "), 39%N, (py "a b").
    split; [reflexivity|]. split; [now left|].
    split.
    - repeat (apply Forall_cons;
              [unfold QuoteInv.plain; repeat split; discriminate|]).
      apply Forall_nil.
    - repeat (apply Forall_cons;
              [unfold QuoteInv.inside; split; [|intros _]; discriminate|]).
      apply Forall_nil. }
  split; [exact H|].
  exact (proj1 (proj2 (@unterminated_quote_empty ascii_only cpython
                         (py "ls 'a b") H))).
Defined.





(* ===================================================================== *)
(** ** Further properties of the extractor *)
(* ===================================================================== *)

(** X1: on the fallback path a separator token ends the simple command
    before it: the accumulated words are resolved and appended, the
    accumulator is emptied and the scan goes on with the next token.  So
    the names of a command line whose tokens are ordinary words, a
    separator and further tokens are the names of those words followed by
    the names that the further tokens yield on their own. *)
Theorem separator_flushes_words {db : UnicodeDB} {interp : Interpreter}
    (cmdline : list N)
    (pre post : list (list N)) (sep : list N) :
  Shlex.to_list fallback_config (Shlex.init_lexer cmdline)
  = Ok (pre ++ sep :: post) ->
  Forall ordinary pre -> In sep _COMMAND_SEPARATORS ->
  (forall words out : list (list N),
     scan_body (pre ++ sep :: post) (length pre, words, out)
     = Ok (Next (length pre + 1, [], out ++ resolve words)))
  /\ _append_command_words pre [] = Ok (resolve pre)
  /\ extract_executables None cmdline = Ok (resolve pre ++ scan post [] [])
  /\ (forall line : list N,
        Shlex.to_list fallback_config (Shlex.init_lexer line) = Ok post ->
        exists names,
          extract_executables None line = Ok names
          /\ extract_executables None cmdline = Ok (resolve pre ++ names)).
Proof.
  intros Htok Hpre Hsep.
  assert (Hall : extract_executables None cmdline
                 = Ok (resolve pre ++ scan post [] [])).
  { unfold extract_executables. rewrite (fallback_scan _ Htok).
    now rewrite (scan_separator post [] Hpre Hsep). }
  split.
  { intros words out. unfold scan_body, getitem.
    rewrite nth_error_app2 by lia. rewrite Nat.sub_diag. cbn [nth_error bind].
    rewrite (proj2 (str_in_In sep _COMMAND_SEPARATORS) Hsep).
    now rewrite append_command_words_spec. }
  split; [exact (append_command_words_spec pre [])|].
  split; [exact Hall|].
  intros line Hline. exists (scan post [] []). split; [|exact Hall].
  unfold extract_executables. now apply fallback_scan.
Qed.

Lemma separator_flushes_words_witness :
  @extract_executables ascii_only cpython None (py "A=1 ls -l ; sudo pwd")
  = Ok (@resolve ascii_only [py "A=1"; py "ls"; py "-l"]
        ++ @scan ascii_only [py "sudo"; py "pwd"] [] []).
Proof.
  refine (proj1 (proj2 (proj2
    (@separator_flushes_words ascii_only cpython (py "A=1 ls -l ; sudo pwd")
       [py "A=1"; py "ls"; py "-l"] [py "sudo"; py "pwd"] (py ";")
       eq_refl _ _)))).
  - repeat (apply Forall_cons;
            [unfold ordinary; cbn; intuition discriminate|]).
    apply Forall_nil.
  - cbn. tauto.
Defined.

(** X2: on the fallback path, at the end of the tokens the words still
    accumulated are resolved: a command line whose tokens are all ordinary
    words yields the names of these words.  [ls -la /tmp] yields [ls]. *)
Theorem last_words_flushed {db : UnicodeDB} {interp : Interpreter}
    (cmdline : list N)
    (words : list (list N)) :
  Shlex.to_list fallback_config (Shlex.init_lexer cmdline) = Ok words ->
  Forall ordinary words ->
  extract_executables None cmdline = Ok (resolve words)
  /\ extract_executables None cmdline = _append_command_words words []
  /\ extract_executables None (py "ls -la /tmp") = Ok [py "ls"].
Proof.
  intros Htok Hw.
  assert (H : extract_executables None cmdline = Ok (resolve words)).
  { unfold extract_executables. rewrite (fallback_scan _ Htok).
    rewrite <- (app_nil_r words) at 1. rewrite (scan_ordinary Hw).
    reflexivity. }
  split; [exact H|]. split; [|reflexivity].
  now rewrite H, append_command_words_spec.
Qed.

Lemma last_words_flushed_witness :
  @extract_executables ascii_only cpython None (py "nice -n 5 make all")
  = Ok [py "nice"; py "5"].
Proof.
  refine (proj1
    (@last_words_flushed ascii_only cpython (py "nice -n 5 make all")
       [py "nice"; py "-n"; py "5"; py "make"; py "all"] eq_refl _)).
  repeat (apply Forall_cons;
          [unfold ordinary; cbn; intuition discriminate|]).
  apply Forall_nil.
Defined.

(** X3: on the grammar-aware path a tree that is one simple command whose
    parts are plain words yields the names the resolver gives for the
    texts of these words; the fallback path yields the same names when
    the lexer splits the line into these texts and none of them is a
    separator, a redirection operator or a marker symbol.  For
    [ls -la /tmp] that is [ls].  A text that is a separator sets the
    paths apart: for the texts [echo], [|], [ls] the resolver gives
    [echo] and the scan of the fallback path [echo; ls]. *)
Theorem plain_command_names {db : UnicodeDB} {interp : Interpreter}
    (parse : list N -> exn + list pyval) (cmdline : list N)
    (parts : list pyval) (ws : list (list N)) (s e : Z) :
  parse cmdline = inr [Bashlex.command parts s e] ->
  word_parts parts ws ->
  extract_executables (Some parse) cmdline = Ok (resolve ws)
  /\ (Shlex.to_list fallback_config (Shlex.init_lexer cmdline) = Ok ws ->
      Forall ordinary ws ->
      extract_executables None cmdline
      = extract_executables (Some parse) cmdline)
  /\ resolve [py "ls"; py "-la"; py "/tmp"] = [py "ls"]
  /\ resolve [py "echo"; py "|"; py "ls"] = [py "echo"]
  /\ scan [py "echo"; py "|"; py "ls"] [] [] = [py "echo"; py "ls"].
Proof.
  intros Hp Hw.
  assert (H : extract_executables (Some parse) cmdline = Ok (resolve ws)).
  { rewrite (extract_parsed _ _ Hp). unfold walk_trees. cbn [for_each].
    destruct recursion_room_three as (k & ->).
    rewrite (walk_plain_command_fuel (S k) s e [] Hw). reflexivity. }
  split; [exact H|]. split; [|repeat split; reflexivity].
  intros Htok Hord. rewrite H.
  unfold extract_executables. rewrite (fallback_scan _ Htok).
  rewrite <- (app_nil_r ws) at 1. now rewrite (scan_ordinary Hord).
Qed.

Lemma plain_command_names_witness :
  @extract_executables ascii_only cpython
    (Some (fun _ => inr [Bashlex.command
                           [Bashlex.word "ls" 0 2; Bashlex.word "-la" 3 6;
                            Bashlex.word "/tmp" 7 11] 0 11]))
    (py "ls -la /tmp")
  = Ok [py "ls"].
Proof.
  refine (proj1
    (@plain_command_names ascii_only cpython
       (fun _ => inr [Bashlex.command
                        [Bashlex.word "ls" 0 2; Bashlex.word "-la" 3 6;
                         Bashlex.word "/tmp" 7 11] 0 11])
       (py "ls -la /tmp")
       [Bashlex.word "ls" 0 2; Bashlex.word "-la" 3 6; Bashlex.word "/tmp" 7 11]
       [py "ls"; py "-la"; py "/tmp"] 0 11 eq_refl _)).
  repeat (apply Forall2_cons; [eexists; eexists; reflexivity|]).
  apply Forall2_nil.
Defined.

(** X4: the rules of the wrappers other than [sudo] and [env].  After
    [command] and [builtin] every leading word that starts with [-] is
    skipped, [--] included, and the first other word is the wrapped
    command.  After the twelve other wrappers of the catalog the leading
    words that start with [-] are skipped up to a [--], which is consumed;
    the wrapped command is the first word that does not start with [-],
    or whatever word follows the [--].  When only such options are left
    nothing is inferred, and nothing is inferred for a word outside the
    catalog. *)
Theorem command_and_other_wrappers {db : UnicodeDB} (wrapper : list N)
    (opts : list (list N)) (a : list N) (rest : list (list N)) :
  Forall (fun o => is_option o = true) opts -> is_option a = false ->
  (In wrapper command_wrappers ->
     _infer_wrapped_command wrapper (opts ++ a :: rest) = Ok (Some a)
     /\ _infer_wrapped_command wrapper opts = Ok None)
  /\ (In wrapper other_wrappers ->
      Forall (fun o => o <> py "--") opts ->
      _infer_wrapped_command wrapper (opts ++ a :: rest) = Ok (Some a)
      /\ _infer_wrapped_command wrapper (opts ++ py "--" :: rest)
         = Ok (hd_error rest)
      /\ _infer_wrapped_command wrapper opts = Ok None)
  /\ (~ In wrapper _WRAPPERS ->
      forall args, _infer_wrapped_command wrapper args = Ok None)
  /\ (forall w, In w _WRAPPERS <->
                In w [py "sudo"; py "env"] \/ In w command_wrappers
                \/ In w other_wrappers).
Proof.
  intros Ho Ha. split; [|split; [|split]].
  - intros Hw. rewrite !infer_wrapped_command_spec.
    rewrite !(wrapper_rule_command _ Hw).
    rewrite command_rule_first by assumption.
    now rewrite (command_rule_options Ho).
  - intros Hw Hd. rewrite !infer_wrapped_command_spec.
    rewrite !(wrapper_rule_other _ Hw).
    assert (Ho' : Forall (fun o => is_option o = true /\ o <> py "--") opts).
    { apply Forall_forall. intros o Hin. split.
      - exact (proj1 (Forall_forall _ _) Ho o Hin).
      - exact (proj1 (Forall_forall _ _) Hd o Hin). }
    rewrite other_rule_first by assumption.
    rewrite other_rule_dashes by assumption.
    split; [reflexivity|]. split; [reflexivity|].
    rewrite <- (app_nil_r opts). f_equal.
    apply other_rule_exhausted; [exact Ho' | now left].
  - intros Hw args. rewrite infer_wrapped_command_spec.
    now rewrite (wrapper_rule_outside _ Hw).
  - intros w. unfold _WRAPPERS, command_wrappers, other_wrappers.
    cbn [map In]. tauto.
Qed.

Lemma command_and_other_wrappers_witness :
  @_infer_wrapped_command ascii_only (py "command")
    ([py "-p"; py "--"] ++ py "ls" :: [py "-l"]) = Ok (Some (py "ls"))
  /\ @_infer_wrapped_command ascii_only (py "nice")
       ([py "-n"] ++ py "5" :: [py "make"]) = Ok (Some (py "5")).
Proof.
  split.
  - refine (proj1 (proj1
      (@command_and_other_wrappers ascii_only (py "command")
         [py "-p"; py "--"] (py "ls") [py "-l"] _ eq_refl) _)).
    + repeat (apply Forall_cons; [reflexivity|]). apply Forall_nil.
    + cbn. tauto.
  - refine (proj1 (proj1 (proj2
      (@command_and_other_wrappers ascii_only (py "nice")
         [py "-n"] (py "5") [py "make"] _ eq_refl)) _ _)).
    + repeat (apply Forall_cons; [reflexivity|]). apply Forall_nil.
    + cbn. tauto.
    + repeat (apply Forall_cons; [discriminate|]). apply Forall_nil.
Defined.

(** X5: wrapper inference goes one level deep.  When the word inferred
    after a wrapper is itself a wrapper, it is appended as it is and no
    rule is run for it: a simple command never contributes a third name.
    [sudo env FOO=1 cmd] yields [sudo; env]. *)
Theorem inference_is_single_level {db : UnicodeDB} {interp : Interpreter}
    (wrapper wrapped : list N)
    (args out : list (list N)) :
  In wrapper _WRAPPERS ->
  _infer_wrapped_command wrapper args = Ok (Some wrapped) ->
  _append_command_words (wrapper :: args) out = Ok (out ++ [wrapper; wrapped])
  /\ extract_executables None (py "sudo env FOO=1 cmd")
     = Ok [py "sudo"; py "env"].
Proof.
  intros Hw Hi. split; [|reflexivity].
  rewrite append_command_words_spec.
  rewrite (resolve_command args (wrapper_not_assignment Hw)).
  rewrite (proj2 (str_in_In wrapper _WRAPPERS) Hw).
  rewrite infer_wrapped_command_spec in Hi. injection Hi as ->.
  reflexivity.
Qed.

Lemma inference_is_single_level_witness :
  @_append_command_words ascii_only
    [py "sudo"; py "env"; py "FOO=1"; py "cmd"] []
  = Ok [py "sudo"; py "env"].
Proof.
  refine (proj1
    (@inference_is_single_level ascii_only cpython (py "sudo") (py "env")
       [py "env"; py "FOO=1"; py "cmd"] [] _ eq_refl)).
  cbn. tauto.
Defined.

(** X6: a command line made of spaces, tabs, carriage returns and line
    feeds only, the empty one included, has no tokens, and the fallback
    path returns the empty list for it; so does the grammar-aware path
    when the engine returns no tree. *)
Theorem blank_input_empty {db : UnicodeDB} {interp : Interpreter}
    (cmdline : list N) :
  shell_blank cmdline ->
  Shlex.to_list fallback_config (Shlex.init_lexer cmdline) = Ok []
  /\ extract_executables None cmdline = Ok []
  /\ (forall parse : list N -> exn + list pyval,
        parse cmdline = inr [] ->
        extract_executables (Some parse) cmdline = Ok [])
  /\ extract_executables None [] = Ok [].
Proof.
  intros H. pose proof (BlankFacts.blank_tokens H) as Ht.
  split; [exact Ht|]. split; [|split; [|reflexivity]].
  - unfold extract_executables. now rewrite (fallback_scan _ Ht).
  - intros parse Hp. now rewrite (extract_parsed _ _ Hp).
Qed.

Lemma blank_input_empty_witness :
  @extract_executables ascii_only cpython None [32; 9; 10; 13; 32]%N = Ok [].
Proof.
  refine (proj1 (proj2
    (@blank_input_empty ascii_only cpython [32; 9; 10; 13; 32]%N _))).
  repeat (apply Forall_cons; [cbn; tauto|]). apply Forall_nil.
Defined.

(** X7: the names are raw words, in their order.  What the resolver
    appends for a simple command is a subsequence of its words, and what
    the fallback path returns is a subsequence of the tokens of the
    lexer. *)
Theorem names_are_words_in_order {db : UnicodeDB} {interp : Interpreter}
    (cmdline : list N)
    (tokens : list (list N)) :
  Shlex.to_list fallback_config (Shlex.init_lexer cmdline) = Ok tokens ->
  (exists names,
     extract_executables None cmdline = Ok names /\ subseq names tokens
     /\ forall name, In name names -> In name tokens)
  /\ (forall words out : list (list N),
        exists names,
          _append_command_words words out = Ok (out ++ names)
          /\ subseq names words).
Proof.
  intros Htok. split.
  - exists (scan tokens [] []). split.
    + unfold extract_executables. now apply fallback_scan.
    + split; [apply scan_subseq|].
      intros name. apply subseq_In, scan_subseq.
  - intros words out. exists (resolve words).
    split; [apply append_command_words_spec | apply resolve_subseq].
Qed.

Lemma names_are_words_in_order_witness :
  exists names,
    @extract_executables ascii_only cpython None
      (py "cat < in | env -i sort > out")
    = Ok names
    /\ subseq names
         [py "cat"; py "<"; py "in"; py "|"; py "env"; py "-i"; py "sort";
          py ">"; py "out"]
    /\ forall name,
         In name names ->
         In name [py "cat"; py "<"; py "in"; py "|"; py "env"; py "-i";
                  py "sort"; py ">"; py "out"].
Proof.
  exact (proj1
    (@names_are_words_in_order ascii_only cpython
       (py "cat < in | env -i sort > out")
       [py "cat"; py "<"; py "in"; py "|"; py "env"; py "-i"; py "sort";
        py ">"; py "out"] eq_refl)).
Defined.

(** X8: the normalization of the retry rewrites quoted heredoc delimiters
    only: a text without single and double quotes is left as it is by the
    substitution, so the text parsed at the retry is the dedented
    original. *)
Theorem quote_free_text_kept {db : UnicodeDB} (src : list N) :
  quote_free src ->
  re_sub_heredoc src = src
  /\ _bashlex_fallback_source src = Textwrap.dedent src.
Proof.
  intros H.
  assert (E : re_sub_heredoc src = src).
  { unfold re_sub_heredoc. now apply sub_heredoc_quote_free. }
  split; [exact E|]. unfold _bashlex_fallback_source. cbv zeta. now rewrite E.
Qed.

Lemma quote_free_text_kept_witness :
  @_bashlex_fallback_source ascii_only (py "  cat <<EOF")
  = Textwrap.dedent (py "  cat <<EOF").
Proof.
  refine (proj2 (@quote_free_text_kept ascii_only (py "  cat <<EOF") _)).
  repeat (apply Forall_cons; [split; discriminate|]). apply Forall_nil.
Defined.

(** X9: the two paths agree on pipelines of plain commands whose words
    are ordinary, that is, no separator, redirection operator or marker
    symbol.  When the engine returns a pipeline node whose parts are
    simple commands of such words with [pipe] nodes between them, the
    grammar-aware path returns the names of the first command, then those
    of the second, and so on; the fallback path returns the same list when
    the lexer splits the line into the words of the commands with the
    token [|] between them. *)
Theorem pipelines_agree {db : UnicodeDB} {interp : Interpreter}
    (parse : list N -> exn + list pyval) (cmdline : list N)
    (nodes : list pyval) (wss : list (list (list N))) (s e : Z) :
  parse cmdline = inr [Bashlex.pipeline nodes s e] ->
  pipeline_parts nodes wss ->
  Shlex.to_list fallback_config (Shlex.init_lexer cmdline)
  = Ok (pipe_tokens wss) ->
  Forall (Forall ordinary) wss ->
  extract_executables (Some parse) cmdline = Ok (flat_map resolve wss)
  /\ extract_executables None cmdline = Ok (flat_map resolve wss).
Proof.
  intros Hp Hn Htok Hord. split.
  - rewrite (extract_parsed _ _ Hp). unfold walk_trees. cbn [for_each].
    destruct recursion_room_three as (k & ->).
    rewrite (walk_pipeline k s e [] Hn). reflexivity.
  - unfold extract_executables. rewrite (fallback_scan _ Htok).
    now rewrite (scan_pipe_tokens Hord).
Qed.

Lemma pipelines_agree_witness :
  @extract_executables ascii_only cpython
    (Some (fun _ => inr [Examples.pipeline_tree])) Examples.pipeline_line
  = Ok [py "cat"; py "grep"; py "sort"]
  /\ @extract_executables ascii_only cpython None Examples.pipeline_line
     = Ok [py "cat"; py "grep"; py "sort"].
Proof.
  refine (@pipelines_agree ascii_only cpython
            (fun _ => inr [Examples.pipeline_tree]) Examples.pipeline_line
            [Bashlex.command [Bashlex.word "cat" 0 3; Bashlex.word "file" 4 8] 0 8;
             Bashlex.pipe 9 10;
             Bashlex.command [Bashlex.word "grep" 11 15; Bashlex.word "foo" 16 19]
               11 19;
             Bashlex.pipe 20 21;
             Bashlex.command [Bashlex.word "sort" 22 26] 22 26]
            [[py "cat"; py "file"]; [py "grep"; py "foo"]; [py "sort"]]
            0 26 eq_refl _ eq_refl _).
  - apply pipeline_more.
    { repeat (apply Forall2_cons; [eexists; eexists; reflexivity|]).
      apply Forall2_nil. }
    apply pipeline_more.
    { repeat (apply Forall2_cons; [eexists; eexists; reflexivity|]).
      apply Forall2_nil. }
    apply pipeline_last.
    repeat (apply Forall2_cons; [eexists; eexists; reflexivity|]).
    apply Forall2_nil.
  - repeat (apply Forall_cons;
            [repeat (apply Forall_cons;
                     [unfold ordinary; cbn; intuition discriminate|]);
             apply Forall_nil|]).
    apply Forall_nil.
Defined.





(** X12: on the grammar-aware path nothing is invented: every name of the
    result is the text of a part of kind [word] of a node of kind
    [command] that is reached from a tree of the parse. *)
Theorem names_come_from_word_parts {db : UnicodeDB} {interp : Interpreter}
    (parse : list N -> exn + list pyval) (cmdline : list N)
    (trees : list pyval) (names : list (list N)) (name : list N) :
  parse cmdline = inr trees ->
  extract_executables (Some parse) cmdline = Ok names ->
  In name names ->
  exists root d parts p,
    In root trees /\ descendant root d
    /\ is_str (getattr d "kind") "command" = true
    /\ getattr d "parts" = PyList parts
    /\ In p parts /\ is_str (getattr p "kind") "word" = true
    /\ _word_text p = Some name.
Proof.
  intros Hp He Hin. rewrite (extract_parsed _ _ Hp) in He.
  apply walk_trees_ok in He as ->.
  apply in_flat_map in Hin as (root & Hroot & Hin).
  destruct (@names_descendant _ (S (depth root)) root name) as (d & Hd & Hown);
    [lia | exact Hin |].
  apply own_names_In in Hown as (Hk & parts & Hparts & Hw).
  apply command_words_In in Hw as (p & Hpin & Hpk & Hpt).
  exists root, d, parts, p. repeat split; assumption.
Qed.

Lemma names_come_from_word_parts_witness :
  exists root d parts p,
    In root [MoreExamples.substitution_tree] /\ descendant root d
    /\ is_str (getattr d "kind") "command" = true
    /\ getattr d "parts" = PyList parts
    /\ In p parts /\ is_str (getattr p "kind") "word" = true
    /\ _word_text p = Some (py "date").
Proof.
  refine (@names_come_from_word_parts ascii_only cpython
            (fun _ => inr [MoreExamples.substitution_tree])
            (py "echo $(date)") [MoreExamples.substitution_tree]
            [py "echo"; py "date"] (py "date") eq_refl eq_refl _).
  right. left. reflexivity.
Defined.

(** X13: the children of a node are exactly the values of its attributes
    that have a [kind], and the elements with a [kind] of its attributes
    that are lists or tuples.  Attributes that are [None], strings or
    numbers give no child; a list inside a list is not searched, and
    neither is an object without [kind]; a value that is no object has no
    children. *)
Theorem children_of_a_node (d : list (list N * pyval)) (c : pyval) :
  (In c (_iter_children (PyObj d)) <->
   _is_ast_node c = true
   /\ exists k v, In (k, v) d
      /\ (v = c \/ exists l, (v = PyList l \/ v = PyTuple l) /\ In c l))
  /\ Forall (fun x => _is_ast_node x = true) (_iter_children (PyObj d))
  /\ (forall k l, _iter_children (PyObj [(k, PyList [PyList l])]) = [])
  /\ (forall k d',
        lookup (py "kind") d' = None ->
        _iter_children (PyObj [(k, PyObj d')]) = [])
  /\ (forall v, (forall d', v <> PyObj d') -> _iter_children v = []).
Proof.
  split; [apply iter_children_In|]. split; [apply iter_children_nodes|].
  split; [reflexivity|]. split.
  - intros k d' H. cbn [_iter_children flat_map snd _is_ast_node].
    now rewrite H.
  - intros v H. destruct v; try reflexivity. now elim (H d0).
Qed.

(** X14: the words of a command node are, in order, the texts of its
    parts of kind [word]: the attribute [word] when it is a string,
    otherwise the attribute [value] when it is a string, otherwise the
    part is left out.  Parts of another kind contribute no word, and when
    [parts] is missing or is no list nothing is appended. *)
Theorem command_node_words {db : UnicodeDB} (node : pyval)
    (out : list (list N)) :
  _handle_command_node node out
  = Ok (out ++ match getattr node "parts" with
               | PyList parts => resolve (command_words parts)
               | _ => []
               end)
  /\ (forall parts w,
        In w (command_words parts) <->
        exists p, In p parts /\ is_str (getattr p "kind") "word" = true
                  /\ _word_text p = Some w)
  /\ (forall p1 p2 parts,
        command_words (p1 :: p2 :: parts)
        = command_words [p1] ++ command_words [p2] ++ command_words parts)
  /\ (forall p w, getattr p "word" = PyStr w -> _word_text p = Some w)
  /\ (forall p v,
        (forall w, getattr p "word" <> PyStr w) ->
        getattr p "value" = PyStr v -> _word_text p = Some v)
  /\ (forall p,
        (forall w, getattr p "word" <> PyStr w) ->
        (forall v, getattr p "value" <> PyStr v) -> _word_text p = None).
Proof.
  split; [apply handle_command_node_names|].
  split; [intros parts w; apply command_words_In|].
  split.
  { intros p1 p2 parts. unfold command_words. cbn [flat_map].
    now rewrite !app_nil_r. }
  split.
  { intros p w H. unfold _word_text. now rewrite H. }
  split.
  { intros p v Hw Hv. unfold _word_text. rewrite Hv.
    destruct (getattr p "word") as [| w | | | |] eqn:E; try reflexivity.
    now elim (Hw w). }
  intros p Hw Hv. unfold _word_text.
  destruct (getattr p "word") as [| w | | | |] eqn:E;
    try (now elim (Hw w));
    destruct (getattr p "value") as [| v | | | |] eqn:E2;
    try reflexivity; now elim (Hv v).
Qed.

(** X15: the tokens of the fallback path.  A command line written with
    words, runs of the punctuation characters and runs of blanks, no two
    neighbours of the same kind, where a word is written with plain
    characters, single quotations, double quotations and
    backslash-escaped characters, is split into the values of the words
    and the punctuation runs: quotes are removed, and so are backslashes,
    except in a double quotation before a character that is neither the
    quote nor a backslash.  The
    result is the scan of these tokens, so two such lines with the same
    tokens give the same names: a quoted operator counts as the
    operator. *)
Theorem tokens_of_a_line {db : UnicodeDB} {interp : Interpreter}
    (ps : list Pieces.piece) :
  Pieces.well_formed ps ->
  Shlex.to_list fallback_config (Shlex.init_lexer (Pieces.line_text ps))
  = Ok (Pieces.line_tokens ps)
  /\ extract_executables None (Pieces.line_text ps)
     = Ok (scan (Pieces.line_tokens ps) [] [])
  /\ (forall ps',
        Pieces.well_formed ps' ->
        Pieces.line_tokens ps' = Pieces.line_tokens ps ->
        extract_executables None (Pieces.line_text ps')
        = extract_executables None (Pieces.line_text ps)).
Proof.
  intros H.
  assert (Hall : forall qs,
             Pieces.well_formed qs ->
             extract_executables None (Pieces.line_text qs)
             = Ok (scan (Pieces.line_tokens qs) [] [])).
  { intros qs Hq. unfold extract_executables.
    apply fallback_scan. now apply PieceFacts.pieces_tokens. }
  split; [now apply PieceFacts.pieces_tokens|]. split; [now apply Hall|].
  intros ps' H' E. rewrite (Hall ps' H'), (Hall ps H). now rewrite E.
Qed.

Lemma tokens_of_a_line_witness :
  @extract_executables ascii_only cpython None (py "echo '|' rm")
  = @extract_executables ascii_only cpython None (py "echo|rm").
Proof.
  assert (Hwordy : forall s, forallb
            (fun c => negb (chr_in c [32; 9; 13; 10]%N)
                      && negb (chr_in c [92%N])
                      && negb (chr_in c (py "|&;()<>"))
                      && negb (chr_in c [39; 34]%N)) s = true ->
            Forall Pieces.wordy s).
  { intros s Hs. apply Forall_forall. intros c Hc.
    rewrite forallb_forall in Hs. specialize (Hs c Hc).
    apply andb_prop in Hs as [Hs H4]. apply andb_prop in Hs as [Hs H3].
    apply andb_prop in Hs as [H1 H2].
    apply negb_true_iff in H1, H2, H3, H4. repeat split; assumption. }
  refine (proj2 (proj2
    (@tokens_of_a_line ascii_only cpython
       [Pieces.Word [Pieces.Plain (py "echo")]; Pieces.Punct (py "|");
        Pieces.Word [Pieces.Plain (py "rm")]] _))
    [Pieces.Word [Pieces.Plain (py "echo")]; Pieces.Blank (py " ");
     Pieces.Word [Pieces.Single (py "|")]; Pieces.Blank (py " ");
     Pieces.Word [Pieces.Plain (py "rm")]] _ eq_refl).
  - split.
    + repeat apply Forall_cons; try apply Forall_nil.
      * split; [discriminate|].
        apply Forall_cons; [|apply Forall_nil].
        split; [discriminate | now apply Hwordy].
      * split; [discriminate|]. apply Forall_cons; [|apply Forall_nil].
        cbn. tauto.
      * split; [discriminate|].
        apply Forall_cons; [|apply Forall_nil].
        split; [discriminate | now apply Hwordy].
    + cbn. tauto.
  - split.
    + repeat apply Forall_cons; try apply Forall_nil.
      * split; [discriminate|].
        apply Forall_cons; [|apply Forall_nil].
        split; [discriminate | now apply Hwordy].
      * split; [discriminate|]. apply Forall_cons; [|apply Forall_nil].
        cbn. tauto.
      * split; [discriminate|].
        apply Forall_cons; [|apply Forall_nil].
        apply Forall_cons; [discriminate | apply Forall_nil].
      * split; [discriminate|]. apply Forall_cons; [|apply Forall_nil].
        cbn. tauto.
      * split; [discriminate|].
        apply Forall_cons; [|apply Forall_nil].
        split; [discriminate | now apply Hwordy].
    + cbn. tauto.
Defined.

(** X16: a command line of plain words with one space between two of
    them, none of them a marker symbol, yields on the fallback path
    exactly the names the resolver gives for these words. *)
Theorem plain_command_line {db : UnicodeDB} {interp : Interpreter}
    (ws : list (list N)) :
  Forall plain_word ws ->
  Forall (fun w => ~ In w _NON_COMMAND_TOKENS) ws ->
  Shlex.to_list fallback_config (Shlex.init_lexer (spaced ws)) = Ok ws
  /\ extract_executables None (spaced ws) = Ok (resolve ws)
  /\ extract_executables None (spaced ws) = _append_command_words ws [].
Proof.
  intros Hw Hm.
  assert (Ht : Shlex.to_list fallback_config (Shlex.init_lexer (spaced ws))
               = Ok ws).
  { rewrite <- spaced_pieces_text.
    rewrite (PieceFacts.pieces_tokens (spaced_pieces_well_formed Hw)).
    now rewrite spaced_pieces_tokens. }
  assert (He : extract_executables None (spaced ws) = Ok (resolve ws)).
  { unfold extract_executables. rewrite (fallback_scan _ Ht).
    rewrite <- (app_nil_r ws) at 1.
    rewrite (scan_ordinary (plain_words_ordinary Hw Hm)). reflexivity. }
  split; [exact Ht|]. split; [exact He|].
  rewrite He. now rewrite append_command_words_spec.
Qed.

Lemma plain_command_line_witness :
  @extract_executables ascii_only cpython None (py "A=1 env -i B=2 make -j4")
  = Ok [py "env"; py "make"].
Proof.
  assert (Hplain : forall s, s <> [] -> forallb
            (fun c => negb (chr_in c [32; 9; 13; 10]%N)
                      && negb (chr_in c [92%N])
                      && negb (chr_in c (py "|&;()<>"))
                      && negb (chr_in c [39; 34]%N)) s = true ->
            plain_word s).
  { intros s Hne Hs. split; [exact Hne|]. apply Forall_forall. intros c Hc.
    rewrite forallb_forall in Hs. specialize (Hs c Hc).
    apply andb_prop in Hs as [Hs H4]. apply andb_prop in Hs as [Hs H3].
    apply andb_prop in Hs as [H1 H2].
    apply negb_true_iff in H1, H2, H3, H4. repeat split; assumption. }
  refine (proj1 (proj2
    (@plain_command_line ascii_only cpython
       [py "A=1"; py "env"; py "-i"; py "B=2"; py "make"; py "-j4"] _ _))).
  - repeat (apply Forall_cons; [apply Hplain; [discriminate | reflexivity]|]).
    apply Forall_nil.
  - repeat (apply Forall_cons; [cbn; intuition discriminate|]).
    apply Forall_nil.
Defined.

(** X17: the fallback path raises inside the lexer, and so returns the
    empty list, exactly when the quoting of the command line is
    malformed: a single or double quotation that is not closed, or a
    backslash, outside quotations or inside a double quotation, with
    nothing after it.  Otherwise the lexer returns tokens and the result
    is their scan. *)
Theorem malformed_quoting_exact {db : UnicodeDB} {interp : Interpreter}
    (cmdline : list N) :
  (Shlex.to_list fallback_config (Shlex.init_lexer cmdline) = Raise ValueError
   <-> Quoting.malformed cmdline = true)
  /\ (Quoting.malformed cmdline = true ->
      extract_executables None cmdline = Ok [])
  /\ (Quoting.malformed cmdline = false ->
      exists tokens,
        Shlex.to_list fallback_config (Shlex.init_lexer cmdline) = Ok tokens
        /\ extract_executables None cmdline = Ok (scan tokens [] []))
  /\ Quoting.malformed (py "echo 'unterminated") = true
  /\ Quoting.malformed [101; 99; 104; 111; 32; 92]%N = true.
Proof.
  split; [apply QuotingFacts.malformed_raises|]. split; [|split].
  - intros H. apply QuotingFacts.malformed_raises in H.
    unfold extract_executables, _extract_executables_without_bashlex.
    now rewrite H.
  - intros H. exists (fst (LexSpec.lex cmdline)).
    assert (Ht : Shlex.to_list fallback_config (Shlex.init_lexer cmdline)
                 = Ok (fst (LexSpec.lex cmdline))).
    { rewrite LexFacts.fallback_tokens, QuotingFacts.lex_malformed.
      now rewrite H. }
    split; [exact Ht|]. unfold extract_executables. now apply fallback_scan.
  - split; reflexivity.
Qed.

(** X18: on the fallback path no token of the three tables is reported:
    every name of the result is a token outside [_COMMAND_SEPARATORS],
    [_REDIRECTION_TOKENS] and [_NON_COMMAND_TOKENS].  An operator that the
    tables do not hold is reported like a word: [&>/dev/null ls] yields
    [&>], and [((ls))] yields [((]. *)
Theorem table_tokens_not_reported {db : UnicodeDB} {interp : Interpreter}
    (cmdline : list N) (names : list (list N)) :
  extract_executables None cmdline = Ok names ->
  Forall ordinary names
  /\ extract_executables None (py "&>/dev/null ls") = Ok [py "&>"]
  /\ extract_executables None (py "((ls))") = Ok [py "(("].
Proof.
  intros H. split; [|split; reflexivity].
  unfold extract_executables, _extract_executables_without_bashlex in H.
  destruct (Shlex.to_list fallback_config (Shlex.init_lexer cmdline))
    as [tokens | [] |] eqn:E; try discriminate.
  - rewrite scan_tokens_spec in H. injection H as <-.
    apply scan_names_ordinary with (n := length tokens); [lia | constructor].
  - injection H as <-. constructor.
Qed.

Lemma table_tokens_not_reported_witness :
  Forall ordinary [py "cat"; py "sudo"; py "tee"].
Proof.
  apply (@table_tokens_not_reported ascii_only cpython
           (py "cat < in | sudo -u x tee > out &")).
  vm_compute. reflexivity.
Defined.



(** X20: the retry cannot rescue a text that the normalization leaves
    unchanged.  For a text without quotes whose lines all start with a
    character other than a space or a tab, the normalized text is the
    text itself, so when the engine fails on it the result is the empty
    list. *)
Theorem unquoted_text_fails_twice {db : UnicodeDB} {interp : Interpreter}
    (parse : list N -> exn + list pyval) (bodies : list (list N)) (e : exn) :
  bodies <> [] -> Forall text_line bodies ->
  quote_free (join_lines bodies) ->
  parse (join_lines bodies) = inl e ->
  _bashlex_fallback_source (join_lines bodies) = join_lines bodies
  /\ extract_executables (Some parse) (join_lines bodies) = Ok [].
Proof.
  intros Hne Hb Hq Hp.
  assert (E : _bashlex_fallback_source (join_lines bodies) = join_lines bodies).
  { unfold _bashlex_fallback_source, re_sub_heredoc. cbv zeta.
    rewrite (sub_heredoc_quote_free _ Hq).
    pose proof (@dedent_common_margin [] bodies Hne eq_refl Hb) as Hd.
    cbn [app] in Hd. rewrite map_id in Hd. exact Hd. }
  split; [exact E|]. unfold extract_executables. now rewrite Hp, E, Hp.
Qed.

Lemma unquoted_text_fails_twice_witness :
  @extract_executables ascii_only cpython (Some (fun _ => inl LibraryError))
    (join_lines [py "if x"; py "then"]) = Ok [].
Proof.
  refine (proj2
    (@unquoted_text_fails_twice ascii_only cpython (fun _ => inl LibraryError)
       [py "if x"; py "then"] LibraryError _ _ _ eq_refl)).
  - discriminate.
  - repeat (apply Forall_cons;
            [eexists; eexists; split; [reflexivity|]; split; [reflexivity|];
             repeat (apply Forall_cons; [discriminate|]); apply Forall_nil|]).
    apply Forall_nil.
  - repeat (apply Forall_cons; [split; discriminate|]). apply Forall_nil.
Defined.
